(** * Todo-app-supabase: the data access layer, the query cache and the AI gateway

    A shallow embedding of the original logic of the todo application:

    - [src/pages/Todos.tsx]: the four data access functions ([fetchTodos],
      [createTodo], [updateTodo], [deleteTodo]), the three mutations built on
      them, the form schema, the event handlers, the filter tabs and the
      selection of suggestions;
    - [src/App.tsx]: the [queryClient] and its default options, the routes
      and their guards;
    - [src/lib/ai.ts]: [generateTodosFromPrompt];
    - [src/lib/supabase.ts]: the checks the client is created under;
    - [supabase-setup.sql]: the [todos] table and its row-level policies.

    The hosted services (Supabase, the completion endpoint) and the libraries
    the code is written against (the query cache, [JSON.parse]) are not part
    of the repository; they are modelled here as far as the code relies on
    them, and every such model says so. *)

From Stdlib Require Import ZArith NArith List Ascii String DecimalString Lia.
From stdpp Require Import base tactics option list numbers sorting.

Set Default Proof Using "Type".
Set Warnings "-register-all".

(** ** JavaScript strings

    A JavaScript string is a sequence of UTF-16 code units. *)

Abbreviation jsstring := (list N).

(** A string literal of the source, for the ASCII literals it uses. *)
Definition js (s : string) : jsstring :=
  map N_of_ascii (list_ascii_of_string s).

(** ** Data model ([interface Todo], [CREATE TABLE todos]) *)

(** [id] and [user_id] are UUIDs: 128-bit values. [created_at] is a point in
    time, in microseconds. *)
Record Todo := mkTodo {
  id : N;
  title : jsstring;
  completed : bool;
  created_at : Z;
  user_id : N
}.

(** [Partial<Todo>]: every field optional. *)
Record PartialTodo := mkPartial {
  upd_id : option N;
  upd_title : option jsstring;
  upd_completed : option bool;
  upd_created_at : option Z;
  upd_user_id : option N
}.

(** The object literals the handlers build. *)
Definition only_title (t : jsstring) : PartialTodo :=
  mkPartial None (Some t) None None None.
Definition only_completed (b : bool) : PartialTodo :=
  mkPartial None None (Some b) None None.

Record User := mkUser { uid : N; email : jsstring }.

Record PostgrestError := mkPgError { message : jsstring; code : jsstring }.

#[global] Instance Todo_eq_dec : EqDecision Todo.
Proof. solve_decision. Defined.
#[global] Instance PartialTodo_eq_dec : EqDecision PartialTodo.
Proof. solve_decision. Defined.
#[global] Instance User_eq_dec : EqDecision User.
Proof. solve_decision. Defined.
#[global] Instance PostgrestError_eq_dec : EqDecision PostgrestError.
Proof. solve_decision. Defined.

(** What a rejected promise carries: the service's error object
    ([throw error]), an [Error] made by the code ([throw new Error(msg)]), or
    a built-in error raised by the runtime. *)
Inductive Thrown :=
| ThrowPostgrest (e : PostgrestError)
| ThrowError (msg : jsstring)
| ThrowTypeError
| ThrowSyntaxError.

#[global] Instance Thrown_eq_dec : EqDecision Thrown.
Proof. solve_decision. Defined.

Inductive Result (A : Type) :=
| Ok (a : A)
| Throw (e : Thrown).
Arguments Ok {A} a.
Arguments Throw {A} e.

Definition is_ok {A} (r : Result A) : bool :=
  match r with Ok _ => true | Throw _ => false end.

(** The error kinds by the names of the design, as the code raises them. *)
Definition RemoteError (e : PostgrestError) : Thrown := ThrowPostgrest e.
Definition NotAuthenticatedError : Thrown := ThrowError (js "Not authenticated").
Definition NotConfiguredError : Thrown :=
  ThrowError (js "AI is not configured. Please set VITE_OPENAI_API_KEY in your environment to enable AI features.").
Definition ParseError : Thrown :=
  ThrowError (js "Failed to parse AI response. Please try again.").
Definition EmptyResponseError : Thrown :=
  ThrowError (js "AI response was empty.").

(** ** The completion endpoint ([fetch]) *)

Record ChatMessage := mkMessage { role : jsstring; content : jsstring }.

(** The body passed to [JSON.stringify]; [temperature] is in tenths (0.7). *)
Record ChatRequest := mkChatRequest {
  model : jsstring;
  messages : list ChatMessage;
  temperature_tenths : N;
  max_tokens : N;
  response_format : jsstring
}.

Record HttpRequest := mkHttpRequest {
  url : jsstring;
  method : jsstring;
  headers : list (jsstring * jsstring);
  body : ChatRequest
}.

(** The declared shape of the response body:
    [{ choices?: { message?: { content?: string } }[] }]. *)
Record CompletionMessage := mkCompletionMessage { completion_content : option jsstring }.
Record Choice := mkChoice { choice_message : option CompletionMessage }.
Record Completion := mkCompletion { choices : option (list Choice) }.

(** An HTTP response: [json] is [None] when the body is not JSON, so that
    [response.json()] rejects. *)
Record HttpResponse := mkHttpResponse {
  status : N;
  statusText : jsstring;
  text : jsstring;
  json : option Completion
}.

(** [response.ok]: the status is in the range 200-299. *)
Definition ok (r : HttpResponse) : bool :=
  (200 <=? status r)%N && (status r <=? 299)%N.

(** [fetch] resolves with a response or rejects with a [TypeError]. *)
Inductive HttpOutcome :=
| Responded (r : HttpResponse)
| NetworkFailure.

#[global] Instance ChatMessage_eq_dec : EqDecision ChatMessage.
Proof. solve_decision. Defined.
#[global] Instance ChatRequest_eq_dec : EqDecision ChatRequest.
Proof. solve_decision. Defined.
#[global] Instance HttpRequest_eq_dec : EqDecision HttpRequest.
Proof. solve_decision. Defined.

(** ** Service calls

    Every call the code awaits. The query-builder chains of the source are
    the constructors' comments. *)
Inductive Request :=
| AuthGetUser
    (* supabase.auth.getUser() *)
| SelectTodos (ascending : bool)
    (* .from('todos').select('*').order('created_at', { ascending }) *)
| InsertTodo (new_title : jsstring) (new_user_id : N)
    (* .from('todos').insert([{ title, user_id }]).select().single() *)
| UpdateTodo (updates : PartialTodo) (target : N)
    (* .from('todos').update(updates).eq('id', id).select().single() *)
| DeleteTodo (target : N)
    (* .from('todos').delete().eq('id', id) *)
| HttpFetch (rq : HttpRequest).
    (* fetch(url, { method, headers, body }) *)

#[global] Instance Request_eq_dec : EqDecision Request.
Proof. solve_decision. Defined.

(** What a data call resolves to: [{ data, error: null }] or
    [{ data: null, error }]. *)
Inductive PgResponse (D : Type) :=
| PgSuccess (data : D)
| PgFailure (error : PostgrestError).
Arguments PgSuccess {D} data.
Arguments PgFailure {D} error.

Definition Reply (rq : Request) : Type :=
  match rq with
  | AuthGetUser => option User
  | SelectTodos _ => PgResponse (list Todo)
  | InsertTodo _ _ => PgResponse Todo
  | UpdateTodo _ _ => PgResponse Todo
  | DeleteTodo _ => PgResponse unit
  | HttpFetch _ => HttpOutcome
  end.

(** ** The remote services

    [session] is the signed-in user of this client, [todos] the table,
    [clock] the server's [NOW()]. [faults] schedules the failures of the
    coming data and identity calls (network, expired token, ...): a call
    takes the head, [Some e] makes it fail with [e] and no effect.
    [ai_replies] schedules the outcomes of the coming [fetch] calls.
    [calls] logs every call issued, oldest first. *)
Record Net := mkNet {
  session : option User;
  todos : list Todo;
  clock : Z;
  faults : list (option PostgrestError);
  ai_replies : list HttpOutcome;
  calls : list Request
}.

Definition auth_uid (n : Net) : option N := uid <$> session n.

(** Row-level security ([supabase-setup.sql]): every policy is
    [auth.uid() = user_id]. *)
Definition owns (u : option N) (t : Todo) : bool :=
  bool_decide (u = Some (user_id t)).

(** [ORDER BY created_at]: [R a b] when [a] may come before [b]. *)
Definition created_order (ascending : bool) (a b : Todo) : Prop :=
  if ascending then (created_at a <= created_at b)%Z
  else (created_at b <= created_at a)%Z.

#[global] Instance created_order_dec asc a b : Decision (created_order asc a b).
Proof. unfold created_order; destruct asc; apply _. Defined.

(** [gen_random_uuid()], as a value no row of the table carries. *)
Definition fresh_id (rows : list Todo) : N :=
  N.succ (foldr N.max 0%N (id <$> rows)).

Definition rls_violation : PostgrestError :=
  mkPgError (js "new row violates row-level security policy for table todos")
            (js "42501").
Definition duplicate_key : PostgrestError :=
  mkPgError (js "duplicate key value violates unique constraint todos_pkey")
            (js "23505").
Definition not_single : PostgrestError :=
  mkPgError (js "JSON object requested, multiple (or no) rows returned")
            (js "PGRST116").

Definition apply_updates (u : PartialTodo) (t : Todo) : Todo :=
  mkTodo (default (id t) (upd_id u))
         (default (title t) (upd_title u))
         (default (completed t) (upd_completed u))
         (default (created_at t) (upd_created_at u))
         (default (user_id t) (upd_user_id u)).

Definition pg_select (ascending : bool) (n : Net) : list Todo :=
  merge_sort (created_order ascending) (filter (λ t, owns (auth_uid n) t) (todos n)).

Definition pg_insert (t : jsstring) (u : N) (n : Net) : PgResponse Todo * list Todo :=
  let row := mkTodo (fresh_id (todos n)) t false (clock n) u in
  if owns (auth_uid n) row
  then (PgSuccess row, todos n ++ [row])
  else (PgFailure rls_violation, todos n).

Definition targets (i : N) (n : Net) : list Todo :=
  filter (λ t, bool_decide (id t = i) && owns (auth_uid n) t) (todos n).

Definition pg_update (u : PartialTodo) (i : N) (n : Net) : PgResponse Todo * list Todo :=
  match targets i n with
  | [old] =>
      let new := apply_updates u old in
      let rows := (λ t, if bool_decide (id t = i) && owns (auth_uid n) t
                        then apply_updates u t else t) <$> todos n in
      if negb (owns (auth_uid n) new) then (PgFailure rls_violation, todos n)
      else if negb (bool_decide (NoDup (id <$> rows))) then (PgFailure duplicate_key, todos n)
      else (PgSuccess new, rows)
  | _ => (PgFailure not_single, todos n)
  end.

Definition pg_delete (i : N) (n : Net) : list Todo :=
  filter (λ t, negb (bool_decide (id t = i) && owns (auth_uid n) t)) (todos n).

(** The head of the fault schedule and the rest of it. *)
Definition next_fault (n : Net) : option PostgrestError * list (option PostgrestError) :=
  match faults n with
  | f :: fs => (f, fs)
  | [] => (None, [])
  end.

Definition next_reply (n : Net) : HttpOutcome * list HttpOutcome :=
  match ai_replies n with
  | r :: rs => (r, rs)
  | [] => (NetworkFailure, [])
  end.

(** The services after a data or identity call: the call is logged and has
    taken its entry of the fault schedule. *)
Definition after (rq : Request) (rows : list Todo) (time : Z) (n : Net) : Net :=
  mkNet (session n) rows time (snd (next_fault n)) (ai_replies n) (calls n ++ [rq]).

(** A call that changed nothing. *)
Definition answered (rq : Request) (n : Net) : Net :=
  after rq (todos n) (clock n) n.

(** One call, served: answered with the scheduled fault or by the table. A
    write moves the clock. *)
Definition serve (rq : Request) (n : Net) : Reply rq * Net :=
  let fault := fst (next_fault n) in
  match rq as r return Reply r * Net with
  | AuthGetUser =>
      match fault with
      | Some _ => (None, answered rq n)
      | None => (session n, answered rq n)
      end
  | SelectTodos asc =>
      match fault with
      | Some e => (PgFailure e, answered rq n)
      | None => (PgSuccess (pg_select asc n), answered rq n)
      end
  | InsertTodo t u =>
      match fault with
      | Some e => (PgFailure e, answered rq n)
      | None => (fst (pg_insert t u n), after rq (snd (pg_insert t u n)) (clock n + 1)%Z n)
      end
  | UpdateTodo u i =>
      match fault with
      | Some e => (PgFailure e, answered rq n)
      | None => (fst (pg_update u i n), after rq (snd (pg_update u i n)) (clock n + 1)%Z n)
      end
  | DeleteTodo i =>
      match fault with
      | Some e => (PgFailure e, answered rq n)
      | None => (PgSuccess (), after rq (pg_delete i n) (clock n + 1)%Z n)
      end
  | HttpFetch _ =>
      (fst (next_reply n),
       mkNet (session n) (todos n) (clock n) (faults n) (snd (next_reply n))
             (calls n ++ [rq]))
  end.

(** ** Asynchronous functions

    An [async] function is the tree of its awaited calls: [Await rq k] issues
    [rq] and resumes with [k] on the reply. *)
Inductive Prog (A : Type) : Type :=
| Ret (a : A)
| Await (rq : Request) (k : Reply rq → Prog A).
Arguments Ret {A} a.
Arguments Await {A} rq k.

(** Running one function to completion, nothing else in between. *)
Fixpoint exec {A} (p : Prog A) (n : Net) : A * Net :=
  match p with
  | Ret a => (a, n)
  | Await rq k => let '(r, n') := serve rq n in exec (k r) n'
  end.

(** ** Data access layer ([src/pages/Todos.tsx], lines 29-71)

    [if (error) throw error] is the failure case of the reply; in the success
    case [data] is there, so that [data || []] is [data]. *)

Definition fetchTodos : Prog (Result (list Todo)) :=
  Await (SelectTodos false) (λ r,
    match r with
    | PgFailure error => Ret (Throw (ThrowPostgrest error))
    | PgSuccess data => Ret (Ok data)
    end).

Definition createTodo (title : jsstring) : Prog (Result Todo) :=
  Await AuthGetUser (λ user,
    match user with
    | None => Ret (Throw (ThrowError (js "Not authenticated")))
    | Some user =>
        Await (InsertTodo title (uid user)) (λ r,
          match r with
          | PgFailure error => Ret (Throw (ThrowPostgrest error))
          | PgSuccess data => Ret (Ok data)
          end)
    end).

Definition updateTodo (id : N) (updates : PartialTodo) : Prog (Result Todo) :=
  Await (UpdateTodo updates id) (λ r,
    match r with
    | PgFailure error => Ret (Throw (ThrowPostgrest error))
    | PgSuccess data => Ret (Ok data)
    end).

Definition deleteTodo (id : N) : Prog (Result unit) :=
  Await (DeleteTodo id) (λ r,
    match r with
    | PgFailure error => Ret (Throw (ThrowPostgrest error))
    | PgSuccess _ => Ret (Ok ())
    end).

(** ** The query cache

    The cache library is not part of the repository. The model keeps what the
    code relies on: the state of the one query (key [['todos']]) with the
    reducer of its actions, the retry loop, the states of the mutations, and
    the order in which a mutation runs its callbacks. *)

Inductive QueryStatus := QPending | QError | QSuccess.
Inductive FetchStatus := Fetching | Idle.

Record QueryState := mkQuery {
  q_data : option (list Todo);
  q_error : option Thrown;
  q_status : QueryStatus;
  q_fetchStatus : FetchStatus;
  q_isInvalidated : bool;
  q_fetchFailureCount : nat
}.

(** The actions a query dispatches; its observers are notified of each. *)
Inductive Action :=
| ActFetch
| ActFailed (failureCount : nat) (e : Thrown)
| ActSuccess (data : list Todo)
| ActError (e : Thrown)
| ActInvalidate.

Definition reducer (q : QueryState) (a : Action) : QueryState :=
  match a with
  | ActFetch =>
      match q_data q with
      | None => mkQuery None None QPending Fetching (q_isInvalidated q) 0
      | Some _ => mkQuery (q_data q) (q_error q) (q_status q) Fetching (q_isInvalidated q) 0
      end
  | ActFailed c _ =>
      mkQuery (q_data q) (q_error q) (q_status q) (q_fetchStatus q) (q_isInvalidated q) c
  | ActSuccess d => mkQuery (Some d) None QSuccess Idle false 0
  | ActError e =>
      mkQuery (q_data q) (Some e) QError Idle (q_isInvalidated q) (S (q_fetchFailureCount q))
  | ActInvalidate =>
      mkQuery (q_data q) (q_error q) (q_status q) (q_fetchStatus q) true (q_fetchFailureCount q)
  end.

Inductive MutationStatus := MIdle | MPending | MSuccess | MError.

Record MutationState := mkMutation {
  m_status : MutationStatus;
  m_error : option Thrown
}.

Inductive MutationKind := Create | Update | Delete.

(** [interface AiTodoSuggestion]. *)
Record AiTodoSuggestion := mkSuggestion {
  s_title : jsstring;
  s_reason : option jsstring
}.

(** The component's state ([useState], [useForm]) and the console. *)
Record View := mkView {
  editingId : option N;
  editTitle : jsstring;
  aiPrompt : jsstring;
  aiSuggestions : list AiTodoSuggestion;
  selectedSuggestionIndexes : list nat;
  form_title : jsstring;
  form_error : option jsstring;
  console : list Thrown
}.

Record World := mkWorld {
  net : Net;
  query : QueryState;
  createState : MutationState;
  updateState : MutationState;
  deleteState : MutationState;
  dispatched : list Action;
  view : View
}.

Definition set_net (n : Net) (w : World) : World :=
  mkWorld n (query w) (createState w) (updateState w) (deleteState w) (dispatched w) (view w).

Definition set_view (v : View) (w : World) : World :=
  mkWorld (net w) (query w) (createState w) (updateState w) (deleteState w) (dispatched w) v.

Definition dispatch (a : Action) (w : World) : World :=
  mkWorld (net w) (reducer (query w) a) (createState w) (updateState w) (deleteState w)
          (dispatched w ++ [a]) (view w).

Definition set_mutation (k : MutationKind) (m : MutationState) (w : World) : World :=
  match k with
  | Create => mkWorld (net w) (query w) m (updateState w) (deleteState w) (dispatched w) (view w)
  | Update => mkWorld (net w) (query w) (createState w) m (deleteState w) (dispatched w) (view w)
  | Delete => mkWorld (net w) (query w) (createState w) (updateState w) m (dispatched w) (view w)
  end.

Definition mutation (k : MutationKind) (w : World) : MutationState :=
  match k with
  | Create => createState w
  | Update => updateState w
  | Delete => deleteState w
  end.

(** [new QueryClient({ defaultOptions })] ([src/App.tsx], lines 11-18). *)
Record QueryDefaults := mkQueryDefaults {
  refetchOnWindowFocus : option bool;
  retry : option nat
}.
Record MutationDefaults := mkMutationDefaults { mutation_retry : option nat }.
Record DefaultOptions := mkDefaultOptions {
  queries : option QueryDefaults;
  mutations : option MutationDefaults
}.

Definition queryClient : DefaultOptions :=
  mkDefaultOptions (Some (mkQueryDefaults (Some false) (Some 1))) None.

(** The number of retries: the option where it is set, else the library's
    default (3 for a query, 0 for a mutation). *)
Definition query_retries (o : DefaultOptions) : nat :=
  default 3 (queries o ≫= retry).
Definition mutation_retries (o : DefaultOptions) : nat :=
  default 0 (mutations o ≫= mutation_retry).

(** The retry loop: run [fn]; on a failure retry while retries are left,
    telling [onFail] the count of failures so far, else give the failure. *)
Fixpoint retryer {A} (retries : nat) (failureCount : nat)
    (onFail : nat → Thrown → World → World)
    (fn : Prog (Result A)) (w : World) : Result A * World :=
  let '(r, n) := exec fn (net w) in
  let w := set_net n w in
  match r with
  | Ok a => (Ok a, w)
  | Throw e =>
      match retries with
      | 0 => (Throw e, w)
      | S retries => retryer retries (S failureCount) onFail fn (onFail (S failureCount) e w)
      end
  end.

(** [useQuery({ queryKey: ['todos'], queryFn: fetchTodos })]: a fetch starts
    ([ActFetch]) and, when its reply is in, completes. *)
Definition start_fetch (w : World) : World := dispatch ActFetch w.

Definition complete_fetch (w : World) : World :=
  match q_fetchStatus (query w) with
  | Idle => w
  | Fetching =>
      let '(r, w) := retryer (query_retries queryClient) 0
                       (λ c e, dispatch (ActFailed c e)) fetchTodos w in
      match r with
      | Ok data => dispatch (ActSuccess data) w
      | Throw e => dispatch (ActError e) w
      end
  end.

(** [queryClient.invalidateQueries({ queryKey: ['todos'] })]: the query is
    marked invalidated and, being mounted, starts to refetch. *)
Definition invalidateQueries (w : World) : World :=
  start_fetch (dispatch ActInvalidate w).

(** [const { data: todos = [] } = useQuery(...)]. *)
Definition cached_todos (w : World) : list Todo := default [] (q_data (query w)).

(** The options of [useMutation]. *)
Record MutationOptions (V A : Type) := mkMutationOptions {
  mutationFn : V → Prog (Result A);
  onMutate : option (V → World → World);
  onSuccess : option (A → V → World → World);
  onError : option (Thrown → V → World → World)
}.
Arguments mkMutationOptions {V A}.
Arguments mutationFn {V A}.
Arguments onMutate {V A}.
Arguments onSuccess {V A}.
Arguments onError {V A}.

Definition call_back {X} (f : option (X → World → World)) (x : X) (w : World) : World :=
  match f with
  | Some f => f x w
  | None => w
  end.

(** [mutation.mutateAsync(variables)]: pending, [onMutate], the function
    under the retry loop, then [onSuccess] or [onError], then settled. *)
Definition mutateAsync {V A} (k : MutationKind) (o : MutationOptions V A)
    (variables : V) (w : World) : Result A * World :=
  let w := set_mutation k (mkMutation MPending None) w in
  let w := call_back (onMutate o) variables w in
  let '(r, w) := retryer (mutation_retries queryClient) 0 (λ _ _ w, w)
                   (mutationFn o variables) w in
  match r with
  | Ok data =>
      let w := call_back ((λ f, f data) <$> onSuccess o) variables w in
      (Ok data, set_mutation k (mkMutation MSuccess None) w)
  | Throw e =>
      let w := call_back ((λ f, f e) <$> onError o) variables w in
      (Throw e, set_mutation k (mkMutation MError (Some e)) w)
  end.

(** [mutation.mutate(variables)]: the same, the promise dropped. *)
Definition mutate {V A} (k : MutationKind) (o : MutationOptions V A)
    (variables : V) (w : World) : World :=
  snd (mutateAsync k o variables w).

(** ** The mutations of the page ([src/pages/Todos.tsx], lines 89-109) *)

Definition createMutation : MutationOptions jsstring Todo :=
  mkMutationOptions createTodo None (Some (λ _ _, invalidateQueries)) None.

Definition updateMutation : MutationOptions (N * PartialTodo) Todo :=
  mkMutationOptions (λ v, updateTodo (fst v) (snd v)) None
                    (Some (λ _ _, invalidateQueries)) None.

Definition deleteMutation : MutationOptions N unit :=
  mkMutationOptions deleteTodo None (Some (λ _ _, invalidateQueries)) None.

(** ** String operations of the runtime *)

(** Empty strings are falsy, all others truthy. *)
Definition truthy (s : jsstring) : bool :=
  match s with
  | [] => false
  | _ :: _ => true
  end.

(** The code units [String.prototype.trim] strips: white space and line
    terminators. *)
Definition is_white_space (c : N) : bool :=
  ((9 <=? c) && (c <=? 13) || (c =? 32) || (c =? 160) || (c =? 0x1680)
   || (0x2000 <=? c) && (c <=? 0x200A) || (c =? 0x2028) || (c =? 0x2029)
   || (c =? 0x202F) || (c =? 0x205F) || (c =? 0x3000) || (c =? 0xFEFF))%N.

Fixpoint trimStart (s : jsstring) : jsstring :=
  match s with
  | [] => []
  | c :: s' => if is_white_space c then trimStart s' else s
  end.

Definition trimEnd (s : jsstring) : jsstring := rev (trimStart (rev s)).

Definition trim (s : jsstring) : jsstring := trimEnd (trimStart s).

(** A title that trims to nothing. *)
Definition whitespace_only (s : jsstring) : Prop := trim s = [].

(** [s.indexOf(c)] and [s.lastIndexOf(c)] for a one-unit [c]; -1 when
    absent. *)
Fixpoint indexOf (s : jsstring) (c : N) : Z :=
  match s with
  | [] => -1
  | x :: s' =>
      if (x =? c)%N then 0
      else let i := indexOf s' c in if (i =? -1)%Z then -1 else (i + 1)%Z
  end.

Fixpoint lastIndexOf (s : jsstring) (c : N) : Z :=
  match s with
  | [] => -1
  | x :: s' =>
      let i := lastIndexOf s' c in
      if (i =? -1)%Z then (if (x =? c)%N then 0 else -1) else (i + 1)%Z
  end.

(** [s.slice(start, end)]: negative indices count from the end, both are
    clamped to the string, and an empty range gives the empty string. *)
Definition clamp_index (len i : Z) : Z :=
  if (i <? 0)%Z then Z.max (len + i) 0 else Z.min i len.

Definition slice (s : jsstring) (start end_ : Z) : jsstring :=
  let len := Z.of_nat (length s) in
  let from := clamp_index len start in
  let to := clamp_index len end_ in
  take (Z.to_nat (to - from)) (drop (Z.to_nat from) s).

(** [parts.join(sep)]. *)
Fixpoint join (sep : jsstring) (parts : list jsstring) : jsstring :=
  match parts with
  | [] => []
  | [x] => x
  | x :: rest => x ++ sep ++ join sep rest
  end.

(** [a || b] on strings that may be undefined. *)
Definition or_else (a : option jsstring) (b : jsstring) : jsstring :=
  match a with
  | Some (c :: s) => c :: s
  | _ => b
  end.

(** A number in a template literal. *)
Definition decimal (n : N) : jsstring :=
  js (NilEmpty.string_of_uint (N.to_uint n)).

(** ** The page ([src/pages/Todos.tsx]) *)

(** [todoSchema]: [z.object({ title: z.string().min(1, 'Title is required') })].
    The error of the [title] field, if any. *)
Definition todoSchema (title : jsstring) : option jsstring :=
  if (1 <=? length title)%nat then None else Some (js "Title is required").

Definition console_error (e : Thrown) (w : World) : World :=
  let v := view w in
  set_view (mkView (editingId v) (editTitle v) (aiPrompt v) (aiSuggestions v)
                   (selectedSuggestionIndexes v) (form_title v) (form_error v)
                   (console v ++ [e])) w.

(** [reset()] of the form. *)
Definition reset (w : World) : World :=
  let v := view w in
  set_view (mkView (editingId v) (editTitle v) (aiPrompt v) (aiSuggestions v)
                   (selectedSuggestionIndexes v) [] None (console v)) w.

Definition set_form_error (e : option jsstring) (w : World) : World :=
  let v := view w in
  set_view (mkView (editingId v) (editTitle v) (aiPrompt v) (aiSuggestions v)
                   (selectedSuggestionIndexes v) (form_title v) e (console v)) w.

Definition onSubmit (data_title : jsstring) (w : World) : World :=
  match mutateAsync Create createMutation data_title w with
  | (Ok _, w) => reset w
  | (Throw err, w) => console_error err w
  end.

(** [handleSubmit(onSubmit)] with [zodResolver(todoSchema)]: the handler
    runs only on valid values. *)
Definition handleSubmit_onSubmit (w : World) : World :=
  match todoSchema (form_title (view w)) with
  | Some msg => set_form_error (Some msg) w
  | None => onSubmit (form_title (view w)) (set_form_error None w)
  end.

Definition handleEdit (todo : Todo) (w : World) : World :=
  let v := view w in
  set_view (mkView (Some (id todo)) (title todo) (aiPrompt v) (aiSuggestions v)
                   (selectedSuggestionIndexes v) (form_title v) (form_error v)
                   (console v)) w.

Definition handleCancelEdit (w : World) : World :=
  let v := view w in
  set_view (mkView None [] (aiPrompt v) (aiSuggestions v)
                   (selectedSuggestionIndexes v) (form_title v) (form_error v)
                   (console v)) w.

Definition handleSaveEdit (id : N) (w : World) : World :=
  if negb (truthy (trim (editTitle (view w)))) then w
  else
    match mutateAsync Update updateMutation
            (id, only_title (trim (editTitle (view w)))) w with
    | (Ok _, w) => handleCancelEdit w
    | (Throw error, w) => console_error error w
    end.

(** The checkbox of a row: [onChange]. *)
Definition toggleCompleted (todo : Todo) (checked : bool) (w : World) : World :=
  mutate Update updateMutation (id todo, only_completed checked) w.

(** The delete button of a row: [onClick]. *)
Definition clickDelete (todo : Todo) (w : World) : World :=
  mutate Delete deleteMutation (id todo) w.

(** ** Mutations in flight

    [mutateAsync] step by step, for mutations that overlap: a mutation is
    awaiting the reply to a call, or settled. *)
Inductive Task (A : Type) :=
| Running (retries failureCount : nat) (rq : Request) (k : Reply rq → Prog (Result A))
| Settled (r : Result A).
Arguments Running {A} retries failureCount rq k.
Arguments Settled {A} r.

Section tasks.
Context {V A : Type}.
Variable k : MutationKind.
Variable o : MutationOptions V A.
Variable variables : V.

Definition settle (r : Result A) (w : World) : World :=
  match r with
  | Ok data =>
      set_mutation k (mkMutation MSuccess None)
        (call_back ((λ f, f data) <$> onSuccess o) variables w)
  | Throw e =>
      set_mutation k (mkMutation MError (Some e))
        (call_back ((λ f, f e) <$> onError o) variables w)
  end.

(** The function has run up to [p]: it awaits, or it has returned, and
    then the mutation settles or the function is run again. *)
Fixpoint land (retries failureCount : nat) (p : Prog (Result A)) (w : World)
    : Task A * World :=
  match p with
  | Await rq kont => (Running retries failureCount rq kont, w)
  | Ret (Ok data) => (Settled (Ok data), settle (Ok data) w)
  | Ret (Throw e) =>
      match retries with
      | 0 => (Settled (Throw e), settle (Throw e) w)
      | S retries => land retries (S failureCount) (mutationFn o variables) w
      end
  end.

(** The call to [mutateAsync], up to the first await. *)
Definition begin (w : World) : Task A * World :=
  land (mutation_retries queryClient) 0 (mutationFn o variables)
       (call_back (onMutate o) variables
          (set_mutation k (mkMutation MPending None) w)).

(** The reply to the awaited call arrives. *)
Definition resume (t : Task A) (w : World) : Task A * World :=
  match t with
  | Settled r => (Settled r, w)
  | Running retries failureCount rq kont =>
      let '(r, n) := serve rq (net w) in
      land retries failureCount (kont r) (set_net n w)
  end.
End tasks.

(** ** Adding the selected suggestions ([handleAddSelectedSuggestions]) *)

(** [selectedSuggestionIndexes.map((i) => aiSuggestions[i]?.title)
      .filter((t) => Boolean(t && t.trim()))]. *)
Definition titlesToAdd (v : View) : list jsstring :=
  omap (λ t : option jsstring,
          match t with
          | Some t => if truthy t && truthy (trim t) then Some t else None
          | None => None
          end)
       ((λ i, s_title <$> aiSuggestions v !! i) <$> selectedSuggestionIndexes v).

(** The first rejection among the promises, in time. *)
Definition first_rejection {A} (seen : option Thrown) (t : Task A) : option Thrown :=
  match seen, t with
  | None, Settled (Throw e) => Some e
  | _, _ => seen
  end.

(** [titlesToAdd.map((title) => createMutation.mutateAsync(title))]: the
    calls are made one after the other, each up to its first await. *)
Fixpoint begin_all (titles : list jsstring) (rej : option Thrown) (w : World)
    : list (jsstring * Task Todo) * option Thrown * World :=
  match titles with
  | [] => ([], rej, w)
  | t :: titles =>
      let '(task, w) := begin Create createMutation t w in
      let '(tasks, rej, w) := begin_all titles (first_rejection rej task) w in
      ((t, task) :: tasks, rej, w)
  end.

(** The replies arrive in the order of [sched], which names, reply by reply,
    the mutation that is served and resumed. *)
Fixpoint deliver (sched : list nat) (tasks : list (jsstring * Task Todo))
    (rej : option Thrown) (w : World)
    : list (jsstring * Task Todo) * option Thrown * World :=
  match sched with
  | [] => (tasks, rej, w)
  | i :: sched =>
      match tasks !! i with
      | Some (t, Running r c rq kont) =>
          let '(task, w) := resume Create createMutation t (Running r c rq kont) w in
          deliver sched (<[i := (t, task)]> tasks) (first_rejection rej task) w
      | _ => deliver sched tasks rej w
      end
  end.

Definition fulfilled {A} (t : Task A) : option A :=
  match t with
  | Settled (Ok a) => Some a
  | _ => None
  end.

(** [Promise.all]: rejected with the first rejection, fulfilled when all
    are, pending ([None]) otherwise. *)
Definition Promise_all {A} (tasks : list (Task A)) (rej : option Thrown)
    : option (Result (list A)) :=
  match rej with
  | Some e => Some (Throw e)
  | None => Ok <$> mapM fulfilled tasks
  end.

(** The creates of a bulk add, dispatched together and served in the order
    of [sched]. *)
Definition bulk_create (sched : list nat) (titles : list jsstring) (w : World)
    : list (jsstring * Task Todo) * option Thrown * World :=
  let '(tasks, rej, w) := begin_all titles None w in
  deliver sched tasks rej w.

Definition handleAddSelectedSuggestions (sched : list nat) (w : World) : World :=
  let titles := titlesToAdd (view w) in
  if (length titles =? 0)%nat then w
  else
    let '(tasks, rej, w) := bulk_create sched titles w in
    match Promise_all (snd <$> tasks) rej with
    | Some (Ok _) =>
        let v := view w in
        set_view (mkView (editingId v) (editTitle v) [] [] [] (form_title v)
                         (form_error v) (console v)) w
    | Some (Throw error) => console_error error w
    | None => w
    end.

(** ** JSON values and [JSON.parse]

    A number is kept as the decimal [mantissa * 10 ^ exponent] of its
    literal. The fields of an object are in source order; a later field of
    the same name overrides an earlier one. *)
Inductive JSValue :=
| JNull
| JBool (b : bool)
| JNumber (mantissa exponent : Z)
| JString (s : jsstring)
| JArray (items : list JSValue)
| JObject (fields : list (jsstring * JSValue)).

Fixpoint field (key : jsstring) (fields : list (jsstring * JSValue)) : option JSValue :=
  match fields with
  | [] => None
  | (k, v) :: rest =>
      match field key rest with
      | Some v' => Some v'
      | None => if bool_decide (k = key) then Some v else None
      end
  end.

(** [parsed.suggestions ?? []]: reading the property of [null] is a
    [TypeError]; of a value without it, [undefined]. *)
Definition suggestions_or_empty (parsed : JSValue) : Result JSValue :=
  match parsed with
  | JNull => Throw ThrowTypeError
  | JObject fields =>
      match field (js "suggestions") fields with
      | None | Some JNull => Ok (JArray [])
      | Some v => Ok v
      end
  | _ => Ok (JArray [])
  end.

(** *** A parser for the JSON grammar, as an instance of [JSON.parse] *)

Definition is_json_space (c : N) : bool :=
  ((c =? 32) || (c =? 9) || (c =? 10) || (c =? 13))%N.

Fixpoint skip_space (s : jsstring) : jsstring :=
  match s with
  | c :: s' => if is_json_space c then skip_space s' else s
  | [] => []
  end.

Definition is_digit (c : N) : bool := ((48 <=? c) && (c <=? 57))%N.

Fixpoint take_digits (s : jsstring) : list N * jsstring :=
  match s with
  | c :: s' =>
      if is_digit c then let '(ds, r) := take_digits s' in (c :: ds, r) else ([], s)
  | [] => ([], [])
  end.

Definition digits_value (ds : list N) : Z :=
  fold_left (λ acc d, 10 * acc + Z.of_N (d - 48))%Z ds 0%Z.

Definition hex_value (c : N) : option N :=
  if is_digit c then Some (c - 48)%N
  else if ((97 <=? c) && (c <=? 102))%N then Some (c - 87)%N
  else if ((65 <=? c) && (c <=? 70))%N then Some (c - 55)%N
  else None.

(** The characters of a string literal, after its opening quote. *)
Fixpoint parse_chars (s : jsstring) : option (jsstring * jsstring) :=
  match s with
  | [] => None
  | 34%N :: r => Some ([], r)
  | 92%N :: e :: r =>
      let unit (c : N) (r : jsstring) (rec : option (jsstring * jsstring)) :=
        match rec with
        | Some (str, r') => Some (c :: str, r')
        | None => None
        end in
      match e with
      | 34%N | 92%N | 47%N => unit e r (parse_chars r)
      | 98%N => unit 8%N r (parse_chars r)
      | 102%N => unit 12%N r (parse_chars r)
      | 110%N => unit 10%N r (parse_chars r)
      | 114%N => unit 13%N r (parse_chars r)
      | 116%N => unit 9%N r (parse_chars r)
      | 117%N =>
          match r with
          | a :: b :: c :: d :: r' =>
              match hex_value a, hex_value b, hex_value c, hex_value d with
              | Some a, Some b, Some c, Some d =>
                  unit (((a * 16 + b) * 16 + c) * 16 + d)%N r' (parse_chars r')
              | _, _, _, _ => None
              end
          | _ => None
          end
      | _ => None
      end
  | c :: r =>
      if (c <? 32)%N then None
      else match parse_chars r with
           | Some (str, r') => Some (c :: str, r')
           | None => None
           end
  end.

Definition parse_number (s : jsstring) : option (JSValue * jsstring) :=
  let '(negative, s) := match s with
                        | 45%N :: r => (true, r)
                        | _ => (false, s)
                        end in
  let '(int, s) := take_digits s in
  match int with
  | [] => None
  | 48%N :: _ :: _ => None
  | _ =>
      let '(frac, s) := match s with
                        | 46%N :: r => let '(f, r') := take_digits r in (Some f, r')
                        | _ => (None, s)
                        end in
      let '(exp, s) := match s with
                       | 101%N :: r | 69%N :: r =>
                           let '(sign, r) := match r with
                                             | 43%N :: r' => (1%Z, r')
                                             | 45%N :: r' => ((-1)%Z, r')
                                             | _ => (1%Z, r)
                                             end in
                           let '(e, r') := take_digits r in (Some (sign, e), r')
                       | _ => (None, s)
                       end in
      match frac, exp with
      | Some [], _ => None
      | _, Some (_, []) => None
      | _, _ =>
          let f := default [] frac in
          let m := digits_value (int ++ f) in
          let e := match exp with
                   | Some (sign, e) => (sign * digits_value e)%Z
                   | None => 0%Z
                   end in
          Some (JNumber (if negative : bool then - m else m)%Z (e - Z.of_nat (length f))%Z, s)
      end
  end.

Fixpoint parse_value (fuel : nat) (s : jsstring) : option (JSValue * jsstring) :=
  match fuel with
  | 0 => None
  | S fuel =>
      match skip_space s with
      | 123%N :: r =>
          match skip_space r with
          | 125%N :: r' => Some (JObject [], r')
          | _ => parse_members fuel r []
          end
      | 91%N :: r =>
          match skip_space r with
          | 93%N :: r' => Some (JArray [], r')
          | _ => parse_elements fuel r []
          end
      | 34%N :: r =>
          match parse_chars r with
          | Some (str, r') => Some (JString str, r')
          | None => None
          end
      | 116%N :: 114%N :: 117%N :: 101%N :: r => Some (JBool true, r)
      | 102%N :: 97%N :: 108%N :: 115%N :: 101%N :: r => Some (JBool false, r)
      | 110%N :: 117%N :: 108%N :: 108%N :: r => Some (JNull, r)
      | s' => parse_number s'
      end
  end
with parse_elements (fuel : nat) (s : jsstring) (acc : list JSValue)
    : option (JSValue * jsstring) :=
  match fuel with
  | 0 => None
  | S fuel =>
      match parse_value fuel s with
      | None => None
      | Some (v, r) =>
          match skip_space r with
          | 44%N :: r' => parse_elements fuel r' (v :: acc)
          | 93%N :: r' => Some (JArray (rev (v :: acc)), r')
          | _ => None
          end
      end
  end
with parse_members (fuel : nat) (s : jsstring) (acc : list (jsstring * JSValue))
    : option (JSValue * jsstring) :=
  match fuel with
  | 0 => None
  | S fuel =>
      match skip_space s with
      | 34%N :: r =>
          match parse_chars r with
          | None => None
          | Some (key, r) =>
              match skip_space r with
              | 58%N :: r =>
                  match parse_value fuel r with
                  | None => None
                  | Some (v, r) =>
                      match skip_space r with
                      | 44%N :: r' => parse_members fuel r' ((key, v) :: acc)
                      | 125%N :: r' => Some (JObject (rev ((key, v) :: acc)), r')
                      | _ => None
                      end
                  end
              | _ => None
              end
          end
      | _ => None
      end
  end.

(** [None] stands for the [SyntaxError] of [JSON.parse]. *)
Definition json_parse (s : jsstring) : option JSValue :=
  match parse_value (2 * length s + 2) s with
  | Some (v, r) =>
      match skip_space r with
      | [] => Some v
      | _ :: _ => None
      end
  | None => None
  end.

(** ** AI gateway ([src/lib/ai.ts]) *)

(** [import.meta.env]. *)
Record Env := mkEnv {
  VITE_OPENAI_API_KEY : option jsstring;
  VITE_OPENAI_API_BASE : option jsstring
}.

(** [import.meta.env.VITE_OPENAI_API_KEY?.trim() || '']. *)
Definition openAiApiKey (env : Env) : jsstring :=
  or_else (trim <$> VITE_OPENAI_API_KEY env) [].

Definition openAiApiBase (env : Env) : jsstring :=
  or_else (trim <$> VITE_OPENAI_API_BASE env) (js "https://api.openai.com/v1").

Definition quoted (s : jsstring) : jsstring := 34%N :: s ++ [34%N].

(** The template literal of [systemPrompt], line by line. *)
Definition systemPrompt (existingTitles : list jsstring) : jsstring :=
  trim (join [10%N]
    [ [];
      js "You are an assistant embedded in a todo app. ";
      js "The user will describe their day, goals, or things on their mind.";
      js "Turn this into a concise, focused list of concrete todo items.";
      [];
      js "Return strictly JSON in the following format:";
      js "{";
      js "  " ++ quoted (js "suggestions") ++ js ": [";
      js "    { " ++ quoted (js "title") ++ js ": " ++ quoted (js "string") ++ js ", "
        ++ quoted (js "reason") ++ js ": "
        ++ quoted (js "short explanation of why this is useful") ++ js " }";
      js "  ]";
      js "}";
      [];
      js "Guidelines:";
      js "- Prefer small, actionable steps over vague goals.";
      js "- Avoid duplicating todos that are already present:";
      js "  Existing todos: " ++ or_else (Some (join (js ", ") existingTitles)) (js "none")
        ++ js ".";
      js "- At most 8 suggestions.";
      [] ]).

Definition completion_request (env : Env) (prompt : jsstring)
    (existingTitles : list jsstring) : HttpRequest :=
  mkHttpRequest
    (openAiApiBase env ++ js "/chat/completions")
    (js "POST")
    [ (js "Content-Type", js "application/json");
      (js "Authorization", js "Bearer " ++ openAiApiKey env) ]
    (mkChatRequest (js "gpt-4.1-mini")
       [ mkMessage (js "system") (systemPrompt existingTitles);
         mkMessage (js "user") prompt ]
       7 600 (js "json_object")).

(** [json.choices?.[0]?.message?.content]. *)
Definition first_content (json : Completion) : option jsstring :=
  match choices json with
  | Some (choice :: _) =>
      match choice_message choice with
      | Some message => completion_content message
      | None => None
      end
  | _ => None
  end.

Section gateway.
(** [JSON.parse]: [None] when it throws. *)
Variable JSON_parse : jsstring → option JSValue.

(** Lines 116-134: the two-tier parse of the completion text, then
    [parsed.suggestions ?? []]. *)
Definition parse_completion (content : jsstring) : Result JSValue :=
  let parsed :=
    match JSON_parse content with
    | Some parsed => Ok parsed
    | None =>
        let start := indexOf content 123 in
        let end_ := lastIndexOf content 125 in
        if negb (start =? -1)%Z && negb (end_ =? -1)%Z then
          match JSON_parse (slice content start (end_ + 1)) with
          | Some parsed => Ok parsed
          | None =>
              Throw (ThrowError (js "Failed to parse AI response. Please try again."))
          end
        else Throw (ThrowError (js "Failed to parse AI response. Please try again."))
    end in
  match parsed with
  | Ok parsed => suggestions_or_empty parsed
  | Throw e => Throw e
  end.

(** The value returned is whatever [suggestions] holds; the source types it
    as [AiTodoSuggestion[]] without a check. *)
Definition generateTodosFromPrompt (env : Env) (prompt : jsstring)
    (existingTitles : list jsstring) : Prog (Result JSValue) :=
  if negb (truthy (openAiApiKey env)) then
    Ret (Throw (ThrowError (js "AI is not configured. Please set VITE_OPENAI_API_KEY in your environment to enable AI features.")))
  else
    Await (HttpFetch (completion_request env prompt existingTitles)) (λ outcome,
      match outcome with
      | NetworkFailure => Ret (Throw ThrowTypeError)
      | Responded response =>
          if negb (ok response) then
            Ret (Throw (ThrowError
                   (js "AI request failed: " ++ decimal (status response) ++ js " "
                    ++ statusText response ++ [32; 0x2013; 32]%N ++ text response)))
          else
            match json response with
            | None => Ret (Throw ThrowSyntaxError)
            | Some json =>
                match first_content json with
                | Some (c :: content) => Ret (parse_completion (c :: content))
                | _ => Ret (Throw (ThrowError (js "AI response was empty.")))
                end
            end
      end).
End gateway.

(** ** Vocabulary of the statements *)

(** The write protocol of a mutation: the services see one run of the data
    function; the cached list is the same when [mutateAsync] returns; on
    success the query is invalidated and refetching, and the refetch, when
    its reply is in, caches the list of the service; on failure the error is
    the result and the state of the mutation, and the query is untouched. *)
Definition write_protocol {V A} (k : MutationKind) (o : MutationOptions V A) : Prop :=
  ∀ (variables : V) (w : World),
    let '(r, w') := mutateAsync k o variables w in
    (r, net w') = exec (mutationFn o variables) (net w) ∧
    q_data (query w') = q_data (query w) ∧
    match r with
    | Ok _ =>
        q_isInvalidated (query w') = true ∧
        q_fetchStatus (query w') = Fetching ∧
        dispatched w' = dispatched w ++ [ActInvalidate; ActFetch] ∧
        mutation k w' = mkMutation MSuccess None ∧
        (fst (next_fault (net w')) = None →
         q_data (query (complete_fetch w')) = Some (pg_select false (net w')))
    | Throw e =>
        query w' = query w ∧
        dispatched w' = dispatched w ∧
        mutation k w' = mkMutation MError (Some e)
    end.



(** Where a [createMutation.mutateAsync(t)] in flight can be: awaiting the
    identity, awaiting the insert, rejected, or fulfilled with a row of that
    title owned by the signed-in user. *)
Inductive phase (signed_in : option User) (t : jsstring) : Task Todo → Prop :=
| phase_identity :
    phase signed_in t
      (Running 0 0 AuthGetUser (λ user,
         match user with
         | None => Ret (Throw (ThrowError (js "Not authenticated")))
         | Some user =>
             Await (InsertTodo t (uid user)) (λ r,
               match r with
               | PgFailure error => Ret (Throw (ThrowPostgrest error))
               | PgSuccess data => Ret (Ok data)
               end)
         end))
| phase_insert user :
    signed_in = Some user →
    phase signed_in t
      (Running 0 0 (InsertTodo t (uid user)) (λ r,
         match r with
         | PgFailure error => Ret (Throw (ThrowPostgrest error))
         | PgSuccess data => Ret (Ok data)
         end))
| phase_rejected e : phase signed_in t (Settled (Throw e))
| phase_fulfilled row :
    title row = t → uid <$> signed_in = Some (user_id row) →
    phase signed_in t (Settled (Ok row)).

(** The invariant of a bulk add: the table holds the rows it held at the
    start and the rows of the creates fulfilled so far. *)
Definition in_flight (signed_in : option User) (rows0 : list Todo)
    (tasks : list (jsstring * Task Todo)) (w : World) : Prop :=
  session (net w) = signed_in ∧
  Forall (λ p, phase signed_in (fst p) (snd p)) tasks ∧
  todos (net w) ≡ₚ rows0 ++ omap (λ p, fulfilled (snd p)) tasks.

(** The replies a create still awaits. *)
Definition remaining {A} (t : Task A) : nat :=
  match t with
  | Running _ _ AuthGetUser _ => 2
  | Running _ _ _ _ => 1
  | Settled _ => 0
  end.

Definition unrejected {A} (t : Task A) : Prop :=
  match t with
  | Settled (Throw _) => False
  | _ => True
  end.

(** A bulk add with a user signed in and no fault scheduled. *)
Definition steady (user : User) (tasks : list (jsstring * Task Todo)) (w : World) : Prop :=
  session (net w) = Some user ∧
  faults (net w) = [] ∧
  Forall (λ p, phase (Some user) (fst p) (snd p) ∧ unrejected (snd p)) tasks.

(** A successful reply of the endpoint whose completion text is [content],
    and the services with that reply scheduled next. *)
Definition completion_of (content : jsstring) : HttpOutcome :=
  Responded (mkHttpResponse 200 (js "OK") []
    (Some (mkCompletion (Some [mkChoice (Some (mkCompletionMessage (Some content)))])))).

Definition with_reply (r : HttpOutcome) (n : Net) : Net :=
  mkNet (session n) (todos n) (clock n) (faults n) (r :: ai_replies n) (calls n).

(** ** Sample states

    A signed-in user, an empty table, and the page just mounted, its first
    read in flight. *)
Definition alice : User := mkUser 7 (js "alice@example.com").

Definition net0 : Net := mkNet (Some alice) [] 1000 [] [] [].

Definition world0 : World :=
  mkWorld net0 (mkQuery None None QPending Fetching false 0)
          (mkMutation MIdle None) (mkMutation MIdle None) (mkMutation MIdle None)
          [ActFetch] (mkView None [] [] [] [] [] None []).

Definition with_faults (fs : list (option PostgrestError)) (w : World) : World :=
  let n := net w in
  set_net (mkNet (session n) (todos n) (clock n) fs (ai_replies n) (calls n)) w.

Definition with_rows (rows : list Todo) (w : World) : World :=
  let n := net w in
  set_net (mkNet (session n) rows (clock n) (faults n) (ai_replies n) (calls n)) w.

(** The user types [t] into the form, or into the edit field of a row. *)
Definition type_title (t : jsstring) (w : World) : World :=
  let v := view w in
  set_view (mkView (editingId v) (editTitle v) (aiPrompt v) (aiSuggestions v)
                   (selectedSuggestionIndexes v) t (form_error v) (console v)) w.

Definition type_edit (t : jsstring) (w : World) : World :=
  let v := view w in
  set_view (mkView (editingId v) t (aiPrompt v) (aiSuggestions v)
                   (selectedSuggestionIndexes v) (form_title v) (form_error v)
                   (console v)) w.

(** The suggestions are shown, all selected. *)
Definition suggest (titles : list jsstring) (w : World) : World :=
  let v := view w in
  set_view (mkView (editingId v) (editTitle v) (aiPrompt v)
                   ((λ t, mkSuggestion t None) <$> titles)
                   (seq 0 (length titles)) (form_title v) (form_error v)
                   (console v)) w.

Definition timeout_error : PostgrestError :=
  mkPgError (js "TypeError: Failed to fetch") [].

(** A table with two rows of the signed-in user and one of somebody else. *)
Definition sample_rows : list Todo :=
  [mkTodo 1 (js "old") false 5 7; mkTodo 2 (js "theirs") false 6 8;
   mkTodo 3 (js "new") true 9 7].

Definition env_with_key : Env := mkEnv (Some (js " sk-test ")) None.

(** ** The list as shown ([src/pages/Todos.tsx], lines 76 and 166-173) *)

(** The filter tabs: ['all' | 'active' | 'completed']. *)
Inductive Filter := FilterAll | FilterActive | FilterCompleted.

(** The callback of [todos.filter]. *)
Definition passes (tab : Filter) (todo : Todo) : bool :=
  match tab with
  | FilterActive => negb (completed todo)
  | FilterCompleted => completed todo
  | FilterAll => true
  end.

Definition filteredTodos (tab : Filter) (rows : list Todo) : list Todo :=
  filter (λ todo, passes tab todo) rows.

Definition activeCount (rows : list Todo) : nat :=
  length (filter (λ todo : Todo, negb (completed todo)) rows).

Definition completedCount (rows : list Todo) : nat :=
  length (filter (λ todo : Todo, completed todo) rows).

(** ** The selection of suggestions ([src/pages/Todos.tsx], lines 180-184) *)

Definition setSelectedSuggestionIndexes (indexes : list nat) (w : World) : World :=
  let v := view w in
  set_view (mkView (editingId v) (editTitle v) (aiPrompt v) (aiSuggestions v)
                   indexes (form_title v) (form_error v) (console v)) w.

(** [prev.includes(index) ? prev.filter((i) => i !== index) : [...prev, index]]. *)
Definition toggleSuggestionSelected (index : nat) (w : World) : World :=
  let prev := selectedSuggestionIndexes (view w) in
  setSelectedSuggestionIndexes
    (if bool_decide (index ∈ prev) then filter (λ i, i ≠ index) prev
     else prev ++ [index]) w.

(** The button [Select all]:
    [setSelectedSuggestionIndexes(aiSuggestions.map((_, index) => index))]. *)
Definition selectAll (w : World) : World :=
  setSelectedSuggestionIndexes (imap (λ index _, index) (aiSuggestions (view w))) w.

(** [Boolean(import.meta.env.VITE_OPENAI_API_KEY?.trim())] (lines 175-178). *)
Definition isAiConfigured (env : Env) : bool :=
  match VITE_OPENAI_API_KEY env with
  | Some key => truthy (trim key)
  | None => false
  end.

(** ** Routes ([src/App.tsx], lines 20-70) *)

(** [useAuth()]: the signed-in user, and whether the session is still being
    looked up. *)
Record Auth := mkAuth { user : option User; loading : bool }.

(** The location, by the route of [App] it matches: [/login], [/signup],
    [/todos], [/], or none of them. *)
Inductive Location := AtLogin | AtSignup | AtTodos | AtRoot | Elsewhere.

Inductive Page := Login | Signup | Todos.

(** What a route renders; with no route matched, nothing. *)
Inductive Element :=
| LoadingSpinner
| Navigate (to : Location)
| Show (page : Page)
| Blank.

Definition ProtectedRoute (a : Auth) (children : Element) : Element :=
  if loading a then LoadingSpinner
  else match user a with
       | None => Navigate AtLogin
       | Some _ => children
       end.

Definition PublicRoute (a : Auth) (children : Element) : Element :=
  if loading a then LoadingSpinner
  else match user a with
       | Some _ => Navigate AtTodos
       | None => children
       end.

Definition App (a : Auth) (location : Location) : Element :=
  match location with
  | AtLogin => PublicRoute a (Show Login)
  | AtSignup => PublicRoute a (Show Signup)
  | AtTodos => ProtectedRoute a (Show Todos)
  | AtRoot => Navigate AtTodos
  | Elsewhere => Blank
  end.

(** A rendered [Navigate] replaces the location, and the routes render
    again: where the browser is and what it shows after at most [redirects]
    of them, [None] when it is still redirecting. *)
Fixpoint rendered (redirects : nat) (a : Auth) (location : Location)
    : option (Location * Element) :=
  match App a location with
  | Navigate to =>
      match redirects with
      | 0 => None
      | S redirects => rendered redirects a to
      end
  | element => Some (location, element)
  end.

(** ** The Supabase client ([src/lib/supabase.ts]) *)

(** The two variables of [import.meta.env] the module reads. *)
Record SupabaseEnv := mkSupabaseEnv {
  VITE_SUPABASE_URL : option jsstring;
  VITE_SUPABASE_ANON_KEY : option jsstring
}.

Definition supabaseUrl (env : SupabaseEnv) : jsstring :=
  or_else (trim <$> VITE_SUPABASE_URL env) [].

Definition supabaseAnonKey (env : SupabaseEnv) : jsstring :=
  or_else (trim <$> VITE_SUPABASE_ANON_KEY env) [].

Definition MissingUrlError : Thrown :=
  ThrowError (js "Missing VITE_SUPABASE_URL environment variable. "
              ++ js "Please create a .env file with your Supabase project URL. "
              ++ js "See SUPABASE_CREDENTIALS.md for instructions.").

Definition MissingAnonKeyError : Thrown :=
  ThrowError (js "Missing VITE_SUPABASE_ANON_KEY environment variable. "
              ++ js "Please create a .env file with your Supabase anon key. "
              ++ js "See SUPABASE_CREDENTIALS.md for instructions.").

Definition InvalidUrlError (supabaseUrl : jsstring) : Thrown :=
  ThrowError (js "Invalid VITE_SUPABASE_URL format: " ++ quoted supabaseUrl ++ js ". "
              ++ js "It must be a valid HTTP or HTTPS URL (e.g., https://xxxxx.supabase.co). "
              ++ js "Make sure there are no extra spaces or quotes in your .env file.").

Section client.
(** [new URL(s)] returns: [false] when it throws. *)
Variable URL : jsstring → bool.

(** The module, run: it throws, or exports [createClient(supabaseUrl,
    supabaseAnonKey)], given here by its two arguments. *)
Definition supabase (env : SupabaseEnv) : Result (jsstring * jsstring) :=
  if negb (truthy (supabaseUrl env)) then Throw MissingUrlError
  else if negb (truthy (supabaseAnonKey env)) then Throw MissingAnonKeyError
  else if negb (URL (supabaseUrl env)) then Throw (InvalidUrlError (supabaseUrl env))
  else Ok (supabaseUrl env, supabaseAnonKey env).
End client.

(** ** More vocabulary *)

(** The rows of the table that are not the caller's. *)
Definition rows_of_others (n : Net) : list Todo :=
  filter (λ t, negb (owns (auth_uid n) t)) (todos n).

(** Every title of [titles] is the title of exactly one todo of [l]. *)
Definition listed_exactly_once (titles : list jsstring) (l : list Todo) : Prop :=
  ∀ t, t ∈ titles → length (filter (λ row, title row = t) l) = 1.

(** A variable of the environment that [v?.trim() || ''] reads as empty:
    not set, or nothing but white space. *)
Definition unset (raw : option jsstring) : Prop :=
  raw = None ∨ ∃ s, raw = Some s ∧ whitespace_only s.

(** * Properties *)

(** ** The query cache *)

Lemma net_set_mutation k m w : net (set_mutation k m w) = net w.
Proof. destruct k; reflexivity. Qed.

Lemma query_set_mutation k m w : query (set_mutation k m w) = query w.
Proof. destruct k; reflexivity. Qed.

Lemma dispatched_set_mutation k m w : dispatched (set_mutation k m w) = dispatched w.
Proof. destruct k; reflexivity. Qed.

Lemma mutation_set_mutation k m w : mutation k (set_mutation k m w) = m.
Proof. destruct k; reflexivity. Qed.

Lemma net_invalidateQueries w : net (invalidateQueries w) = net w.
Proof. reflexivity. Qed.

Lemma query_invalidateQueries w :
  query (invalidateQueries w) = reducer (reducer (query w) ActInvalidate) ActFetch.
Proof. reflexivity. Qed.

Lemma dispatched_invalidateQueries w :
  dispatched (invalidateQueries w) = dispatched w ++ [ActInvalidate; ActFetch].
Proof. unfold invalidateQueries, start_fetch; cbn. now rewrite <- app_assoc. Qed.

Lemma q_data_invalidate q :
  q_data (reducer (reducer q ActInvalidate) ActFetch) = q_data q.
Proof. destruct q as [[d|] ? ? ? ? ?]; reflexivity. Qed.

Lemma q_fetchStatus_invalidate q :
  q_fetchStatus (reducer (reducer q ActInvalidate) ActFetch) = Fetching.
Proof. destruct q as [[d|] ? ? ? ? ?]; reflexivity. Qed.

Lemma q_isInvalidated_invalidate q :
  q_isInvalidated (reducer (reducer q ActInvalidate) ActFetch) = true.
Proof. destruct q as [[d|] ? ? ? ? ?]; reflexivity. Qed.

Lemma net_set_net n w : net (set_net n w) = n.
Proof. reflexivity. Qed.

Lemma query_set_net n w : query (set_net n w) = query w.
Proof. reflexivity. Qed.

Lemma dispatched_set_net n w : dispatched (set_net n w) = dispatched w.
Proof. reflexivity. Qed.

(** The projections of a state through the steps of a mutation. *)
Create Rewrite HintDb world.
#[local] Hint Rewrite
  net_set_mutation query_set_mutation dispatched_set_mutation mutation_set_mutation
  net_invalidateQueries query_invalidateQueries dispatched_invalidateQueries
  net_set_net query_set_net dispatched_set_net
  q_data_invalidate q_fetchStatus_invalidate q_isInvalidated_invalidate : world.

Lemma exec_fetchTodos n :
  exec fetchTodos n =
    (match fst (next_fault n) with
     | Some e => Throw (ThrowPostgrest e)
     | None => Ok (pg_select false n)
     end, answered (SelectTodos false) n).
Proof. cbn. destruct (fst (next_fault n)); reflexivity. Qed.

Lemma retryer_unfold {A} retries c onFail (fn : Prog (Result A)) w :
  retryer retries c onFail fn w =
    match exec fn (net w) with
    | (Ok a, n) => (Ok a, set_net n w)
    | (Throw e, n) =>
        match retries with
        | 0 => (Throw e, set_net n w)
        | S retries => retryer retries (S c) onFail fn (onFail (S c) e (set_net n w))
        end
    end.
Proof. destruct retries; cbn; destruct (exec fn (net w)) as [[a|e] n]; reflexivity. Qed.

(** A read whose first attempt is not faulted. *)
Lemma complete_fetch_fresh w :
  q_fetchStatus (query w) = Fetching →
  fst (next_fault (net w)) = None →
  q_data (query (complete_fetch w)) = Some (pg_select false (net w)).
Proof.
  intros Hf Hn. unfold complete_fetch. rewrite Hf.
  rewrite retryer_unfold, exec_fetchTodos, Hn. reflexivity.
Qed.

Section page_mutation.
Context {V A : Type}.
Variable k : MutationKind.
Variable fn : V → Prog (Result A).

Lemma mutateAsync_settles (v : V) (w : World) :
  mutateAsync k (mkMutationOptions fn None (Some (λ _ _, invalidateQueries)) None) v w =
    match exec (fn v) (net w) with
    | (Ok a, n) =>
        (Ok a, set_mutation k (mkMutation MSuccess None)
                 (invalidateQueries
                    (set_net n (set_mutation k (mkMutation MPending None) w))))
    | (Throw e, n) =>
        (Throw e, set_mutation k (mkMutation MError (Some e))
                    (set_net n (set_mutation k (mkMutation MPending None) w)))
    end.
Proof.
  unfold mutateAsync; cbn.
  rewrite net_set_mutation.
  destruct (exec (fn v) (net w)) as [[a|e] n]; reflexivity.
Qed.

Lemma page_mutation_protocol :
  write_protocol k (mkMutationOptions fn None (Some (λ _ _, invalidateQueries)) None).
Proof.
  intros v w. rewrite mutateAsync_settles. cbn [mutationFn].
  destruct (exec (fn v) (net w)) as [[a|e] n]; autorewrite with world.
  - repeat split. intros Hn.
    rewrite complete_fetch_fresh; autorewrite with world; auto.
  - repeat split.
Qed.

End page_mutation.


Lemma next_fault_cons n f fs : faults n = f :: fs → next_fault n = (f, fs).
Proof. unfold next_fault. now intros ->. Qed.

Lemma exec_updateTodo i u n :
  exec (updateTodo i u) n =
    (match fst (serve (UpdateTodo u i) n) with
     | PgSuccess data => Ok data
     | PgFailure error => Throw (ThrowPostgrest error)
     end, snd (serve (UpdateTodo u i) n)).
Proof.
  unfold updateTodo, exec. destruct (serve (UpdateTodo u i) n) as [[d|e] n']; reflexivity.
Qed.

Lemma exec_deleteTodo i n :
  exec (deleteTodo i) n =
    (match fst (serve (DeleteTodo i) n) with
     | PgSuccess _ => Ok ()
     | PgFailure error => Throw (ThrowPostgrest error)
     end, snd (serve (DeleteTodo i) n)).
Proof.
  unfold deleteTodo, exec. destruct (serve (DeleteTodo i) n) as [[d|e] n']; reflexivity.
Qed.

Lemma calls_serve rq n : calls (snd (serve rq n)) = calls n ++ [rq].
Proof. destruct rq; cbn; destruct (fst (next_fault n)); reflexivity. Qed.

Lemma exec_createTodo t n :
  exec (createTodo t) n =
    match fst (serve AuthGetUser n) with
    | None => (Throw (ThrowError (js "Not authenticated")), snd (serve AuthGetUser n))
    | Some user =>
        (match fst (serve (InsertTodo t (uid user)) (snd (serve AuthGetUser n))) with
         | PgSuccess data => Ok data
         | PgFailure error => Throw (ThrowPostgrest error)
         end, snd (serve (InsertTodo t (uid user)) (snd (serve AuthGetUser n))))
    end.
Proof.
  unfold createTodo. cbn [exec].
  destruct (serve AuthGetUser n) as [[user|] n1]; cbn [fst snd exec]; [|reflexivity].
  destruct (serve (InsertTodo t (uid user)) n1) as [[d|e] n2]; reflexivity.
Qed.

(** C2. A read of the list whose first attempt fails is retried once and no
    more. If the retry succeeds the query ends in success with no error and
    no error action was dispatched; if it fails too, the query ends in error
    with exactly one error, the second one, and the service was called twice,
    not three times. A mutation is never retried: the services see one run
    of its function, succeeded or failed. *)
Theorem read_retried_once_writes_never
    (w : World) (e1 : PostgrestError) (second : option PostgrestError)
    (rest : list (option PostgrestError)) :
  q_fetchStatus (query w) = Fetching →
  faults (net w) = Some e1 :: second :: rest →
  let w' := complete_fetch w in
  (calls (net w') = calls (net w) ++ [SelectTodos false; SelectTodos false] ∧
   faults (net w') = rest ∧
   match second with
   | None =>
       q_status (query w') = QSuccess ∧
       q_error (query w') = None ∧
       q_data (query w') = Some (pg_select false (net w)) ∧
       dispatched w' = dispatched w ++
         [ActFailed 1 (RemoteError e1); ActSuccess (pg_select false (net w))]
   | Some e2 =>
       q_status (query w') = QError ∧
       q_error (query w') = Some (RemoteError e2) ∧
       q_data (query w') = q_data (query w) ∧
       dispatched w' = dispatched w ++
         [ActFailed 1 (RemoteError e1); ActError (RemoteError e2)]
   end) ∧
  (∀ t w0, ∃ r w1, mutateAsync Create createMutation t w0 = (r, w1) ∧
     (r, net w1) = exec (createTodo t) (net w0) ∧
     (calls (net w1) = calls (net w0) ++ [AuthGetUser] ∨
      ∃ u, calls (net w1) = calls (net w0) ++ [AuthGetUser; InsertTodo t u])) ∧
  (∀ i u w0, ∃ r w1, mutateAsync Update updateMutation (i, u) w0 = (r, w1) ∧
     (r, net w1) = exec (updateTodo i u) (net w0) ∧
     calls (net w1) = calls (net w0) ++ [UpdateTodo u i]) ∧
  (∀ i w0, ∃ r w1, mutateAsync Delete deleteMutation i w0 = (r, w1) ∧
     (r, net w1) = exec (deleteTodo i) (net w0) ∧
     calls (net w1) = calls (net w0) ++ [DeleteTodo i]).
Proof.
  intros Hf Hfaults w'. split; [|split; [|split]].
  - subst w'. unfold complete_fetch. rewrite Hf.
    change (query_retries queryClient) with 1.
    rewrite retryer_unfold, exec_fetchTodos, (next_fault_cons _ _ _ Hfaults).
    cbn [fst snd]. rewrite retryer_unfold.
    change (net (dispatch ?a (set_net ?n ?x))) with n.
    rewrite exec_fetchTodos.
    assert (Hn : next_fault (answered (SelectTodos false) (net w)) = (second, rest))
      by (apply next_fault_cons; cbn; now rewrite (next_fault_cons _ _ _ Hfaults)).
    rewrite Hn. cbn [fst snd].
    destruct second as [e2|]; cbn; rewrite Hn, <- !app_assoc; cbn;
      destruct (q_data (query w)); repeat split.
  - intros t w0.
    pose proof (page_mutation_protocol Create createTodo t w0) as H.
    fold createMutation in H.
    destruct (mutateAsync Create createMutation t w0) as [r w1].
    exists r, w1. destruct H as (H & _). split; [reflexivity|]. split; [exact H|].
    cbn [mutationFn createMutation] in H. rewrite exec_createTodo in H.
    destruct (fst (serve AuthGetUser (net w0))) as [user|];
      apply (f_equal snd) in H; cbn [snd] in H; rewrite H, !calls_serve.
    + right. exists (uid user). now rewrite <- app_assoc.
    + now left.
  - intros i u w0.
    pose proof (page_mutation_protocol Update (λ v, updateTodo (fst v) (snd v)) (i, u) w0) as H.
    fold updateMutation in H.
    destruct (mutateAsync Update updateMutation (i, u) w0) as [r w1].
    exists r, w1. destruct H as (H & _). split; [reflexivity|]. split; [exact H|].
    cbn [mutationFn updateMutation fst snd] in H. rewrite exec_updateTodo in H.
    apply (f_equal snd) in H; cbn [snd] in H. rewrite H. apply calls_serve.
  - intros i w0.
    pose proof (page_mutation_protocol Delete deleteTodo i w0) as H.
    fold deleteMutation in H.
    destruct (mutateAsync Delete deleteMutation i w0) as [r w1].
    exists r, w1. destruct H as (H & _). split; [reflexivity|]. split; [exact H|].
    cbn [mutationFn deleteMutation] in H. rewrite exec_deleteTodo in H.
    apply (f_equal snd) in H; cbn [snd] in H. rewrite H. apply calls_serve.
Qed.

(** ** The data access layer *)

#[global] Instance created_order_total asc : Total (created_order asc).
Proof. intros a b. unfold created_order. destruct asc; lia. Qed.

#[global] Instance created_order_trans asc : Transitive (created_order asc).
Proof. intros a b c. unfold created_order. destruct asc; lia. Qed.

Lemma pg_select_perm asc n :
  pg_select asc n ≡ₚ filter (λ t, owns (auth_uid n) t) (todos n).
Proof. apply merge_sort_Permutation. Qed.

Lemma pg_select_sorted asc n : StronglySorted (created_order asc) (pg_select asc n).
Proof. apply StronglySorted_merge_sort; apply _. Qed.

Lemma elem_of_pg_select asc n t :
  t ∈ pg_select asc n ↔ t ∈ todos n ∧ auth_uid n = Some (user_id t).
Proof.
  rewrite pg_select_perm, list_elem_of_filter. unfold owns.
  rewrite bool_decide_spec. tauto.
Qed.

(** C7. [fetchTodos] fails with the error of the service whenever the call
    errors, and otherwise returns exactly the rows of the table owned by the
    current identity, ordered by [created_at], newest first. *)
Theorem fetchTodos_owned_newest_first (n : Net) :
  match fst (next_fault n) with
  | Some e => fst (exec fetchTodos n) = Throw (RemoteError e)
  | None =>
      ∃ l, fst (exec fetchTodos n) = Ok l ∧
           (∀ t, t ∈ l ↔ t ∈ todos n ∧ auth_uid n = Some (user_id t)) ∧
           l ≡ₚ filter (λ t, owns (auth_uid n) t) (todos n) ∧
           StronglySorted (λ a b, (created_at b <= created_at a)%Z) l
  end.
Proof.
  rewrite exec_fetchTodos. cbn [fst].
  destruct (fst (next_fault n)) as [e|]; [reflexivity|].
  exists (pg_select false n). split; [reflexivity|].
  split; [intros t; apply elem_of_pg_select|].
  split; [apply pg_select_perm|apply (pg_select_sorted false)].
Qed.

Lemma fresh_id_above rows t : t ∈ rows → (id t < fresh_id rows)%N.
Proof.
  unfold fresh_id. induction 1 as [t rows|t t' rows _ IH]; cbn; lia.
Qed.

Lemma fresh_id_fresh rows : fresh_id rows ∉ id <$> rows.
Proof.
  intros (t & Heq & Hin)%list_elem_of_fmap.
  apply fresh_id_above in Hin. lia.
Qed.

Lemma serve_getUser n :
  serve AuthGetUser n =
    (match fst (next_fault n) with Some _ => None | None => session n end,
     answered AuthGetUser n).
Proof. unfold serve. destruct (fst (next_fault n)); reflexivity. Qed.

Lemma serve_insert t u n :
  serve (InsertTodo t u) n =
    match fst (next_fault n) with
    | Some e => (PgFailure e, answered (InsertTodo t u) n)
    | None => (fst (pg_insert t u n),
               after (InsertTodo t u) (snd (pg_insert t u n)) (clock n + 1)%Z n)
    end.
Proof. reflexivity. Qed.

Lemma pg_insert_own t user n :
  session n = Some user →
  pg_insert t (uid user) n =
    (PgSuccess (mkTodo (fresh_id (todos n)) t false (clock n) (uid user)),
     todos n ++ [mkTodo (fresh_id (todos n)) t false (clock n) (uid user)]).
Proof.
  intros Hs. unfold pg_insert, owns, auth_uid. rewrite Hs. cbn.
  now rewrite bool_decide_eq_true_2.
Qed.

(** The first two entries of the fault schedule, where no failure is
    scheduled for them. *)
Lemma next_fault_clear n :
  (∀ e, Some e ∉ take 2 (faults n)) →
  fst (next_fault n) = None ∧ fst (next_fault (answered AuthGetUser n)) = None.
Proof.
  intros H. unfold answered, after, next_fault. cbn [faults].
  destruct (faults n) as [|f1 fs]; [auto|].
  destruct f1 as [e1|]; [destruct (H e1); left|]. cbn [fst snd].
  destruct fs as [|f2 fs]; [auto|].
  destruct f2 as [e2|]; [destruct (H e2); right; left|]. auto.
Qed.

(** C6. [createTodo] asks the service for the identity on every call, before
    anything else; with no identity it fails with [NotAuthenticatedError]
    and issues no insert. With a user signed in and neither call failing it
    inserts and returns the row as stored, with the id, the [created_at] and
    the [user_id] the server assigned; when the insert fails it throws the
    error of the service and stores nothing. Whenever it succeeds, what it
    returns is that stored row. *)
Theorem createTodo_checks_identity_then_inserts (title : jsstring) (n : Net) :
  let '(r, n') := exec (createTodo title) n in
  (∃ later, calls n' = calls n ++ AuthGetUser :: later) ∧
  (session n = None →
     r = Throw NotAuthenticatedError ∧
     calls n' = calls n ++ [AuthGetUser] ∧
     todos n' = todos n) ∧
  (∀ user, session n = Some user →
     (∀ e, Some e ∉ take 2 (faults n)) →
     r = Ok (mkTodo (fresh_id (todos n)) title false (clock n) (uid user)) ∧
     todos n' = todos n ++ [mkTodo (fresh_id (todos n)) title false (clock n) (uid user)] ∧
     calls n' = calls n ++ [AuthGetUser; InsertTodo title (uid user)]) ∧
  (∀ user e rest, session n = Some user →
     faults n = None :: Some e :: rest →
     r = Throw (RemoteError e) ∧
     todos n' = todos n ∧
     calls n' = calls n ++ [AuthGetUser; InsertTodo title (uid user)]) ∧
  (∀ t, r = Ok t →
     ∃ user, session n = Some user ∧
       t = mkTodo (fresh_id (todos n)) title false (clock n) (uid user) ∧
       (id t ∉ (id <$> todos n)) ∧
       todos n' = todos n ++ [t] ∧
       calls n' = calls n ++ [AuthGetUser; InsertTodo title (uid user)]).
Proof.
  rewrite exec_createTodo, serve_getUser. cbn [fst snd].
  destruct (fst (next_fault n)) as [e|] eqn:Hfault; cbn [fst snd].
  - split; [eexists; reflexivity|]. split; [intros _; repeat split|].
    split; [|split; [|discriminate]].
    + intros user _ Hclear. apply next_fault_clear in Hclear as [H _]. congruence.
    + intros user e' rest _ Hf. rewrite (next_fault_cons _ _ _ Hf) in Hfault. discriminate.
  - destruct (session n) as [user|] eqn:Hs.
    + rewrite serve_insert.
      change (session (answered ?rq n)) with (session n).
      destruct (fst (next_fault (answered AuthGetUser n))) as [e|] eqn:Hfault2;
        cbn [fst snd].
      * split; [eexists; cbn; now rewrite <- app_assoc|]. split; [discriminate|].
        split; [|split; [|discriminate]].
        -- intros user' _ Hclear. apply next_fault_clear in Hclear as [_ H]. congruence.
        -- intros user' e' rest [= <-] Hf.
           assert (He : fst (next_fault (answered AuthGetUser n)) = Some e').
           { unfold answered, after, next_fault at 1. cbn [faults].
             now rewrite (next_fault_cons _ _ _ Hf). }
           rewrite He in Hfault2. injection Hfault2 as <-.
           cbn. rewrite <- app_assoc. repeat split.
      * rewrite pg_insert_own by exact Hs. cbn [fst snd].
        split; [eexists; cbn; now rewrite <- app_assoc|].
        split; [discriminate|]. split; [|split].
        -- intros user' [= <-] _. cbn. rewrite <- app_assoc. repeat split.
        -- intros user' e' rest _ Hf.
           assert (He : fst (next_fault (answered AuthGetUser n)) = Some e').
           { unfold answered, after, next_fault at 1. cbn [faults].
             now rewrite (next_fault_cons _ _ _ Hf). }
           congruence.
        -- intros t [= <-]. exists user.
           cbn. rewrite <- app_assoc. repeat split. apply fresh_id_fresh.
    + split; [eexists; reflexivity|]. split; [intros _; repeat split|].
      split; [discriminate|]. split; discriminate.
Qed.

Lemma serve_update u i n :
  serve (UpdateTodo u i) n =
    match fst (next_fault n) with
    | Some e => (PgFailure e, answered (UpdateTodo u i) n)
    | None => (fst (pg_update u i n),
               after (UpdateTodo u i) (snd (pg_update u i n)) (clock n + 1)%Z n)
    end.
Proof. reflexivity. Qed.

Lemma pg_update_success u i n t :
  fst (pg_update u i n) = PgSuccess t →
  ∃ old, targets i n = [old] ∧ t = apply_updates u old ∧
         snd (pg_update u i n) =
           (λ r, if bool_decide (id r = i) && owns (auth_uid n) r
                 then apply_updates u r else r) <$> todos n.
Proof.
  unfold pg_update. destruct (targets i n) as [|old [|]]; try discriminate.
  repeat case_match; try discriminate. cbn. intros [= <-]. eauto.
Qed.

Lemma elem_of_targets i n t :
  t ∈ targets i n ↔ t ∈ todos n ∧ id t = i ∧ auth_uid n = Some (user_id t).
Proof.
  unfold targets. rewrite list_elem_of_filter, andb_True, bool_decide_spec.
  unfold owns. rewrite bool_decide_spec. tauto.
Qed.

(** ** Validation of titles *)

Lemma todoSchema_empty : todoSchema [] = Some (js "Title is required").
Proof. reflexivity. Qed.

Lemma todoSchema_nonempty (t : jsstring) : t ≠ [] → todoSchema t = None.
Proof. destruct t; [congruence|reflexivity]. Qed.

(** An empty title never leaves the form. *)
Lemma handleSubmit_rejects_empty (w : World) :
  form_title (view w) = [] → net (handleSubmit_onSubmit w) = net w.
Proof. unfold handleSubmit_onSubmit. now intros ->. Qed.

(** Saving an edit whose title trims to nothing does nothing at all. *)
Lemma handleSaveEdit_rejects_blank (i : N) (w : World) :
  whitespace_only (editTitle (view w)) → handleSaveEdit i w = w.
Proof. unfold whitespace_only, handleSaveEdit. now intros ->. Qed.

(** The create form sends the title as typed, and never an empty one. *)
Lemma handleSubmit_title_not_empty (w : World) :
  calls (net (handleSubmit_onSubmit w)) = calls (net w) ∨
  form_title (view w) ≠ [] ∧
  (calls (net (handleSubmit_onSubmit w)) = calls (net w) ++ [AuthGetUser] ∨
   ∃ u, calls (net (handleSubmit_onSubmit w))
        = calls (net w) ++ [AuthGetUser; InsertTodo (form_title (view w)) u]).
Proof.
  unfold handleSubmit_onSubmit.
  destruct (form_title (view w)) as [|c t] eqn:Ht; [now left|]. right.
  split; [discriminate|]. cbn [todoSchema length Nat.leb]. unfold onSubmit.
  pose proof (page_mutation_protocol Create createTodo (c :: t) (set_form_error None w)) as H.
  fold createMutation in H.
  destruct (mutateAsync Create createMutation (c :: t) (set_form_error None w)) as [r w1].
  destruct H as (H & _). cbn [mutationFn createMutation] in H.
  rewrite exec_createTodo in H.
  change (net (set_form_error None w)) with (net w) in H.
  assert (Hc : calls (net w1) = calls (net w) ++ [AuthGetUser] ∨
               ∃ u, calls (net w1) = calls (net w) ++ [AuthGetUser; InsertTodo (c :: t) u]).
  { destruct (fst (serve AuthGetUser (net w))) as [user|];
      apply (f_equal snd) in H; cbn [snd] in H; rewrite H, !calls_serve.
    - right. exists (uid user). now rewrite <- app_assoc.
    - now left. }
  destruct r; exact Hc.
Qed.

Lemma trimStart_idempotent (s : jsstring) : trimStart (trimStart s) = trimStart s.
Proof.
  induction s as [|c s IH]; [reflexivity|]. cbn.
  destruct (is_white_space c) eqn:Hc; [exact IH|]. cbn. now rewrite Hc.
Qed.

Lemma trimStart_length (s : jsstring) : length (trimStart s) ≤ length s.
Proof.
  induction s as [|c s IH]; cbn; [lia|]. destruct (is_white_space c); cbn; lia.
Qed.

Lemma trimStart_suffix (s : jsstring) : ∃ ws, s = ws ++ trimStart s.
Proof.
  induction s as [|c s [ws IH]]; [now exists []|]. cbn.
  destruct (is_white_space c); [|now exists []].
  exists (c :: ws). cbn. now rewrite <- IH.
Qed.

(** A text that starts clean has clean non-empty prefixes. *)
Lemma trimStart_prefix (a b : jsstring) :
  trimStart (a ++ b) = a ++ b → a ≠ [] → trimStart a = a.
Proof.
  destruct a as [|x a]; [congruence|]. cbn.
  destruct (is_white_space x); [|reflexivity].
  intros H _. apply (f_equal (@length N)) in H. cbn in H.
  pose proof (trimStart_length (a ++ b)). lia.
Qed.

(** What [trim] leaves neither starts nor ends with white space, so trimming
    it again changes nothing. *)
Lemma trim_idempotent (s : jsstring) : trim (trim s) = trim s.
Proof.
  unfold trim, trimEnd.
  set (u := trimStart s). set (r := trimStart (rev u)).
  assert (Hu : trimStart u = u) by apply trimStart_idempotent.
  assert (Hr : trimStart r = r) by apply trimStart_idempotent.
  assert (Hclean : trimStart (rev r) = rev r).
  { destruct (trimStart_suffix (rev u)) as [ws Hws]. fold r in Hws.
    apply (f_equal (@rev N)) in Hws. rewrite rev_involutive, rev_app_distr in Hws.
    destruct r as [|c v]; [reflexivity|].
    apply (trimStart_prefix _ (rev ws)); [now rewrite <- Hws|].
    cbn. now destruct (rev v). }
  now rewrite Hclean, rev_involutive, Hr.
Qed.

Lemma trim_not_blank (s : jsstring) : trim s ≠ [] → ¬ whitespace_only (trim s).
Proof. unfold whitespace_only. now rewrite trim_idempotent. Qed.

(** The edit path sends a trimmed title that is not blank, or sends
    nothing. *)
Lemma handleSaveEdit_sends_trimmed (i : N) (w : World) :
  calls (net (handleSaveEdit i w)) = calls (net w) ∨
  (calls (net (handleSaveEdit i w))
     = calls (net w) ++ [UpdateTodo (only_title (trim (editTitle (view w)))) i] ∧
   ¬ whitespace_only (trim (editTitle (view w)))).
Proof.
  unfold handleSaveEdit.
  destruct (trim (editTitle (view w))) as [|c t] eqn:Ht; [now left|]. right.
  cbn [truthy negb].
  split; [|rewrite <- Ht; apply trim_not_blank; now rewrite Ht].
  pose proof (page_mutation_protocol Update (λ v, updateTodo (fst v) (snd v))
                (i, only_title (c :: t)) w) as H.
  fold updateMutation in H.
  destruct (mutateAsync Update updateMutation (i, only_title (c :: t)) w) as [r w1].
  destruct H as (H & _). cbn [mutationFn updateMutation fst snd] in H.
  rewrite exec_updateTodo in H. apply (f_equal snd) in H. cbn [snd] in H.
  destruct r; cbn; rewrite H; apply calls_serve.
Qed.

(** The bulk add keeps no blank title. *)
Lemma titlesToAdd_not_blank (v : View) (t : jsstring) :
  t ∈ titlesToAdd v → ¬ whitespace_only t.
Proof.
  unfold titlesToAdd, whitespace_only. rewrite list_elem_of_omap.
  intros ([t'|] & _ & H); [|discriminate].
  destruct (truthy t' && truthy (trim t')) eqn:E; [|discriminate].
  injection H as <-. apply andb_true_iff in E as [_ E].
  intros Hblank. now rewrite Hblank in E.
Qed.

(** C8. The edit path and the bulk add reject blank titles, the create form
    does not: [todoSchema] checks the length only, so a title of one space
    passes, [createTodo] is called with it and the row is stored. *)
Theorem create_form_submits_blank_title :
  let w := handleSubmit_onSubmit (type_title (js " ") world0) in
  whitespace_only (js " ") ∧
  todoSchema (js " ") = None ∧
  calls (net w) = [AuthGetUser; InsertTodo (js " ") (uid alice)] ∧
  title <$> todos (net w) = [js " "] ∧
  handleSaveEdit 1 (type_edit (js " ") world0) = type_edit (js " ") world0 ∧
  titlesToAdd (view (suggest [js " "] world0)) = [].
Proof. vm_compute. repeat split. Qed.

(** C5. The updates the page sends carry [title] or [completed] and nothing
    else; [updateTodo(id, {completed: b})] sends exactly that field, and the
    Todo it returns is the stored row with [completed] set to [b]: its title
    is the title the row had. *)
Theorem completed_only_update_keeps_title (i : N) (b : bool) (n n' : Net) (t : Todo) :
  exec (updateTodo i (only_completed b)) n = (Ok t, n') →
  (∀ todo checked w,
     calls (net (toggleCompleted todo checked w))
       = calls (net w) ++ [UpdateTodo (mkPartial None None (Some checked) None None) (id todo)]) ∧
  (∀ j w,
     calls (net (handleSaveEdit j w)) = calls (net w) ∨
     calls (net (handleSaveEdit j w))
       = calls (net w) ++
           [UpdateTodo (mkPartial None (Some (trim (editTitle (view w)))) None None None) j]) ∧
  calls n' = calls n ++ [UpdateTodo (mkPartial None None (Some b) None None) i] ∧
  ∃ old, old ∈ todos n ∧ id old = i ∧ targets i n = [old] ∧
         t = mkTodo (id old) (title old) b (created_at old) (user_id old) ∧
         title t = title old ∧
         t ∈ todos n'.
Proof.
  intros Hexec. split; [|split].
  { intros todo checked w. unfold toggleCompleted, mutate.
    pose proof (page_mutation_protocol Update (λ v, updateTodo (fst v) (snd v))
                  (id todo, only_completed checked) w) as H.
    fold updateMutation in H.
    destruct (mutateAsync Update updateMutation (id todo, only_completed checked) w)
      as [r w1].
    destruct H as (H & _). cbn [mutationFn updateMutation fst snd] in H.
    rewrite exec_updateTodo in H. apply (f_equal snd) in H. cbn [snd] in H |- *.
    rewrite H. apply calls_serve. }
  { intros j w. destruct (handleSaveEdit_sends_trimmed j w) as [H|[H _]]; auto. }
  revert Hexec.
  rewrite exec_updateTodo, serve_update.
  destruct (fst (next_fault n)) as [e|]; cbn [fst snd]; [discriminate|].
  destruct (fst (pg_update (only_completed b) i n)) as [d|e] eqn:Hu; [|discriminate].
  intros [= -> <-]. split; [reflexivity|].
  apply pg_update_success in Hu as (old & Ht & -> & Hrows).
  assert (Hold : old ∈ targets i n) by (rewrite Ht; left).
  apply elem_of_targets in Hold as (Hin & Hid & Hown).
  exists old. repeat split; auto.
  cbn [todos after]. rewrite Hrows. apply list_elem_of_fmap.
  exists old. split; [|exact Hin].
  unfold owns. rewrite !bool_decide_eq_true_2 by auto. reflexivity.
Qed.

(** ** Concurrent creates *)

Lemma net_settle v r w : net (settle Create createMutation v r w) = net w.
Proof. destruct r; reflexivity. Qed.

Lemma begin_create t w :
  begin Create createMutation t w =
    (Running 0 0 AuthGetUser (λ user,
         match user with
         | None => Ret (Throw (ThrowError (js "Not authenticated")))
         | Some user =>
             Await (InsertTodo t (uid user)) (λ r,
               match r with
               | PgFailure error => Ret (Throw (ThrowPostgrest error))
               | PgSuccess data => Ret (Ok data)
               end)
         end),
     set_mutation Create (mkMutation MPending None) w).
Proof. reflexivity. Qed.

(** One create served with nothing in between is [mutateAsync]. *)
Lemma create_stepwise (t : jsstring) (w : World) :
  let '(t1, w1) := begin Create createMutation t w in
  let '(t2, w2) := resume Create createMutation t t1 w1 in
  let '(t3, w3) := resume Create createMutation t t2 w2 in
  (t3, w3) = (Settled (fst (mutateAsync Create createMutation t w)),
              snd (mutateAsync Create createMutation t w)).
Proof.
  rewrite begin_create.
  unfold createMutation at 3 4. rewrite mutateAsync_settles, exec_createTodo.
  cbn [resume]. change (net (set_mutation Create ?m w)) with (net w).
  destruct (serve AuthGetUser (net w)) as [[user|] n1]; cbn [fst snd land resume].
  - change (net (set_net n1 ?x)) with n1.
    destruct (serve (InsertTodo t (uid user)) n1) as [[row|e] n2];
      cbn [fst snd land]; reflexivity.
  - reflexivity.
Qed.

Lemma begin_all_spec titles rej w :
  ∃ tasks w1,
    begin_all titles rej w = (tasks, rej, w1) ∧
    net w1 = net w ∧
    fst <$> tasks = titles ∧
    Forall (λ p, ∀ s, phase s (fst p) (snd p)) tasks ∧
    Forall (λ p, ∃ k, snd p = Running 0 0 AuthGetUser k) tasks ∧
    omap (λ p, fulfilled (snd p)) tasks = [].
Proof.
  revert rej w. induction titles as [|t titles IH]; intros rej w.
  - exists [], w. cbn. repeat split; constructor.
  - cbn [begin_all]. rewrite begin_create.
    replace (first_rejection rej _) with rej by (destruct rej; reflexivity).
    destruct (IH rej (set_mutation Create (mkMutation MPending None) w))
      as (tasks & w1 & -> & Hnet & Hfst & Hph & Hrun & Hful).
    eexists _, w1. split; [reflexivity|]. cbn. rewrite Hfst, Hful.
    repeat split; auto.
    + constructor; [intros s; constructor|exact Hph].
    + constructor; [eexists; reflexivity|exact Hrun].
Qed.

Lemma omap_insert_None {A B} (f : A → option B) (l : list A) i x y :
  l !! i = Some y → f y = None → f x = None → omap f (<[i:=x]> l) = omap f l.
Proof.
  revert i. induction l as [|a l IH]; intros [|i] Hl Hy Hx; try discriminate; cbn in *.
  - injection Hl as ->. now rewrite Hy, Hx.
  - destruct (f a); [f_equal|]; eauto.
Qed.

Lemma omap_insert_Some {A B} (f : A → option B) (l : list A) i x y b :
  l !! i = Some y → f y = None → f x = Some b → omap f (<[i:=x]> l) ≡ₚ omap f l ++ [b].
Proof.
  revert i. induction l as [|a l IH]; intros [|i] Hl Hy Hx; try discriminate; cbn in *.
  - injection Hl as ->. rewrite Hy, Hx. apply Permutation_cons_append.
  - destruct (f a); cbn; [f_equiv|]; eauto.
Qed.

Lemma fmap_fst_insert {A B} (l : list (A * B)) i a b b' :
  l !! i = Some (a, b) → fst <$> <[i:=(a, b')]> l = fst <$> l.
Proof.
  intros Hl. rewrite list_fmap_insert. cbn.
  apply list_insert_id. rewrite list_lookup_fmap, Hl. reflexivity.
Qed.

Lemma resume_in_flight signed_in rows0 tasks w i t task :
  in_flight signed_in rows0 tasks w →
  tasks !! i = Some (t, task) →
  let '(task', w') := resume Create createMutation t task w in
  in_flight signed_in rows0 (<[i := (t, task')]> tasks) w'.
Proof.
  intros (Hs & Hph & Hrows) Hi.
  pose proof (proj1 (Forall_lookup _ _) Hph i _ Hi) as Hp. cbn in Hp.
  destruct Hp as [|user Hu|e|row Ht Hown].
  - (* the identity arrives *)
    unfold resume. rewrite serve_getUser.
    destruct (fst (next_fault (net w))) as [e|]; [|destruct (session (net w)) as [user|] eqn:Hw].
    + cbn [land]. split; [|split].
      * rewrite net_settle. cbn. congruence.
      * apply Forall_insert; [exact Hph|constructor].
      * rewrite net_settle. cbn [net set_net todos answered after].
        rewrite (omap_insert_None _ _ _ _ _ Hi); auto.
    + cbn [land]. split; [cbn; congruence|split].
      * apply Forall_insert; [exact Hph|]. apply phase_insert. congruence.
      * cbn [net set_net todos answered after].
        rewrite (omap_insert_None _ _ _ _ _ Hi); auto.
    + cbn [land]. split; [|split].
      * rewrite net_settle. cbn. congruence.
      * apply Forall_insert; [exact Hph|constructor].
      * rewrite net_settle. cbn [net set_net todos answered after].
        rewrite (omap_insert_None _ _ _ _ _ Hi); auto.
  - (* the insert is answered *)
    unfold resume. rewrite serve_insert.
    destruct (fst (next_fault (net w))) as [e|].
    + cbn [land]. split; [|split].
      * rewrite net_settle. cbn. congruence.
      * apply Forall_insert; [exact Hph|constructor].
      * rewrite net_settle. cbn [net set_net todos answered after].
        rewrite (omap_insert_None _ _ _ _ _ Hi); auto.
    + rewrite pg_insert_own by congruence. cbn [fst snd land].
      split; [|split].
      * rewrite net_settle. cbn. congruence.
      * apply Forall_insert; [exact Hph|]. constructor; [reflexivity|].
        rewrite Hu. reflexivity.
      * rewrite net_settle. cbn [net set_net todos answered after].
        rewrite (omap_insert_Some _ _ _ _ _ _ Hi) by (cbn; reflexivity).
        rewrite app_assoc. apply Permutation_app_tail, Hrows.
  - cbn. rewrite list_insert_id by exact Hi. now split.
  - cbn. rewrite list_insert_id by exact Hi. now split.
Qed.

Lemma deliver_in_flight signed_in rows0 sched tasks rej w :
  in_flight signed_in rows0 tasks w →
  ∃ tasks' rej' w',
    deliver sched tasks rej w = (tasks', rej', w') ∧
    fst <$> tasks' = fst <$> tasks ∧
    in_flight signed_in rows0 tasks' w'.
Proof.
  revert tasks rej w. induction sched as [|i sched IH]; intros tasks rej w Hinv.
  - exists tasks, rej, w. now split.
  - cbn [deliver]. destruct (tasks !! i) as [[t [r c rq kont|res]]|] eqn:Hi; auto.
    pose proof (resume_in_flight _ _ _ _ _ _ _ Hinv Hi) as Hstep.
    destruct (resume Create createMutation t (Running r c rq kont) w) as [task w1].
    destruct (IH (<[i:=(t, task)]> tasks) (first_rejection rej task) w1 Hstep)
      as (tasks' & rej' & w' & -> & Hfst & Hinv').
    exists tasks', rej', w'. split; [reflexivity|]. split; [|exact Hinv'].
    rewrite Hfst. eapply fmap_fst_insert, Hi.
Qed.

Lemma fulfilled_Some {A} (task : Task A) a : fulfilled task = Some a → task = Settled (Ok a).
Proof. destruct task as [| [|]]; cbn; congruence. Qed.

Lemma joined_rows signed_in (tasks : list (jsstring * Task Todo)) rows :
  Forall (λ p, phase signed_in (fst p) (snd p)) tasks →
  mapM fulfilled (snd <$> tasks) = Some rows →
  omap (λ p, fulfilled (snd p)) tasks = rows ∧
  title <$> rows = fst <$> tasks ∧
  Forall (λ row, uid <$> signed_in = Some (user_id row)) rows.
Proof.
  rewrite mapM_Some. revert rows.
  induction tasks as [|[t task] tasks IH]; intros rows Hph H; cbn in H.
  - apply Forall2_nil_inv_l in H as ->. repeat split; constructor.
  - apply Forall2_cons_inv_l in H as (row & rows' & Hrow & Hrest & ->).
    apply Forall_cons in Hph as [Hp Hph].
    destruct (IH _ Hph Hrest) as (Ho & Ht & Hu).
    apply fulfilled_Some in Hrow. cbn in Hp, Hrow. rewrite Hrow in Hp.
    inversion Hp as [| | |row' Htitle Howner].
    cbn. rewrite Hrow. cbn. rewrite Ho, Ht, Htitle. repeat split. now constructor.
Qed.

Lemma filter_none {A} (P : A → Prop) `{∀ x, Decision (P x)} (l : list A) :
  (∀ x, x ∈ l → ¬ P x) → filter P l = [].
Proof.
  induction l as [|a l IH]; intros Hl; [reflexivity|].
  rewrite filter_cons_False by (apply Hl; left). apply IH.
  intros x Hx. apply Hl. now right.
Qed.

Lemma filter_all {A} (P : A → Prop) `{∀ x, Decision (P x)} (l : list A) :
  Forall P l → filter P l = l.
Proof.
  induction 1 as [|a l Ha _ IH]; [reflexivity|].
  rewrite filter_cons_True by exact Ha. now rewrite IH.
Qed.

Lemma one_match {A B} `{EqDecision B} (f : A → B) (l : list A) (x : B) :
  NoDup (f <$> l) → x ∈ (f <$> l) → length (filter (λ y, f y = x) l) = 1.
Proof.
  induction l as [|a l IH]; intros Hnd Hin.
  - inversion Hin.
  - rewrite fmap_cons in Hnd, Hin.
    apply NoDup_cons in Hnd as [Hnotin Hnd]. rewrite filter_cons.
    destruct (decide (f a = x)) as [<-|Hne].
    + cbn. f_equal. rewrite filter_none; [reflexivity|].
      intros y Hy Heq. apply Hnotin. rewrite <- Heq. apply list_elem_of_fmap. eauto.
    + apply IH; [exact Hnd|]. apply elem_of_cons in Hin as [Heq|]; [congruence|auto].
Qed.

Lemma bulk_create_read
    (sched : list nat) (titles : list jsstring) (w w' : World)
    (tasks : list (jsstring * Task Todo)) (rej : option Thrown)
    (rows l : list Todo) (n' : Net) :
  NoDup titles →
  bulk_create sched titles w = (tasks, rej, w') →
  Promise_all (snd <$> tasks) rej = Some (Ok rows) →
  exec fetchTodos (net w') = (Ok l, n') →
  title <$> rows = titles ∧
  (∀ t, t ∈ titles →
     length (filter (λ row, title row = t) l)
     = S (length (filter (λ row, title row = t) (pg_select false (net w))))) ∧
  StronglySorted (λ a b, (created_at b <= created_at a)%Z) l.
Proof.
  intros Hnd Hbulk Hall Hread.
  destruct (begin_all_spec titles None w)
    as (started & w1 & Hbegin & Hnet & Hfst & Hph & Hrun & Hnone).
  unfold bulk_create in Hbulk. rewrite Hbegin in Hbulk.
  assert (Hinv : in_flight (session (net w)) (todos (net w)) started w1).
  { split; [now rewrite Hnet|]. split.
    - eapply Forall_impl; [exact Hph|]. intros p Hp. apply Hp.
    - now rewrite Hnone, app_nil_r, Hnet. }
  destruct (deliver_in_flight _ _ sched _ None _ Hinv)
    as (tasks' & rej' & w2 & Hdel & Hfst' & (Hs & Hph' & Hrows)).
  rewrite Hdel in Hbulk. injection Hbulk as <- <- <-.
  unfold Promise_all in Hall. destruct rej' as [e|]; [discriminate|].
  destruct (mapM fulfilled (snd <$> tasks')) as [rows'|] eqn:Hm; [|discriminate].
  injection Hall as ->.
  destruct (joined_rows _ _ _ Hph' Hm) as (Ho & Ht & Hu).
  rewrite Ho in Hrows. rewrite Hfst', Hfst in Ht.
  split; [exact Ht|].
  rewrite exec_fetchTodos in Hread.
  destruct (fst (next_fault (net w2))); [discriminate|]. injection Hread as <- _.
  split; [|apply (pg_select_sorted false)].
  intros t Hin.
  rewrite !pg_select_perm, Hrows, !filter_app, !length_app.
  unfold auth_uid. rewrite Hs.
  rewrite <- Ht in Hnd, Hin.
  rewrite (filter_all _ rows).
  - rewrite (one_match title rows t Hnd Hin). lia.
  - eapply Forall_impl; [exact Hu|]. intros row Hrow. cbn in Hrow.
    unfold owns. now rewrite bool_decide_eq_true_2.
Qed.

(** *** Every create settles under a fair schedule *)

Lemma next_fault_nil n : faults n = [] → next_fault n = (None, []).
Proof. unfold next_fault. now intros ->. Qed.

Lemma resume_steady user tasks w i t task :
  steady user tasks w →
  tasks !! i = Some (t, task) →
  let '(task', w') := resume Create createMutation t task w in
  steady user (<[i := (t, task')]> tasks) w' ∧
  unrejected task' ∧
  remaining task' = pred (remaining task).
Proof.
  intros (Hs & Hf & Hph) Hi.
  pose proof (proj1 (Forall_lookup _ _) Hph i _ Hi) as [Hp Hun]. cbn in Hp, Hun.
  destruct Hp as [|user' Hu|e|row Ht Hown].
  - unfold resume. rewrite serve_getUser, (next_fault_nil _ Hf), Hs. cbn [fst land].
    repeat split; cbn; auto.
    + now rewrite (next_fault_nil _ Hf).
    + apply Forall_insert; [exact Hph|]. split; [now apply phase_insert|exact I].
  - unfold resume. rewrite serve_insert, (next_fault_nil _ Hf). cbn [fst].
    injection Hu as <-. rewrite pg_insert_own by exact Hs. cbn [fst snd land].
    repeat split; cbn; auto.
    + now rewrite (next_fault_nil _ Hf).
    + apply Forall_insert; [exact Hph|]. split; [now constructor|exact I].
  - destruct Hun.
  - cbn. rewrite list_insert_id by exact Hi. repeat split; auto.
Qed.

Lemma deliver_steady user sched tasks w :
  steady user tasks w →
  (∀ i p, tasks !! i = Some p → remaining (snd p) ≤ count_occ Nat.eq_dec sched i) →
  ∃ tasks' w' rows,
    deliver sched tasks None w = (tasks', None, w') ∧
    mapM fulfilled (snd <$> tasks') = Some rows ∧
    faults (net w') = [].
Proof.
  revert tasks w. induction sched as [|i sched IH]; intros tasks w Hst Hfair.
  - destruct Hst as (Hs & Hf & Hph).
    assert (Hsome : is_Some (mapM fulfilled (snd <$> tasks))).
    { apply mapM_is_Some, Forall_fmap, Forall_lookup. intros j [t task] Hj.
      pose proof (Hfair j _ Hj) as Hrem.
      pose proof (proj1 (Forall_lookup _ _) Hph j _ Hj) as [Hp Hun].
      cbn in *. destruct Hp; cbn in *; first [lia | contradiction | eauto]. }
    destruct Hsome as [rows Hrows]. exists tasks, w, rows. auto.
  - cbn [deliver].
    assert (Hother : ∀ j, i ≠ j →
              count_occ Nat.eq_dec (i :: sched) j = count_occ Nat.eq_dec sched j)
      by (intros j Hne; now apply count_occ_cons_neq).
    assert (Hsame : count_occ Nat.eq_dec (i :: sched) i = S (count_occ Nat.eq_dec sched i))
      by now apply count_occ_cons_eq.
    destruct (tasks !! i) as [[t task]|] eqn:Hi.
    + pose proof (resume_steady _ _ _ _ _ _ Hst Hi) as Hstep.
      pose proof (Hfair i _ Hi) as Hrem. cbn [snd] in Hrem. rewrite Hsame in Hrem.
      destruct task as [r c rq kont|res].
      * destruct (resume Create createMutation t (Running r c rq kont) w) as [task' w1].
        destruct Hstep as (Hst' & Hun' & Hrem').
        replace (first_rejection None task') with (@None Thrown)
          by (destruct task' as [|[|]]; [reflexivity..|destruct Hun']).
        apply IH; [exact Hst'|].
        intros j p Hj. destruct (decide (i = j)) as [<-|Hne].
        -- rewrite list_lookup_insert_eq in Hj by (eapply lookup_lt_Some, Hi).
           injection Hj as <-. cbn [snd]. lia.
        -- rewrite list_lookup_insert_ne in Hj by exact Hne.
           rewrite <- (Hother j Hne). eauto.
      * apply IH; [exact Hst|].
        intros j p Hj. destruct (decide (i = j)) as [<-|Hne].
        -- rewrite Hi in Hj. injection Hj as <-. cbn. lia.
        -- rewrite <- (Hother j Hne). eauto.
    + apply IH; [exact Hst|].
      intros j p Hj. destruct (decide (i = j)) as [<-|Hne]; [congruence|].
      rewrite <- (Hother j Hne). eauto.
Qed.

(** The handler is the bulk create of the selected titles. *)
Lemma handleAddSelectedSuggestions_net (sched : list nat) (w : World) :
  titlesToAdd (view w) ≠ [] →
  net (handleAddSelectedSuggestions sched w)
    = net (snd (bulk_create sched (titlesToAdd (view w)) w)).
Proof.
  intros Hne. unfold handleAddSelectedSuggestions.
  destruct (titlesToAdd (view w)) as [|t ts]; [congruence|]. cbn [length Nat.eqb].
  destruct (bulk_create sched (t :: ts) w) as [[tasks rej] w1]. cbn [snd].
  destruct (Promise_all (snd <$> tasks) rej) as [[rows|e]|]; reflexivity.
Qed.

(** With nothing to add the handler returns at once, and so does the bulk
    create. *)
Lemma deliver_none sched rej w : deliver sched [] rej w = ([], rej, w).
Proof. induction sched as [|i sched IH]; [reflexivity|exact IH]. Qed.

Lemma handleAddSelectedSuggestions_bulk (sched : list nat) (w : World) :
  net (handleAddSelectedSuggestions sched w)
    = net (snd (bulk_create sched (titlesToAdd (view w)) w)).
Proof.
  destruct (titlesToAdd (view w)) as [|t ts] eqn:Ht.
  - unfold handleAddSelectedSuggestions, bulk_create. rewrite Ht. cbn [length Nat.eqb begin_all].
    now rewrite deliver_none.
  - rewrite <- Ht. apply handleAddSelectedSuggestions_net. now rewrite Ht.
Qed.

(** C9. A bulk add of distinct titles: the creates are all started before
    any reply is in; whatever the order in which the service takes and
    answers their calls, once all of them are fulfilled one read of the list
    holds every submitted title once more than the list held it before, so
    exactly once when it was not on the list, and the read is ordered by the
    [created_at] the server assigned; and the creates all are fulfilled, and
    the read succeeds, when a user is signed in, no call fails and every
    create gets its two replies. The same holds of
    [handleAddSelectedSuggestions], whose titles are the selected ones: what
    it leaves at the service is what the bulk create leaves, and under the
    conditions above a read after it lists the submitted titles and the
    titles listed before, and the suggestions are cleared. *)
Theorem bulk_create_lists_each_title_once (titles : list jsstring) (w : World) :
  NoDup titles →
  (∃ started w1,
     begin_all titles None w = (started, None, w1) ∧
     net w1 = net w ∧
     fst <$> started = titles ∧
     Forall (λ p, ∃ k, snd p = Running 0 0 AuthGetUser k) started) ∧
  (∀ sched tasks rej w' rows l n',
     bulk_create sched titles w = (tasks, rej, w') →
     Promise_all (snd <$> tasks) rej = Some (Ok rows) →
     exec fetchTodos (net w') = (Ok l, n') →
     title <$> rows = titles ∧
     (∀ t, t ∈ titles →
        length (filter (λ row, title row = t) l)
        = S (length (filter (λ row, title row = t) (pg_select false (net w)))) ∧
        ((∀ row, row ∈ todos (net w) → owns (auth_uid (net w)) row → title row ≠ t) →
         length (filter (λ row, title row = t) l) = 1)) ∧
     StronglySorted (λ a b, (created_at b <= created_at a)%Z) l) ∧
  (∀ sched user,
     session (net w) = Some user →
     faults (net w) = [] →
     (∀ i, i < length titles → 2 ≤ count_occ Nat.eq_dec sched i) →
     ∃ tasks w' rows l n',
       bulk_create sched titles w = (tasks, None, w') ∧
       Promise_all (snd <$> tasks) None = Some (Ok rows) ∧
       exec fetchTodos (net w') = (Ok l, n')) ∧
  (titlesToAdd (view w) = titles →
   ∀ sched,
     net (handleAddSelectedSuggestions sched w) = net (snd (bulk_create sched titles w)) ∧
     (∀ rows l n',
        Promise_all (snd <$> fst (fst (bulk_create sched titles w)))
                    (snd (fst (bulk_create sched titles w))) = Some (Ok rows) →
        exec fetchTodos (net (handleAddSelectedSuggestions sched w)) = (Ok l, n') →
        (∀ t, t ∈ titles →
           length (filter (λ row, title row = t) l)
           = S (length (filter (λ row, title row = t) (pg_select false (net w)))) ∧
           ((∀ row, row ∈ todos (net w) → owns (auth_uid (net w)) row → title row ≠ t) →
            length (filter (λ row, title row = t) l) = 1)) ∧
        ((∀ row, row ∈ todos (net w) → owns (auth_uid (net w)) row → title row ∉ titles) →
         listed_exactly_once titles l) ∧
        StronglySorted (λ a b, (created_at b <= created_at a)%Z) l) ∧
     (∀ user,
        session (net w) = Some user →
        faults (net w) = [] →
        (∀ i, i < length titles → 2 ≤ count_occ Nat.eq_dec sched i) →
        ∃ l n',
          exec fetchTodos (net (handleAddSelectedSuggestions sched w)) = (Ok l, n') ∧
          title <$> l ≡ₚ titles ++ (title <$> pg_select false (net w)) ∧
          (titles ≠ [] → aiSuggestions (view (handleAddSelectedSuggestions sched w)) = []))).
Proof.
  intros Hnd.
  assert (Hread : ∀ sched tasks rej w' rows l n',
     bulk_create sched titles w = (tasks, rej, w') →
     Promise_all (snd <$> tasks) rej = Some (Ok rows) →
     exec fetchTodos (net w') = (Ok l, n') →
     title <$> rows = titles ∧
     (∀ t, t ∈ titles →
        length (filter (λ row, title row = t) l)
        = S (length (filter (λ row, title row = t) (pg_select false (net w)))) ∧
        ((∀ row, row ∈ todos (net w) → owns (auth_uid (net w)) row → title row ≠ t) →
         length (filter (λ row, title row = t) l) = 1)) ∧
     StronglySorted (λ a b, (created_at b <= created_at a)%Z) l).
  { intros sched tasks rej w' rows l n' Hbulk Hall Hread.
    destruct (bulk_create_read sched titles w w' tasks rej rows l n'
                Hnd Hbulk Hall Hread) as (Hrows & Hcount & Hsorted).
    split; [exact Hrows|]. split; [|exact Hsorted].
    intros t Ht. split; [now apply Hcount|]. intros Hnew.
    rewrite (Hcount t Ht). f_equal. rewrite filter_none; [reflexivity|].
    intros row [Hrow Hown]%elem_of_pg_select Htitle.
    apply (Hnew row Hrow); [|exact Htitle].
    unfold owns. now rewrite bool_decide_eq_true_2. }
  assert (Hlive : ∀ sched user,
     session (net w) = Some user →
     faults (net w) = [] →
     (∀ i, i < length titles → 2 ≤ count_occ Nat.eq_dec sched i) →
     ∃ tasks w' rows l n',
       bulk_create sched titles w = (tasks, None, w') ∧
       Promise_all (snd <$> tasks) None = Some (Ok rows) ∧
       exec fetchTodos (net w') = (Ok l, n')).
  { intros sched user Hs Hf Hfair.
    destruct (begin_all_spec titles None w)
      as (started & w1 & Hbegin & Hnet & Hfst & Hph & Hrun & _).
    assert (Hst : steady user started w1).
    { split; [now rewrite Hnet|]. split; [now rewrite Hnet|].
      apply Forall_forall. intros p Hp. split.
      - apply (proj1 (Forall_forall _ _) Hph p Hp).
      - destruct (proj1 (Forall_forall _ _) Hrun p Hp) as [k ->]. exact I. }
    destruct (deliver_steady user sched started w1 Hst)
      as (tasks & w' & rows & Hdel & Hrows & Hf').
    { intros i p Hi.
      assert (Hlt : i < length titles).
      { rewrite <- Hfst, length_fmap. eapply lookup_lt_Some, Hi. }
      destruct (proj1 (Forall_lookup _ _) Hrun i p Hi) as [k ->]. cbn. auto. }
    exists tasks, w', rows, (pg_select false (net w')),
      (answered (SelectTodos false) (net w')).
    split; [unfold bulk_create; now rewrite Hbegin|].
    split; [unfold Promise_all; now rewrite Hrows|].
    now rewrite exec_fetchTodos, (next_fault_nil _ Hf'). }
  split; [|split; [exact Hread|split; [exact Hlive|]]].
  - destruct (begin_all_spec titles None w)
      as (started & w1 & Hbegin & Hnet & Hfst & _ & Hrun & _).
    exists started, w1. auto.
  - intros Htitles sched.
    assert (Hnet : net (handleAddSelectedSuggestions sched w)
                   = net (snd (bulk_create sched titles w)))
      by (rewrite <- Htitles; apply handleAddSelectedSuggestions_bulk).
    split; [exact Hnet|]. rewrite Hnet.
    destruct (bulk_create sched titles w) as [[tasks rej] w'] eqn:Hbulk. cbn [fst snd].
    split.
    + intros rows l n' Hall Hl.
      destruct (Hread _ _ _ _ _ _ _ Hbulk Hall Hl) as (_ & Hcount & Hsorted).
      split; [exact Hcount|]. split; [|exact Hsorted].
      intros Hnew t Ht. apply (Hcount t Ht). intros row Hrow Hown Heq.
      apply (Hnew row Hrow Hown). now rewrite Heq.
    + intros user Hs Hf Hfair.
      destruct (Hlive sched user Hs Hf Hfair) as (tasks' & w'' & rows & l & n' & Hb & Hall & Hl).
      rewrite Hbulk in Hb. injection Hb as <- -> <-.
      exists l, n'. split; [exact Hl|]. split.
      * destruct (begin_all_spec titles None w)
          as (started & w1 & Hbegin & Hnet1 & Hfst & Hph & Hrun & Hnone).
        unfold bulk_create in Hbulk. rewrite Hbegin in Hbulk.
        assert (Hinv : in_flight (session (net w)) (todos (net w)) started w1).
        { split; [now rewrite Hnet1|]. split.
          - eapply Forall_impl; [exact Hph|]. intros p Hp. apply Hp.
          - now rewrite Hnone, app_nil_r, Hnet1. }
        destruct (deliver_in_flight _ _ sched _ None _ Hinv)
          as (tasks2 & rej2 & w2 & Hdel & Hfst' & (Hs2 & Hph' & Hrows)).
        rewrite Hdel in Hbulk. injection Hbulk as -> -> ->.
        unfold Promise_all in Hall.
        destruct (mapM fulfilled (snd <$> tasks)) as [rows'|] eqn:Hm; [|discriminate].
        injection Hall as ->.
        destruct (joined_rows _ _ _ Hph' Hm) as (Ho & Ht & Hu).
        rewrite Ho in Hrows. rewrite Hfst', Hfst in Ht.
        rewrite exec_fetchTodos in Hl.
        destruct (fst (next_fault (net w'))); [discriminate|]. injection Hl as <- _.
        rewrite !pg_select_perm, Hrows, filter_app, fmap_app.
        unfold auth_uid. rewrite Hs2.
        rewrite (filter_all _ rows).
        -- rewrite Ht. apply Permutation_app_comm.
        -- eapply Forall_impl; [exact Hu|]. intros row Hrow. cbn in Hrow.
           unfold owns. now rewrite bool_decide_eq_true_2.
      * intros Hne. unfold handleAddSelectedSuggestions. rewrite Htitles.
        destruct titles as [|t ts]; [congruence|]. cbn [length Nat.eqb].
        rewrite Hbulk, Hall. reflexivity.
Qed.

(** ** The AI gateway *)

Lemma indexOf_spec (s : jsstring) (c : N) :
  (indexOf s c = (-1)%Z ∧ (c ∉ s)) ∨
  (∃ p r, s = p ++ c :: r ∧ (c ∉ p) ∧ indexOf s c = Z.of_nat (length p)).
Proof.
  induction s as [|x s IH]; cbn.
  - left. split; [reflexivity|]. apply not_elem_of_nil.
  - destruct (N.eqb_spec x c) as [->|Hne].
    + right. exists [], s. repeat split. apply not_elem_of_nil.
    + destruct IH as [[-> Hnot]|(p & r & -> & Hnot & ->)].
      * left. split; [reflexivity|]. rewrite not_elem_of_cons. auto.
      * right. exists (x :: p), r. rewrite not_elem_of_cons.
        destruct (Z.eqb_spec (Z.of_nat (length p)) (-1)); cbn [length]; [lia|].
        repeat split; auto. lia.
Qed.

Lemma lastIndexOf_spec (s : jsstring) (c : N) :
  (lastIndexOf s c = (-1)%Z ∧ (c ∉ s)) ∨
  (∃ p r, s = p ++ c :: r ∧ (c ∉ r) ∧ lastIndexOf s c = Z.of_nat (length p)).
Proof.
  induction s as [|x s IH]; cbn.
  - left. split; [reflexivity|]. apply not_elem_of_nil.
  - destruct IH as [[-> Hnot]|(p & r & -> & Hnot & ->)]; cbn.
    + destruct (N.eqb_spec x c) as [->|Hne].
      * right. exists [], s. repeat split. exact Hnot.
      * left. split; [reflexivity|]. rewrite not_elem_of_cons. auto.
    + right. exists (x :: p), r.
      destruct (Z.eqb_spec (Z.of_nat (length p)) (-1)); cbn [length]; [lia|].
      repeat split; auto. lia.
Qed.

Lemma slice_inner (p m r : jsstring) :
  slice (p ++ m ++ r) (Z.of_nat (length p)) (Z.of_nat (length p + length m)) = m.
Proof.
  unfold slice, clamp_index. rewrite !length_app.
  repeat match goal with |- context [(?a <? 0)%Z] =>
    destruct (Z.ltb_spec a 0); [lia|] end.
  rewrite !Z.min_l by lia.
  replace (Z.to_nat (Z.of_nat (length p))) with (length p) by lia.
  replace (Z.to_nat _) with (length m) by lia.
  rewrite drop_app_length. apply take_app_length.
Qed.

(** The first opening brace is not after the last closing brace once the
    text holds an opening brace before a closing one. *)
Lemma outermost_braces (pre mid post : jsstring) :
  let T := pre ++ 123%N :: mid ++ 125%N :: post in
  ∃ before inside after,
    T = before ++ (123%N :: inside ++ [125%N]) ++ after ∧
    (123%N ∉ before) ∧ (125%N ∉ after) ∧
    indexOf T 123 = Z.of_nat (length before) ∧
    lastIndexOf T 125 = Z.of_nat (length before + length inside + 1) ∧
    (123%N ∉ pre → 125%N ∉ post → before = pre ∧ inside = mid ∧ after = post).
Proof.
  intros T.
  assert (Hopen : T !! length pre = Some 123%N).
  { unfold T. now apply list_lookup_middle. }
  assert (Hclose : T !! (length pre + S (length mid)) = Some 125%N).
  { unfold T. rewrite app_comm_cons, app_assoc. apply list_lookup_middle.
    rewrite length_app. reflexivity. }
  destruct (indexOf_spec T 123) as [[_ Hnot]|(p1 & r1 & H1 & Hn1 & Hi1)].
  { exfalso. apply Hnot. eapply list_elem_of_lookup_2, Hopen. }
  destruct (lastIndexOf_spec T 125) as [[_ Hnot]|(p2 & r2 & H2 & Hn2 & Hi2)].
  { exfalso. apply Hnot. eapply list_elem_of_lookup_2, Hclose. }
  assert (Hle1 : length p1 <= length pre).
  { destruct (Nat.le_gt_cases (length p1) (length pre)) as [|Hgt]; [assumption|].
    exfalso. apply Hn1. rewrite H1, lookup_app_l in Hopen by lia.
    eapply list_elem_of_lookup_2, Hopen. }
  assert (Hle2 : length pre + S (length mid) <= length p2).
  { destruct (Nat.le_gt_cases (length pre + S (length mid)) (length p2)) as [|Hgt];
      [assumption|].
    exfalso. apply Hn2. rewrite H2 in Hclose.
    rewrite lookup_app_r in Hclose by lia.
    destruct (length pre + S (length mid) - length p2) as [|k] eqn:Hk; [lia|].
    rewrite lookup_cons in Hclose. eapply list_elem_of_lookup_2, Hclose. }
  (* the text between the two braces *)
  assert (Hp2 : p2 = p1 ++ 123%N :: take (length p2 - length p1 - 1) r1).
  { assert (Ht : take (length p2) T = p2) by (rewrite H2; apply take_app_length).
    rewrite H1 in Ht. rewrite take_app in Ht.
    rewrite take_ge in Ht by lia.
    destruct (length p2 - length p1) as [|k] eqn:Hk; [lia|]. cbn in Ht.
    rewrite <- Ht. do 3 f_equal. lia. }
  set (inside := take (length p2 - length p1 - 1) r1) in *.
  exists p1, inside, r2.
  assert (HT : T = p1 ++ (123%N :: inside ++ [125%N]) ++ r2).
  { rewrite H2, Hp2, <- !app_assoc. cbn. now rewrite <- !app_assoc. }
  split; [exact HT|]. split; [exact Hn1|]. split; [exact Hn2|]. split; [exact Hi1|].
  split.
  { rewrite Hi2, Hp2, length_app. cbn [length]. lia. }
  intros Hpre Hpost.
  assert (length p1 = length pre).
  { destruct (Nat.eq_dec (length p1) (length pre)) as [|Hne]; [assumption|].
    exfalso. apply Hpre.
    assert (Hl : T !! length p1 = Some 123%N)
      by (rewrite H1; now apply list_lookup_middle).
    unfold T in Hl. rewrite lookup_app_l in Hl by lia.
    eapply list_elem_of_lookup_2, Hl. }
  assert (length p2 = length pre + S (length mid)).
  { destruct (Nat.eq_dec (length p2) (length pre + S (length mid))) as [|Hne];
      [assumption|].
    exfalso. apply Hpost.
    assert (Hl : T !! length p2 = Some 125%N)
      by (rewrite H2; now apply list_lookup_middle).
    unfold T in Hl. rewrite lookup_app_r in Hl by lia.
    destruct (length p2 - length pre) as [|k] eqn:Hk; [lia|].
    rewrite lookup_cons, lookup_app_r in Hl by lia.
    destruct (k - length mid) as [|j] eqn:Hj; [lia|].
    rewrite lookup_cons in Hl. eapply list_elem_of_lookup_2, Hl. }
  assert (Hpre' : p1 = pre).
  { apply (f_equal (take (length pre))) in HT. unfold T in HT.
    rewrite take_app_length in HT. rewrite HT.
    replace (length pre) with (length p1) by lia. now rewrite take_app_length. }
  subst p1. unfold T in HT. apply app_inv_head in HT. cbn in HT.
  injection HT as HT.
  assert (length inside = length mid).
  { apply (f_equal length) in Hp2. rewrite length_app in Hp2. cbn in Hp2. lia. }
  assert (Hmid : inside = mid).
  { apply (f_equal (take (length mid))) in HT. rewrite take_app_length in HT.
    rewrite HT. rewrite <- app_assoc.
    replace (length mid) with (length inside) by lia. now rewrite take_app_length. }
  rewrite Hmid in HT. rewrite <- app_assoc in HT. apply app_inv_head in HT.
  cbn in HT. injection HT as ->. auto.
Qed.

Lemma indexOf_head (c : N) (s : jsstring) : indexOf (c :: s) c = 0%Z.
Proof. cbn. now rewrite N.eqb_refl. Qed.

Lemma lastIndexOf_last (s : jsstring) (c : N) :
  lastIndexOf (s ++ [c]) c = Z.of_nat (length s).
Proof.
  induction s as [|x s IH]; cbn [app lastIndexOf length].
  - now rewrite N.eqb_refl.
  - rewrite IH. destruct (Z.eqb_spec (Z.of_nat (length s)) (-1)); lia.
Qed.

Lemma slice_whole (s : jsstring) : slice s 0 (Z.of_nat (length s)) = s.
Proof.
  pose proof (slice_inner [] s []) as H. cbn [app length Nat.add] in H.
  now rewrite app_nil_r in H.
Qed.

Section recovery.
Variable JSON_parse : jsstring → option JSValue.

Lemma parse_completion_direct content parsed :
  JSON_parse content = Some parsed →
  parse_completion JSON_parse content = suggestions_or_empty parsed.
Proof. unfold parse_completion. now intros ->. Qed.

(** A text that is one pair of braces and what they enclose. *)
Lemma parse_completion_bare inside :
  parse_completion JSON_parse (123%N :: inside ++ [125%N]) =
    match JSON_parse (123%N :: inside ++ [125%N]) with
    | Some parsed => suggestions_or_empty parsed
    | None => Throw ParseError
    end.
Proof.
  unfold parse_completion.
  destruct (JSON_parse (123%N :: inside ++ [125%N])) eqn:Hbare; [reflexivity|].
  rewrite indexOf_head, app_comm_cons, lastIndexOf_last.
  replace (Z.of_nat (length (123%N :: inside)) + 1)%Z
    with (Z.of_nat (length ((123%N :: inside) ++ [125%N])))
    by (rewrite length_app; cbn; lia).
  rewrite slice_whole. cbn [app] in *. rewrite Hbare.
  destruct (Z.eqb_spec (Z.of_nat (length (123%N :: inside))) (-1)); [lia|].
  reflexivity.
Qed.

(** The gateway on a reply that carries a completion text. *)
Lemma generate_on_completion env prompt existingTitles n response later body c content :
  openAiApiKey env ≠ [] →
  ai_replies n = Responded response :: later →
  ok response = true →
  json response = Some body →
  first_content body = Some (c :: content) →
  fst (exec (generateTodosFromPrompt JSON_parse env prompt existingTitles) n)
    = parse_completion JSON_parse (c :: content).
Proof.
  intros Hkey Hreply Hok Hjson Hcontent.
  unfold generateTodosFromPrompt.
  destruct (openAiApiKey env) as [|k key]; [congruence|]. cbn [truthy negb].
  cbn [exec serve fst snd]. unfold next_reply. rewrite Hreply. cbn [fst snd].
  now rewrite Hok, Hjson, Hcontent.
Qed.

Lemma suggestions_present fields v :
  field (js "suggestions") fields = Some v → v ≠ JNull →
  suggestions_or_empty (JObject fields) = Ok v.
Proof. intros Hf Hv. unfold suggestions_or_empty. rewrite Hf. now destruct v. Qed.

(** C4. The endpoint answers with a completion text [T] that holds an
    opening brace before a closing one and that [JSON.parse] rejects. The
    gateway then parses the substring from the first opening brace to the
    last closing brace and returns what it returns when that substring is
    sent alone; when the substring does not parse either it fails with
    [ParseError]. When the prose around a brace-delimited object holds no
    brace of its own the substring is that object, and for an object with
    [suggestions] the gateway returns them, as it does for the bare
    object. *)
Theorem recovery_parses_outermost_braces
    (pre mid post : jsstring)
    (env : Env) (prompt : jsstring) (existingTitles : list jsstring) (n : Net)
    (response : HttpResponse) (later : list HttpOutcome) (body : Completion) :
  let T := pre ++ 123%N :: mid ++ 125%N :: post in
  let sub := slice T (indexOf T 123) (lastIndexOf T 125 + 1) in
  JSON_parse T = None →
  openAiApiKey env ≠ [] →
  ai_replies n = Responded response :: later →
  ok response = true →
  json response = Some body →
  first_content body = Some T →
  (∃ before inside after,
     T = before ++ sub ++ after ∧ sub = 123%N :: inside ++ [125%N] ∧
     (123%N ∉ before) ∧ (125%N ∉ after)) ∧
  fst (exec (generateTodosFromPrompt JSON_parse env prompt existingTitles) n)
    = match JSON_parse sub with
      | Some parsed => suggestions_or_empty parsed
      | None => Throw ParseError
      end ∧
  fst (exec (generateTodosFromPrompt JSON_parse env prompt existingTitles) n)
    = fst (exec (generateTodosFromPrompt JSON_parse env prompt existingTitles)
             (with_reply (completion_of sub) n)) ∧
  (JSON_parse sub = None →
   fst (exec (generateTodosFromPrompt JSON_parse env prompt existingTitles) n)
     = Throw ParseError) ∧
  ((123%N ∉ pre) → (125%N ∉ post) →
   sub = 123%N :: mid ++ [125%N] ∧
   ∀ fields v,
     JSON_parse (123%N :: mid ++ [125%N]) = Some (JObject fields) →
     field (js "suggestions") fields = Some v → v ≠ JNull →
     fst (exec (generateTodosFromPrompt JSON_parse env prompt existingTitles) n) = Ok v ∧
     fst (exec (generateTodosFromPrompt JSON_parse env prompt existingTitles)
            (with_reply (completion_of (123%N :: mid ++ [125%N])) n)) = Ok v) ∧
  parse_completion JSON_parse T = parse_completion JSON_parse sub ∧
  (∀ env' prompt' existingTitles' n',
     openAiApiKey env' ≠ [] →
     fst (exec (generateTodosFromPrompt JSON_parse env' prompt' existingTitles')
            (with_reply (completion_of T) n'))
     = fst (exec (generateTodosFromPrompt JSON_parse env' prompt' existingTitles')
              (with_reply (completion_of sub) n'))) ∧
  (∀ parsed, JSON_parse sub = Some parsed →
     parse_completion JSON_parse T = suggestions_or_empty parsed) ∧
  (JSON_parse sub = None → parse_completion JSON_parse T = Throw ParseError).
Proof.
  intros T sub Hdirect Hkey Hreply Hok Hjson Hcontent.
  destruct (outermost_braces pre mid post)
    as (before & inside & after & HT & Hb & Ha & Hi & Hl & Hexact).
  fold T in HT, Hi, Hl.
  assert (Hsub : sub = 123%N :: inside ++ [125%N]).
  { unfold sub. rewrite Hi, Hl, HT.
    replace (Z.of_nat (length before + length inside + 1) + 1)%Z
      with (Z.of_nat (length before + length (123%N :: inside ++ [125%N])))
      by (cbn [length]; rewrite length_app; cbn; lia).
    apply slice_inner. }
  assert (Hrec : parse_completion JSON_parse T =
                 match JSON_parse sub with
                 | Some parsed => suggestions_or_empty parsed
                 | None => Throw ParseError
                 end).
  { unfold parse_completion at 1. rewrite Hdirect. fold sub.
    rewrite Hi, Hl.
    destruct (Z.eqb_spec (Z.of_nat (length before)) (-1)); [lia|].
    destruct (Z.eqb_spec (Z.of_nat (length before + length inside + 1)) (-1)); [lia|].
    cbn [negb andb]. destruct (JSON_parse sub); reflexivity. }
  assert (Hbare : parse_completion JSON_parse sub =
                  match JSON_parse sub with
                  | Some parsed => suggestions_or_empty parsed
                  | None => Throw ParseError
                  end)
    by (rewrite Hsub; apply parse_completion_bare).
  assert (HTne : ∃ c rest, T = c :: rest).
  { unfold T. destruct pre; cbn; eauto. }
  destruct HTne as (c & rest & HTc).
  assert (Hgate : fst (exec (generateTodosFromPrompt JSON_parse env prompt existingTitles) n)
                  = parse_completion JSON_parse T).
  { rewrite HTc. apply (generate_on_completion _ _ _ _ _ later body c rest Hkey Hreply Hok Hjson).
    now rewrite <- HTc. }
  assert (Hgate_sub : ∀ env' prompt' existingTitles' n' text,
            openAiApiKey env' ≠ [] → text ≠ [] →
            fst (exec (generateTodosFromPrompt JSON_parse env' prompt' existingTitles')
                   (with_reply (completion_of text) n'))
            = parse_completion JSON_parse text).
  { intros env' prompt' existingTitles' n' [|c' text] Hkey' Hne; [congruence|].
    now erewrite (generate_on_completion _ _ _ _ _ _ _ c' text Hkey');
      [|reflexivity|reflexivity|reflexivity|reflexivity]. }
  assert (Hsubne : sub ≠ []) by (rewrite Hsub; discriminate).
  split; [exists before, inside, after; repeat split; auto; rewrite Hsub; exact HT|].
  split; [now rewrite Hgate|].
  split; [rewrite Hgate, Hgate_sub by assumption; now rewrite Hrec, Hbare|].
  split; [intros Hp; now rewrite Hgate, Hrec, Hp|].
  split.
  { intros Hpre Hpost. destruct (Hexact Hpre Hpost) as (_ & Hin & _).
    assert (Hmid : sub = 123%N :: mid ++ [125%N]) by (rewrite Hsub, Hin; reflexivity).
    split; [exact Hmid|]. intros fields v Hp Hf Hv. rewrite <- Hmid in Hp |- *.
    rewrite Hgate, Hgate_sub by assumption.
    rewrite Hrec, Hbare, Hp. split; now apply suggestions_present. }
  split; [now rewrite Hrec, Hbare|].
  split.
  { intros env' prompt' existingTitles' n' Hkey'.
    rewrite !Hgate_sub by (assumption || (rewrite HTc; discriminate)).
    now rewrite Hrec, Hbare. }
  split; [intros parsed Hp; now rewrite Hrec, Hp|].
  intros Hp; now rewrite Hrec, Hp.
Qed.

(** C10. When the endpoint answers with success and the completion text
    parses as an object with no [suggestions] field, or with [null] there,
    the gateway returns the empty list, not an error. *)
Theorem missing_suggestions_is_empty_list
    (env : Env) (prompt : jsstring) (existingTitles : list jsstring) (n : Net)
    (response : HttpResponse) (later : list HttpOutcome) (body : Completion)
    (content : jsstring) (fields : list (jsstring * JSValue)) :
  openAiApiKey env ≠ [] →
  ai_replies n = Responded response :: later →
  ok response = true →
  json response = Some body →
  first_content body = Some content →
  content ≠ [] →
  JSON_parse content = Some (JObject fields) →
  field (js "suggestions") fields = None ∨
  field (js "suggestions") fields = Some JNull →
  fst (exec (generateTodosFromPrompt JSON_parse env prompt existingTitles) n)
    = Ok (JArray []).
Proof.
  intros Hkey Hreply Hok Hjson Hcontent Hne Hparse Hfield.
  destruct content as [|c content]; [congruence|].
  rewrite (generate_on_completion _ _ _ _ _ _ _ _ _ Hkey Hreply Hok Hjson Hcontent).
  rewrite (parse_completion_direct _ _ Hparse). cbn [suggestions_or_empty].
  destruct Hfield as [-> | ->]; reflexivity.
Qed.

(** C3. With no API key configured the gateway fails with
    [NotConfiguredError] for every prompt and every list of titles, and
    awaits nothing: no call is made. *)
Theorem unconfigured_gateway_makes_no_call
    (env : Env) (prompt : jsstring) (existingTitles : list jsstring) (n : Net) :
  openAiApiKey env = [] →
  generateTodosFromPrompt JSON_parse env prompt existingTitles
    = Ret (Throw NotConfiguredError) ∧
  exec (generateTodosFromPrompt JSON_parse env prompt existingTitles) n
    = (Throw NotConfiguredError, n) ∧
  calls (snd (exec (generateTodosFromPrompt JSON_parse env prompt existingTitles) n))
    = calls n.
Proof.
  intros Hkey. unfold generateTodosFromPrompt. rewrite Hkey. cbn. auto.
Qed.
End recovery.

Lemma openAiApiKey_unset base : openAiApiKey (mkEnv None base) = [].
Proof. reflexivity. Qed.

Lemma openAiApiKey_blank key base : whitespace_only key → openAiApiKey (mkEnv (Some key) base) = [].
Proof. unfold whitespace_only, openAiApiKey. cbn. now intros ->. Qed.

(** * More of the application

    The data access layer on the table, the handlers on the view, the list
    as shown, the gateway's configuration, the routes and the client. *)

Lemma serve_delete i n :
  serve (DeleteTodo i) n =
    match fst (next_fault n) with
    | Some e => (PgFailure e, answered (DeleteTodo i) n)
    | None => (PgSuccess (), after (DeleteTodo i) (pg_delete i n) (clock n + 1)%Z n)
    end.
Proof. reflexivity. Qed.

Lemma elem_of_pg_delete i n t :
  t ∈ pg_delete i n ↔ t ∈ todos n ∧ ¬ (id t = i ∧ auth_uid n = Some (user_id t)).
Proof.
  unfold pg_delete. rewrite list_elem_of_filter.
  rewrite negb_True, andb_True, bool_decide_spec. unfold owns.
  rewrite bool_decide_spec. tauto.
Qed.

Lemma pg_delete_again i n time rq :
  pg_delete i (after rq (pg_delete i n) time n) = pg_delete i n.
Proof.
  unfold pg_delete at 1. cbn [todos after]. 
  change (auth_uid (after rq (pg_delete i n) time n)) with (auth_uid n).
  apply filter_all, Forall_forall. intros t Ht.
  unfold pg_delete in Ht. now apply list_elem_of_filter in Ht as [Ht _].
Qed.

(** X1. [deleteTodo] issues one delete. When the call errors it fails with
    the error of the service and the table is as it was. Otherwise it
    succeeds, and the table has lost the caller's row of that id and nothing
    else: the other rows are kept, in their order; with no such row the call
    succeeds all the same and the table is unchanged; and deleting the same
    id once more changes nothing. *)
Theorem deleteTodo_removes_own_row_only (i : N) (n : Net) :
  let '(r, n') := exec (deleteTodo i) n in
  calls n' = calls n ++ [DeleteTodo i] ∧
  match fst (next_fault n) with
  | Some e => r = Throw (RemoteError e) ∧ todos n' = todos n
  | None =>
      r = Ok () ∧
      (∀ t, t ∈ todos n' ↔
            t ∈ todos n ∧ ¬ (id t = i ∧ auth_uid n = Some (user_id t))) ∧
      todos n' `sublist_of` todos n ∧
      ((∀ t, t ∈ todos n → auth_uid n = Some (user_id t) → id t ≠ i) →
       todos n' = todos n) ∧
      todos (snd (exec (deleteTodo i) n')) = todos n'
  end.
Proof.
  rewrite exec_deleteTodo, serve_delete.
  destruct (fst (next_fault n)) as [e|]; cbn [fst snd].
  - split; [reflexivity|]. split; reflexivity.
  - split; [reflexivity|]. split; [reflexivity|].
    cbn [todos after]. split; [intros t; apply elem_of_pg_delete|].
    split; [apply sublist_filter|]. split.
    + intros Hnone. apply filter_all, Forall_forall. intros t Ht.
      rewrite negb_True, andb_True, bool_decide_spec. unfold owns.
      rewrite bool_decide_spec. intros [Hid Hown]. exact (Hnone t Ht Hown Hid).
    + rewrite exec_deleteTodo, serve_delete.
      destruct (fst (next_fault _)); cbn [fst snd todos after answered]; [reflexivity|].
      apply pg_delete_again.
Qed.

Lemma pg_update_failure u i n e :
  fst (pg_update u i n) = PgFailure e → snd (pg_update u i n) = todos n.
Proof.
  unfold pg_update. destruct (targets i n) as [|old [|]]; try reflexivity.
  repeat case_match; cbn; (reflexivity || discriminate).
Qed.

Lemma createTodo_failed title n e :
  fst (exec (createTodo title) n) = Throw e →
  todos (snd (exec (createTodo title) n)) = todos n.
Proof.
  rewrite exec_createTodo, serve_getUser. cbn [fst snd].
  destruct (fst (next_fault n)) as [e1|]; [reflexivity|].
  destruct (session n) as [user|] eqn:Hs; [|reflexivity].
  rewrite serve_insert.
  destruct (fst (next_fault (answered AuthGetUser n))) as [e2|]; [reflexivity|].
  cbn [fst snd todos after]. change (todos (answered AuthGetUser n)) with (todos n).
  unfold pg_insert. destruct (owns _ _); cbn [fst snd]; [discriminate|reflexivity].
Qed.

Lemma updateTodo_failed i u n e :
  fst (exec (updateTodo i u) n) = Throw e →
  todos (snd (exec (updateTodo i u) n)) = todos n.
Proof.
  rewrite exec_updateTodo, serve_update.
  destruct (fst (next_fault n)) as [e1|]; [reflexivity|]. cbn [fst snd todos after].
  destruct (fst (pg_update u i n)) as [d|e2] eqn:Hu; [discriminate|].
  intros _. eapply pg_update_failure, Hu.
Qed.

Lemma deleteTodo_failed i n e :
  fst (exec (deleteTodo i) n) = Throw e →
  todos (snd (exec (deleteTodo i) n)) = todos n.
Proof.
  rewrite exec_deleteTodo, serve_delete.
  destruct (fst (next_fault n)) as [e1|]; [reflexivity|discriminate].
Qed.

(** X2. A write that fails has written nothing: whenever [createTodo],
    [updateTodo] or [deleteTodo] throws, for whatever reason, the table is
    the one it was before the call. *)
Theorem failed_write_changes_no_row (n : Net) :
  (∀ title e, fst (exec (createTodo title) n) = Throw e →
              todos (snd (exec (createTodo title) n)) = todos n) ∧
  (∀ i updates e, fst (exec (updateTodo i updates) n) = Throw e →
                  todos (snd (exec (updateTodo i updates) n)) = todos n) ∧
  (∀ i e, fst (exec (deleteTodo i) n) = Throw e →
          todos (snd (exec (deleteTodo i) n)) = todos n).
Proof.
  split; [|split].
  - intros t e. apply createTodo_failed.
  - intros i u e. apply updateTodo_failed.
  - intros i e. apply deleteTodo_failed.
Qed.

(** X3. An update of a row that is not there, or not the caller's, fails:
    [updateTodo] asks for a single row back, so it throws the error of the
    service ([PGRST116]) and the table is unchanged, where [deleteTodo] of
    the same id succeeds without a word. *)
Theorem updateTodo_of_missing_row_fails (i : N) (updates : PartialTodo) (n : Net) :
  fst (next_fault n) = None →
  (∀ t, t ∈ todos n → id t = i → auth_uid n ≠ Some (user_id t)) →
  fst (exec (updateTodo i updates) n) = Throw (RemoteError not_single) ∧
  todos (snd (exec (updateTodo i updates) n)) = todos n ∧
  fst (exec (deleteTodo i) n) = Ok () ∧
  todos (snd (exec (deleteTodo i) n)) = todos n.
Proof.
  intros Hf Hnone.
  assert (Ht : targets i n = []).
  { apply filter_none. intros t Ht.
    rewrite andb_True, bool_decide_spec. unfold owns. rewrite bool_decide_spec.
    intros [Hid Hown]. exact (Hnone t Ht Hid Hown). }
  rewrite exec_updateTodo, serve_update, exec_deleteTodo, serve_delete, Hf.
  cbn [fst snd todos after]. unfold pg_update. rewrite Ht. cbn [fst snd].
  repeat split. apply filter_all, Forall_forall. intros t Hin.
  rewrite negb_True, andb_True, bool_decide_spec. unfold owns. rewrite bool_decide_spec.
  intros [Hid Hown]. exact (Hnone t Hin Hid Hown).
Qed.


(** ** Rows of other users *)

Lemma filter_singleton_split {A} (P : A → Prop) `{∀ x, Decision (P x)} (l : list A) x :
  filter P l = [x] →
  ∃ l1 l2, l = l1 ++ x :: l2 ∧ P x ∧
           Forall (λ y, ¬ P y) l1 ∧ Forall (λ y, ¬ P y) l2.
Proof.
  induction l as [|a l IH]; [discriminate|]. rewrite filter_cons.
  destruct (decide (P a)) as [Ha|Ha].
  - intros [= -> Hl]. exists [], l. repeat split; auto.
    apply Forall_forall. intros y Hy HPy.
    exact (filter_nil_not_elem_of _ _ _ Hl HPy Hy).
  - intros (l1 & l2 & -> & Hx & H1 & H2)%IH. exists (a :: l1), l2. repeat split; auto.
Qed.

Lemma fmap_unless {A} (P : A → bool) (f : A → A) (l : list A) :
  Forall (λ y, ¬ P y) l → (λ y, if P y then f y else y) <$> l = l.
Proof.
  induction 1 as [|a l Ha _ IH]; [reflexivity|]. cbn. rewrite IH.
  destruct (P a); [destruct Ha; exact I|reflexivity].
Qed.

Lemma pg_update_checks u i n t :
  fst (pg_update u i n) = PgSuccess t →
  auth_uid n = Some (user_id t) ∧ NoDup (id <$> snd (pg_update u i n)).
Proof.
  unfold pg_update. destruct (targets i n) as [|old [|]]; try discriminate.
  destruct (owns (auth_uid n) (apply_updates u old)) eqn:Hown; cbn [negb]; [|discriminate].
  destruct (bool_decide (NoDup _)) eqn:Hnd; cbn [negb fst snd]; [|discriminate].
  intros [= <-]. split.
  - unfold owns in Hown. now apply bool_decide_eq_true in Hown.
  - now apply bool_decide_eq_true in Hnd.
Qed.

(** A successful update, row by row. *)
Lemma pg_update_rows u i n t :
  fst (pg_update u i n) = PgSuccess t →
  ∃ before old after,
    todos n = before ++ old :: after ∧
    snd (pg_update u i n) = before ++ t :: after ∧
    t = apply_updates u old ∧
    id old = i ∧ auth_uid n = Some (user_id old) ∧ auth_uid n = Some (user_id t) ∧
    Forall (λ y, ¬ (bool_decide (id y = i) && owns (auth_uid n) y)) before ∧
    Forall (λ y, ¬ (bool_decide (id y = i) && owns (auth_uid n) y)) after ∧
    NoDup (id <$> before ++ t :: after).
Proof.
  intros Hu. destruct (pg_update_checks _ _ _ _ Hu) as [Hown' Hnd].
  apply pg_update_success in Hu as (old & Ht & Heq & Hrows).
  unfold targets in Ht.
  apply filter_singleton_split in Ht as (l1 & l2 & Hl & Hold & H1 & H2).
  exists l1, old, l2.
  apply andb_True in Hold as Hold'. destruct Hold' as [Hid Hown].
  apply bool_decide_spec in Hid. unfold owns in Hown. apply bool_decide_spec in Hown.
  assert (Hrows' : snd (pg_update u i n) = l1 ++ t :: l2).
  { rewrite Hrows, Hl, fmap_app, fmap_cons.
    rewrite (fmap_unless (λ r, bool_decide (id r = i) && owns (auth_uid n) r)) by exact H1.
    rewrite (fmap_unless (λ r, bool_decide (id r = i) && owns (auth_uid n) r)) by exact H2.
    rewrite Heq. now destruct (bool_decide (id old = i) && owns (auth_uid n) old). }
  rewrite Hrows' in Hnd. repeat split; auto.
Qed.

Lemma session_serve rq n : session (snd (serve rq n)) = session n.
Proof. destruct rq; cbn; destruct (fst (next_fault n)); reflexivity. Qed.

Lemma rows_of_others_serve rq n : rows_of_others (snd (serve rq n)) = rows_of_others n.
Proof.
  unfold rows_of_others, auth_uid. rewrite session_serve. fold (auth_uid n).
  destruct rq as [|asc|t u|u i|i|rq]; cbn [serve];
    destruct (fst (next_fault n)) as [e|]; try reflexivity; cbn [snd todos after].
  - unfold pg_insert.
    destruct (owns (auth_uid n) _) eqn:Hown; cbn [snd]; [|reflexivity].
    rewrite filter_app, filter_cons_False, filter_nil, app_nil_r; [reflexivity|].
    rewrite Hown. cbn. tauto.
  - destruct (fst (pg_update u i n)) as [t|e] eqn:Hu.
    + apply pg_update_rows in Hu
        as (l1 & old & l2 & Hl & -> & _ & _ & Hold & Ht & _).
      rewrite Hl, !filter_app. f_equal.
      rewrite !filter_cons_False; [reflexivity| |];
        unfold owns; rewrite bool_decide_eq_true_2 by assumption; cbn; tauto.
    + now rewrite (pg_update_failure _ _ _ _ Hu).
  - unfold pg_delete. rewrite list_filter_filter. apply list_filter_iff.
    intros t. rewrite !negb_True, andb_True. tauto.
Qed.

(** X4. Under the four policies of [supabase-setup.sql] the rows of other
    users are out of reach: whatever calls a client awaits, in whatever
    order and with whatever arguments, the session is the same afterwards
    and the rows that are not the caller's are the same rows, in the same
    order. In particular a client that is signed out changes nothing. *)
Theorem no_call_touches_rows_of_others {A} (p : Prog A) (n : Net) :
  session (snd (exec p n)) = session n ∧
  rows_of_others (snd (exec p n)) = rows_of_others n.
Proof.
  revert n. induction p as [a|rq k IH]; intros n; [split; reflexivity|].
  cbn [exec]. pose proof (session_serve rq n) as Hs.
  pose proof (rows_of_others_serve rq n) as Hr.
  destruct (serve rq n) as [r n1]. cbn [snd] in Hs, Hr.
  destruct (IH r n1) as [Hs' Hr']. split; congruence.
Qed.

(** X5. A successful [updateTodo] changes one row and no other: the table
    after it is the table before it with the caller's row of that id
    replaced, in place, by the row returned; and for [{ title }], the update
    the edit field sends, the row returned is the old one with the new
    title, its [completed], [created_at] and owner untouched. *)
Theorem updateTodo_changes_one_row (i : N) (updates : PartialTodo) (n n' : Net) (t : Todo) :
  exec (updateTodo i updates) n = (Ok t, n') →
  ∃ before old after,
    todos n = before ++ old :: after ∧
    todos n' = before ++ t :: after ∧
    id old = i ∧
    auth_uid n = Some (user_id old) ∧
    t = apply_updates updates old ∧
    (∀ s, updates = only_title s →
          t = mkTodo (id old) s (completed old) (created_at old) (user_id old)).
Proof.
  rewrite exec_updateTodo, serve_update.
  destruct (fst (next_fault n)) as [e|]; cbn [fst snd]; [discriminate|].
  destruct (fst (pg_update updates i n)) as [d|e] eqn:Hu; [|discriminate].
  intros [= -> <-].
  apply pg_update_rows in Hu as (l1 & old & l2 & Hl & Hrows & Heq & Hid & Hown & _).
  exists l1, old, l2. repeat split; auto.
  intros s ->. exact Heq.
Qed.

Lemma targets_split i n l1 x l2 :
  todos n = l1 ++ x :: l2 →
  id x = i → auth_uid n = Some (user_id x) →
  Forall (λ y, ¬ (bool_decide (id y = i) && owns (auth_uid n) y)) l1 →
  Forall (λ y, ¬ (bool_decide (id y = i) && owns (auth_uid n) y)) l2 →
  targets i n = [x].
Proof.
  intros Hl Hid Hown H1 H2. unfold targets. rewrite Hl, filter_app, filter_cons_True.
  - rewrite (filter_none _ l1) by (apply Forall_forall, H1).
    rewrite (filter_none _ l2) by (apply Forall_forall, H2). reflexivity.
  - unfold owns. rewrite !bool_decide_eq_true_2 by assumption. exact I.
Qed.

(** X6. Checking a todo and then setting it back restores the table: after
    a successful [updateTodo(id, { completed: b })] the update with the
    value the row had before succeeds, returns the row as it was, and leaves
    the table as it was before the first update. *)
Theorem toggling_twice_restores_the_table (i : N) (b : bool) (n n1 : Net) (t : Todo) :
  exec (updateTodo i (only_completed b)) n = (Ok t, n1) →
  fst (next_fault n1) = None →
  ∃ old, old ∈ todos n ∧ id old = i ∧
    t = mkTodo (id old) (title old) b (created_at old) (user_id old) ∧
    fst (exec (updateTodo i (only_completed (completed old))) n1) = Ok old ∧
    todos (snd (exec (updateTodo i (only_completed (completed old))) n1)) = todos n.
Proof.
  rewrite exec_updateTodo, serve_update.
  destruct (fst (next_fault n)) as [e|]; cbn [fst snd]; [discriminate|].
  destruct (fst (pg_update (only_completed b) i n)) as [d|e] eqn:Hu; [|discriminate].
  intros [= -> <-] Hf.
  apply pg_update_rows in Hu
    as (l1 & old & l2 & Hl & Hrows & Heq & Hid & Hown & Hown' & H1 & H2 & Hnd).
  exists old. split; [rewrite Hl; apply elem_of_app; right; left|].
  split; [exact Hid|]. split; [exact Heq|].
  set (n1 := after _ _ _ n) in *.
  assert (Hauth : auth_uid n1 = auth_uid n) by reflexivity.
  assert (Htodos : todos n1 = l1 ++ t :: l2) by exact Hrows.
  assert (Hback : apply_updates (only_completed (completed old)) t = old)
    by (rewrite Heq; destruct old; reflexivity).
  assert (Ht : targets i n1 = [t]).
  { apply (targets_split _ _ l1 t l2); rewrite ?Hauth; auto.
    rewrite Heq. exact Hid. }
  assert (Hrows1 : (λ r, if bool_decide (id r = i) && owns (auth_uid n1) r
                         then apply_updates (only_completed (completed old)) r else r)
                     <$> todos n1 = todos n).
  { rewrite Htodos, Hl, fmap_app, fmap_cons, Hauth.
    rewrite (fmap_unless (λ r, bool_decide (id r = i) && owns (auth_uid n) r)) by exact H1.
    rewrite (fmap_unless (λ r, bool_decide (id r = i) && owns (auth_uid n) r)) by exact H2.
    unfold owns at 1. rewrite !bool_decide_eq_true_2; [now rewrite Hback|exact Hown'|].
    rewrite Heq. exact Hid. }
  assert (Hpg : pg_update (only_completed (completed old)) i n1 = (PgSuccess old, todos n)).
  { unfold pg_update. rewrite Ht, Hback, Hrows1, Hauth.
    unfold owns. rewrite bool_decide_eq_true_2 by exact Hown. cbn [negb].
    rewrite bool_decide_eq_true_2; [reflexivity|].
    rewrite Hl. rewrite !fmap_app, !fmap_cons in Hnd |- *.
    now replace (id old) with (id t) by (rewrite Heq; reflexivity). }
  rewrite exec_updateTodo, serve_update, Hf, Hpg. split; reflexivity.
Qed.

(** ** The list as shown *)

Lemma count_split {A} (P : A → bool) (l : list A) :
  length (filter (λ x, negb (P x)) l) + length (filter (λ x, P x) l) = length l.
Proof.
  induction l as [|a l IH]; [reflexivity|]. destruct (P a) eqn:Ha.
  - rewrite filter_cons_False, filter_cons_True by (rewrite Ha; cbn; tauto). cbn. lia.
  - rewrite filter_cons_True, filter_cons_False by (rewrite Ha; cbn; tauto). cbn. lia.
Qed.

(** X7. The tabs split the list: every todo is under exactly one of
    [active] and [completed], the two counts add up to the length of the
    list and are the lengths of the two filtered lists, and [all] shows the
    list itself. *)
Theorem filter_tabs_partition_the_list (rows : list Todo) :
  activeCount rows + completedCount rows = length rows ∧
  length (filteredTodos FilterActive rows) = activeCount rows ∧
  length (filteredTodos FilterCompleted rows) = completedCount rows ∧
  filteredTodos FilterAll rows = rows ∧
  filteredTodos FilterActive rows ++ filteredTodos FilterCompleted rows ≡ₚ rows ∧
  (∀ todo, todo ∈ filteredTodos FilterActive rows → todo ∉ filteredTodos FilterCompleted rows).
Proof.
  split; [apply (count_split completed)|].
  split; [reflexivity|]. split; [reflexivity|].
  split; [apply filter_all, Forall_forall; intros t _; exact I|].
  split.
  - unfold filteredTodos. cbn [passes].
    rewrite (Permutation_app_comm _ _).
    etransitivity; [|apply (filter_app_complement (λ t : Todo, completed t))].
    apply Permutation_app_head. apply reflexive_eq, list_filter_iff.
    intros t. now rewrite negb_True.
  - intros t. unfold filteredTodos. rewrite !list_elem_of_filter. cbn [passes].
    rewrite negb_True. tauto.
Qed.

Lemma StronglySorted_sublist {A} (R : relation A) (l k : list A) :
  l `sublist_of` k → StronglySorted R k → StronglySorted R l.
Proof.
  induction 1 as [|x l k Hs IH|x l k Hs IH]; intros Hk.
  - constructor.
  - apply StronglySorted_inv in Hk as [Hk Hx]. constructor; [auto|].
    apply Forall_forall. intros y Hy.
    apply (proj1 (Forall_forall _ _) Hx). eapply elem_of_sublist; eauto.
  - apply StronglySorted_inv in Hk as [Hk _]. auto.
Qed.

Lemma filteredTodos_sublist tab rows : filteredTodos tab rows `sublist_of` rows.
Proof. apply sublist_filter. Qed.

(** X8. What a tab shows of a successful read: the caller's todos that
    pass the filter and no others, in the order of the read, so newest
    first; filtering what is shown again changes nothing. *)
Theorem filtered_list_keeps_the_order_of_the_read (tab : Filter) (n : Net) (rows : list Todo) :
  fst (exec fetchTodos n) = Ok rows →
  filteredTodos tab rows `sublist_of` rows ∧
  StronglySorted (λ a b, (created_at b <= created_at a)%Z) (filteredTodos tab rows) ∧
  (∀ todo, todo ∈ filteredTodos tab rows ↔
     todo ∈ todos n ∧ auth_uid n = Some (user_id todo) ∧ passes tab todo) ∧
  filteredTodos tab (filteredTodos tab rows) = filteredTodos tab rows.
Proof.
  rewrite exec_fetchTodos. cbn [fst].
  destruct (fst (next_fault n)); [discriminate|]. intros [= <-].
  split; [apply filteredTodos_sublist|]. split; [|split].
  - eapply StronglySorted_sublist; [apply filteredTodos_sublist|].
    apply (pg_select_sorted false).
  - intros t. unfold filteredTodos.
    rewrite list_elem_of_filter, elem_of_pg_select. tauto.
  - apply filter_all, Forall_forall. intros t.
    unfold filteredTodos. rewrite list_elem_of_filter. tauto.
Qed.

Lemma completedCount_perm l k : l ≡ₚ k → completedCount l = completedCount k.
Proof. unfold completedCount. now intros ->. Qed.

Lemma completedCount_app l k : completedCount (l ++ k) = completedCount l + completedCount k.
Proof. unfold completedCount. now rewrite filter_app, length_app. Qed.

Lemma completedCount_cons t l : completedCount (t :: l) = (if completed t then 1 else 0) + completedCount l.
Proof.
  unfold completedCount. rewrite filter_cons. destruct (completed t); reflexivity.
Qed.

(** X9. After a successful [updateTodo(id, { completed: b })] the list of
    the caller has as many todos as before, and [completedCount] and
    [activeCount] of it have moved by the one row: a todo that was active
    and is checked is one more completed and one less active, and the other
    way round; an update to the value the row already had moves nothing. *)
Theorem checking_a_todo_moves_it_between_the_tabs
    (i : N) (b : bool) (n n' : Net) (t : Todo) :
  exec (updateTodo i (only_completed b)) n = (Ok t, n') →
  ∃ old, old ∈ todos n ∧ id old = i ∧
    length (pg_select false n') = length (pg_select false n) ∧
    completedCount (pg_select false n') + (if completed old then 1 else 0)
      = completedCount (pg_select false n) + (if b then 1 else 0) ∧
    activeCount (pg_select false n') + (if b then 1 else 0)
      = activeCount (pg_select false n) + (if completed old then 1 else 0).
Proof.
  rewrite exec_updateTodo, serve_update.
  destruct (fst (next_fault n)) as [e|]; cbn [fst snd]; [discriminate|].
  destruct (fst (pg_update (only_completed b) i n)) as [d|e] eqn:Hu; [|discriminate].
  intros [= -> <-].
  apply pg_update_rows in Hu
    as (l1 & old & l2 & Hl & Hrows & Heq & Hid & Hown & Hown' & _).
  exists old. split; [rewrite Hl; apply elem_of_app; right; left|].
  split; [exact Hid|].
  set (n' := after _ _ _ n).
  assert (Hnew : pg_select false n' ≡ₚ
                 filter (λ r, owns (auth_uid n) r) l1 ++ t :: filter (λ r, owns (auth_uid n) r) l2).
  { rewrite pg_select_perm. change (auth_uid n') with (auth_uid n).
    change (todos n') with (snd (pg_update (only_completed b) i n)).
    rewrite Hrows, filter_app, filter_cons_True; [reflexivity|].
    unfold owns. now rewrite bool_decide_eq_true_2. }
  assert (Hold : pg_select false n ≡ₚ
                 filter (λ r, owns (auth_uid n) r) l1 ++ old :: filter (λ r, owns (auth_uid n) r) l2).
  { rewrite pg_select_perm, Hl, filter_app, filter_cons_True; [reflexivity|].
    unfold owns. now rewrite bool_decide_eq_true_2. }
  assert (Hb : completed t = b) by (rewrite Heq; reflexivity).
  assert (Hlen : length (pg_select false n') = length (pg_select false n)).
  { rewrite Hnew, Hold, !length_app. reflexivity. }
  assert (Hc : completedCount (pg_select false n') + (if completed old then 1 else 0)
               = completedCount (pg_select false n) + (if b then 1 else 0)).
  { rewrite (completedCount_perm _ _ Hnew), (completedCount_perm _ _ Hold).
    rewrite !completedCount_app, !completedCount_cons, Hb. lia. }
  split; [exact Hlen|]. split; [exact Hc|].
  pose proof (count_split completed (pg_select false n')) as H1.
  pose proof (count_split completed (pg_select false n)) as H2.
  fold (activeCount (pg_select false n')) (completedCount (pg_select false n')) in H1.
  fold (activeCount (pg_select false n)) (completedCount (pg_select false n)) in H2.
  lia.
Qed.

(** ** A create, then the read it triggers *)

Lemma newest_is_head (l rest : list Todo) (row : Todo) :
  StronglySorted (λ a b, (created_at b <= created_at a)%Z) l →
  l ≡ₚ row :: rest →
  (∀ t, t ∈ rest → (created_at t < created_at row)%Z) →
  ∃ tl, l = row :: tl ∧ tl ≡ₚ rest.
Proof.
  intros Hs Hp Hnew. destruct l as [|h tl].
  - now apply Permutation_nil_cons in Hp.
  - assert (Hh : h ∈ row :: rest) by (rewrite <- Hp; left).
    apply elem_of_cons in Hh as [->|Hh].
    + exists tl. split; [reflexivity|]. eapply Permutation_cons_inv, Hp.
    + exfalso. pose proof (Hnew h Hh) as Hlt.
      assert (Hrow : row ∈ h :: tl) by (rewrite Hp; left).
      apply elem_of_cons in Hrow as [->|Hrow]; [lia|].
      apply StronglySorted_inv in Hs as [_ Hall].
      pose proof (proj1 (Forall_forall _ _) Hall row Hrow). cbn in *. lia.
Qed.

(** X10. With a user signed in, no call failing and the server's clock ahead
    of the rows it stored, submitting the form with a title that is not
    empty ends, once the refetch is in, with the new todo at the head of the
    cached list: it has the title as typed, is not completed and is the
    user's; the rest is the list of before; and the form is reset. *)
Theorem created_todo_is_listed_first (w : World) (signed_in : User) :
  session (net w) = Some signed_in →
  faults (net w) = [] →
  form_title (view w) ≠ [] →
  (∀ t, t ∈ todos (net w) → (created_at t < clock (net w))%Z) →
  ∃ row rest,
    cached_todos (complete_fetch (handleSubmit_onSubmit w)) = row :: rest ∧
    title row = form_title (view w) ∧
    completed row = false ∧
    user_id row = uid signed_in ∧
    rest ≡ₚ pg_select false (net w) ∧
    form_title (view (handleSubmit_onSubmit w)) = [].
Proof.
  intros Hs Hf Hne Hclock. unfold handleSubmit_onSubmit.
  rewrite (todoSchema_nonempty _ Hne). unfold onSubmit.
  set (t := form_title (view w)).
  pose proof (page_mutation_protocol Create createTodo t (set_form_error None w)) as H.
  fold createMutation in H.
  destruct (mutateAsync Create createMutation t (set_form_error None w)) as [r w1].
  destruct H as (Hexec & _ & H). cbn [mutationFn createMutation] in Hexec.
  change (net (set_form_error None w)) with (net w) in Hexec.
  rewrite exec_createTodo, serve_getUser, (next_fault_nil _ Hf), Hs in Hexec.
  cbn [fst snd] in Hexec. rewrite serve_insert in Hexec.
  assert (Hf1 : faults (answered AuthGetUser (net w)) = [])
    by (cbn; now rewrite (next_fault_nil _ Hf)).
  rewrite (next_fault_nil _ Hf1) in Hexec. cbn [fst snd] in Hexec.
  rewrite (pg_insert_own t signed_in (answered AuthGetUser (net w)) Hs) in Hexec.
  cbn [fst snd] in Hexec. injection Hexec as -> Hnet.
  destruct H as (_ & Hfetch & _ & _ & Hread).
  set (row := mkTodo (fresh_id (todos (net w))) t false (clock (net w)) (uid signed_in)) in *.
  assert (Hf2 : faults (net w1) = []).
  { rewrite Hnet. cbn. now rewrite (next_fault_nil _ Hf1). }
  assert (Hcached : cached_todos (complete_fetch (reset w1)) = pg_select false (net w1)).
  { unfold cached_todos. rewrite complete_fetch_fresh; [reflexivity|exact Hfetch|].
    change (net (reset w1)) with (net w1). now rewrite (next_fault_nil _ Hf2). }
  assert (Hperm : pg_select false (net w1) ≡ₚ row :: pg_select false (net w)).
  { rewrite !pg_select_perm, Hnet. cbn [todos after answered].
    change (auth_uid (after _ _ _ _)) with (auth_uid (net w)).
    rewrite filter_app, filter_cons_True, filter_nil.
    - now rewrite <- Permutation_cons_append.
    - unfold owns, auth_uid. rewrite Hs. cbn. now rewrite bool_decide_eq_true_2. }
  destruct (newest_is_head _ _ _ (pg_select_sorted false (net w1)) Hperm)
    as (tl & Htl & Hrest).
  { intros x [Hx _]%elem_of_pg_select. apply Hclock, Hx. }
  exists row, tl. rewrite Hcached, Htl. repeat split; auto.
Qed.

(** ** What the handlers leave in the view *)

Lemma view_set_mutation k m w : view (set_mutation k m w) = view w.
Proof. destruct k; reflexivity. Qed.

Section page_view.
Context {V A : Type}.
Variable k : MutationKind.
Variable fn : V → Prog (Result A).

(** A mutation of the page reads and writes nothing of the view, and its
    result is the result of its function. *)
Lemma mutateAsync_view (v : V) (w : World) :
  view (snd (mutateAsync k (mkMutationOptions fn None (Some (λ _ _, invalidateQueries)) None) v w))
    = view w ∧
  fst (mutateAsync k (mkMutationOptions fn None (Some (λ _ _, invalidateQueries)) None) v w)
    = fst (exec (fn v) (net w)).
Proof.
  rewrite mutateAsync_settles.
  destruct (exec (fn v) (net w)) as [[a|e] n]; cbn [fst snd];
    (split; [|reflexivity]); rewrite view_set_mutation;
    cbn [invalidateQueries start_fetch dispatch set_net view]; apply view_set_mutation.
Qed.
End page_view.

(** X11. What [handleSubmit(onSubmit)] leaves in the form. An empty title
    is refused with [Title is required] and nothing is sent. Otherwise the
    field error is cleared, and then: when [createTodo] succeeds the form is
    reset and nothing is logged; when it throws, the title stays as typed,
    the error is logged to the console, once, and is the state of the
    mutation. The edit field and the suggestions are untouched in all three
    cases. *)
Theorem create_form_keeps_the_title_on_failure (w : World) :
  let w' := handleSubmit_onSubmit w in
  editingId (view w') = editingId (view w) ∧
  editTitle (view w') = editTitle (view w) ∧
  aiPrompt (view w') = aiPrompt (view w) ∧
  aiSuggestions (view w') = aiSuggestions (view w) ∧
  selectedSuggestionIndexes (view w') = selectedSuggestionIndexes (view w) ∧
  match form_title (view w) with
  | [] =>
      form_error (view w') = Some (js "Title is required") ∧
      form_title (view w') = [] ∧
      console (view w') = console (view w) ∧
      net w' = net w
  | c :: t =>
      form_error (view w') = None ∧
      match fst (exec (createTodo (c :: t)) (net w)) with
      | Ok _ =>
          form_title (view w') = [] ∧
          console (view w') = console (view w)
      | Throw e =>
          form_title (view w') = c :: t ∧
          console (view w') = console (view w) ++ [e] ∧
          createState w' = mkMutation MError (Some e)
      end
  end.
Proof.
  intros w'. subst w'. unfold handleSubmit_onSubmit.
  destruct (form_title (view w)) as [|c t] eqn:Ht.
  - cbn. rewrite Ht. repeat split.
  - cbn [todoSchema length Nat.leb]. unfold onSubmit.
    pose proof (mutateAsync_view Create createTodo (c :: t) (set_form_error None w)) as [Hv Hr].
    pose proof (mutateAsync_settles Create createTodo (c :: t) (set_form_error None w)) as Hm.
    fold createMutation in Hv, Hr, Hm.
    change (net (set_form_error None w)) with (net w) in Hr, Hm.
    destruct (mutateAsync Create createMutation (c :: t) (set_form_error None w)) as [r w1].
    cbn [fst snd] in Hv, Hr. rewrite <- Hr.
    destruct r as [row|e]; cbn; rewrite Hv; cbn; rewrite ?Ht; repeat split.
    destruct (exec (createTodo (c :: t)) (net w)) as [[a|e'] n1]; [discriminate|].
    injection Hm as -> ->. reflexivity.
Qed.

(** X12. What [handleSaveEdit] leaves in the edit field. A title that trims
    to nothing: nothing at all happens. Otherwise, when [updateTodo]
    succeeds the row leaves edit mode ([editingId] is null, [editTitle]
    empty) and nothing is logged; when it throws, the row stays in edit mode
    with the title as typed, and the error is logged once and is the state
    of the mutation. The form and the suggestions are untouched. *)
Theorem save_edit_leaves_edit_mode_only_on_success (i : N) (w : World) :
  let w' := handleSaveEdit i w in
  form_title (view w') = form_title (view w) ∧
  form_error (view w') = form_error (view w) ∧
  aiPrompt (view w') = aiPrompt (view w) ∧
  aiSuggestions (view w') = aiSuggestions (view w) ∧
  selectedSuggestionIndexes (view w') = selectedSuggestionIndexes (view w) ∧
  match trim (editTitle (view w)) with
  | [] => w' = w
  | c :: t =>
      match fst (exec (updateTodo i (only_title (c :: t))) (net w)) with
      | Ok _ =>
          editingId (view w') = None ∧
          editTitle (view w') = [] ∧
          console (view w') = console (view w)
      | Throw e =>
          editingId (view w') = editingId (view w) ∧
          editTitle (view w') = editTitle (view w) ∧
          console (view w') = console (view w) ++ [e] ∧
          updateState w' = mkMutation MError (Some e)
      end
  end.
Proof.
  intros w'. subst w'. unfold handleSaveEdit.
  destruct (trim (editTitle (view w))) as [|c t] eqn:Ht; [repeat split|].
  cbn [truthy negb].
  pose proof (mutateAsync_view Update (λ v, updateTodo (fst v) (snd v))
                (i, only_title (c :: t)) w) as [Hv Hr].
  pose proof (mutateAsync_settles Update (λ v, updateTodo (fst v) (snd v))
                (i, only_title (c :: t)) w) as Hm.
  fold updateMutation in Hv, Hr, Hm. cbn [fst snd] in Hr, Hm.
  destruct (mutateAsync Update updateMutation (i, only_title (c :: t)) w) as [r w1].
  cbn [fst snd] in Hv, Hr. rewrite <- Hr.
  destruct r as [row|e]; cbn; rewrite Hv; repeat split.
  destruct (exec (updateTodo i (only_title (c :: t))) (net w)) as [[a|e'] n1]; [discriminate|].
  injection Hm as -> ->. reflexivity.
Qed.

(** X13. The checkbox and the [Delete] button call [mutate] and handle no
    error: whatever the service answers, nothing of the view changes and
    nothing is logged. When the call fails the error is only the state of
    the mutation, the query is not invalidated and the table is as it
    was. *)
Theorem row_actions_fail_silently (todo : Todo) (checked : bool) (w : World) :
  view (toggleCompleted todo checked w) = view w ∧
  view (clickDelete todo w) = view w ∧
  (∀ e, fst (exec (updateTodo (id todo) (only_completed checked)) (net w)) = Throw e →
        updateState (toggleCompleted todo checked w) = mkMutation MError (Some e) ∧
        query (toggleCompleted todo checked w) = query w ∧
        todos (net (toggleCompleted todo checked w)) = todos (net w)) ∧
  (∀ e, fst (exec (deleteTodo (id todo)) (net w)) = Throw e →
        deleteState (clickDelete todo w) = mkMutation MError (Some e) ∧
        query (clickDelete todo w) = query w ∧
        todos (net (clickDelete todo w)) = todos (net w)).
Proof.
  unfold toggleCompleted, clickDelete, mutate.
  split; [apply (mutateAsync_view Update (λ v, updateTodo (fst v) (snd v)))|].
  split; [apply (mutateAsync_view Delete deleteTodo)|].
  split.
  - intros e He. unfold updateMutation. rewrite mutateAsync_settles. cbn [fst snd] in *.
    pose proof (updateTodo_failed _ _ _ _ He) as Hrows.
    destruct (exec (updateTodo (id todo) (only_completed checked)) (net w)) as [[a|e'] n1];
      [discriminate|]. cbn [fst snd] in *. injection He as ->.
    repeat split. exact Hrows.
  - intros e He. unfold deleteMutation. rewrite mutateAsync_settles.
    pose proof (deleteTodo_failed _ _ _ He) as Hrows.
    destruct (exec (deleteTodo (id todo)) (net w)) as [[a|e'] n1];
      [discriminate|]. cbn [fst snd] in *. injection He as ->.
    repeat split. exact Hrows.
Qed.

(** ** The bulk add, whatever its outcome *)

Lemma view_settle v r w : view (settle Create createMutation v r w) = view w.
Proof. destruct r; reflexivity. Qed.

Lemma view_land v retries c p w :
  view (snd (land Create createMutation v retries c p w)) = view w.
Proof.
  revert c p. induction retries as [|retries IH]; intros c p.
  - destruct p as [[a|e]|rq kont]; reflexivity.
  - destruct p as [[a|e]|rq kont]; try reflexivity. cbn [land]. apply IH.
Qed.

Lemma view_begin_all titles rej w :
  view (snd (begin_all titles rej w)) = view w.
Proof.
  revert rej w. induction titles as [|t titles IH]; intros rej w; [reflexivity|].
  cbn [begin_all]. rewrite begin_create.
  specialize (IH (first_rejection rej (Running 0 0 AuthGetUser
      (λ user, match user with
               | None => Ret (Throw (ThrowError (js "Not authenticated")))
               | Some user =>
                   Await (InsertTodo t (uid user)) (λ r,
                     match r with
                     | PgFailure error => Ret (Throw (ThrowPostgrest error))
                     | PgSuccess data => Ret (Ok data)
                     end)
               end)))
    (set_mutation Create (mkMutation MPending None) w)).
  destruct (begin_all titles _ _) as [[tasks rej'] w1]. cbn [snd] in *.
  now rewrite IH.
Qed.

Lemma view_deliver sched tasks rej w :
  view (snd (deliver sched tasks rej w)) = view w.
Proof.
  revert tasks rej w. induction sched as [|i sched IH]; intros tasks rej w; [reflexivity|].
  cbn [deliver]. destruct (tasks !! i) as [[t [r c rq kont|res]]|]; auto.
  pose proof (view_land t r c (kont (fst (serve rq (net w))))
                (set_net (snd (serve rq (net w))) w)) as Hl.
  unfold resume. destruct (serve rq (net w)) as [reply n1]. cbn [fst snd] in Hl.
  destruct (land Create createMutation t r c (kont reply) (set_net n1 w)) as [task w1].
  rewrite IH. exact Hl.
Qed.

Lemma view_bulk_create sched titles w :
  view (snd (bulk_create sched titles w)) = view w.
Proof.
  unfold bulk_create. pose proof (view_begin_all titles None w) as Hb.
  destruct (begin_all titles None w) as [[tasks rej] w1]. cbn [snd] in Hb.
  now rewrite view_deliver.
Qed.

(** X14. What [handleAddSelectedSuggestions] leaves in the view, whatever
    the order of the replies. With no title to add it does nothing. When
    every create is fulfilled the suggestions, the selection and the prompt
    are cleared and nothing is logged; when one is rejected the suggestions,
    the selection and the prompt stay and the first rejection is logged,
    once; while creates are pending nothing of the view has changed. The
    form and the edit field are untouched throughout. *)
Theorem bulk_add_clears_the_suggestions_only_on_success (sched : list nat) (w : World) :
  let w' := handleAddSelectedSuggestions sched w in
  (titlesToAdd (view w) = [] → w' = w) ∧
  editingId (view w') = editingId (view w) ∧
  editTitle (view w') = editTitle (view w) ∧
  form_title (view w') = form_title (view w) ∧
  form_error (view w') = form_error (view w) ∧
  (titlesToAdd (view w) ≠ [] →
   let '(tasks, rej, _) := bulk_create sched (titlesToAdd (view w)) w in
   match Promise_all (snd <$> tasks) rej with
   | Some (Ok _) =>
       aiSuggestions (view w') = [] ∧
       selectedSuggestionIndexes (view w') = [] ∧
       aiPrompt (view w') = [] ∧
       console (view w') = console (view w)
   | Some (Throw e) =>
       aiSuggestions (view w') = aiSuggestions (view w) ∧
       selectedSuggestionIndexes (view w') = selectedSuggestionIndexes (view w) ∧
       aiPrompt (view w') = aiPrompt (view w) ∧
       console (view w') = console (view w) ++ [e]
   | None => view w' = view w
   end).
Proof.
  intros w'. subst w'. unfold handleAddSelectedSuggestions.
  destruct (titlesToAdd (view w)) as [|t ts] eqn:Ht; [repeat split; congruence|].
  cbn [length Nat.eqb].
  pose proof (view_bulk_create sched (t :: ts) w) as Hv.
  destruct (bulk_create sched (t :: ts) w) as [[tasks rej] w1]. cbn [snd] in Hv.
  split; [discriminate|].
  destruct (Promise_all (snd <$> tasks) rej) as [[rows|e]|]; cbn; rewrite Hv; repeat split.
Qed.

(** X15. A bulk add is not undone when one of its creates fails: whatever
    the order of the replies and whichever calls fail, the table holds the
    rows it held and, for each create fulfilled so far, the row that create
    returned, with its title and the signed-in user as owner, and nothing
    else. *)
Theorem bulk_add_keeps_the_rows_of_fulfilled_creates
    (sched : list nat) (titles : list jsstring) (w : World) :
  let '(tasks, rej, w') := bulk_create sched titles w in
  fst <$> tasks = titles ∧
  todos (net w') ≡ₚ todos (net w) ++ omap (λ p, fulfilled (snd p)) tasks ∧
  Forall (λ p, ∀ row, fulfilled (snd p) = Some row →
                      title row = fst p ∧
                      uid <$> session (net w) = Some (user_id row)) tasks.
Proof.
  destruct (begin_all_spec titles None w)
    as (started & w1 & Hbegin & Hnet & Hfst & Hph & Hrun & Hnone).
  unfold bulk_create. rewrite Hbegin.
  assert (Hinv : in_flight (session (net w)) (todos (net w)) started w1).
  { split; [now rewrite Hnet|]. split.
    - eapply Forall_impl; [exact Hph|]. intros p Hp. apply Hp.
    - now rewrite Hnone, app_nil_r, Hnet. }
  destruct (deliver_in_flight _ _ sched _ None _ Hinv)
    as (tasks' & rej' & w2 & -> & Hfst' & (Hs & Hph' & Hrows)).
  split; [congruence|]. split; [exact Hrows|].
  eapply Forall_impl; [exact Hph'|]. intros [t task] Hp row Hrow. cbn [fst snd] in *.
  apply fulfilled_Some in Hrow as ->. inversion Hp; subst. auto.
Qed.

(** ** The selection *)

(** X16. [toggleSuggestionSelected(index)] flips the selection of that
    index and of no other: the index is selected afterwards exactly when it
    was not before, every other index is selected exactly when it was; a
    selection without repeats stays without repeats, and toggling twice
    gives back the same selection, up to order. The suggestions and the
    services are not touched. *)
Theorem toggleSuggestionSelected_flips_one_index (index : nat) (w : World) :
  let prev := selectedSuggestionIndexes (view w) in
  let next := selectedSuggestionIndexes (view (toggleSuggestionSelected index w)) in
  (index ∈ next ↔ index ∉ prev) ∧
  (∀ j, j ≠ index → (j ∈ next ↔ j ∈ prev)) ∧
  (NoDup prev → NoDup next) ∧
  (NoDup prev →
   selectedSuggestionIndexes
     (view (toggleSuggestionSelected index (toggleSuggestionSelected index w))) ≡ₚ prev) ∧
  aiSuggestions (view (toggleSuggestionSelected index w)) = aiSuggestions (view w) ∧
  net (toggleSuggestionSelected index w) = net w.
Proof.
  intros prev next. subst next. unfold toggleSuggestionSelected at 1 2 3.
  cbn [view set_view setSelectedSuggestionIndexes selectedSuggestionIndexes].
  fold prev.
  assert (Hoff : index ∉ filter (λ i, i ≠ index) prev)
    by (rewrite list_elem_of_filter; tauto).
  destruct (decide (index ∈ prev)) as [Hin|Hin].
  - rewrite bool_decide_eq_true_2 by exact Hin.
    split; [tauto|]. split; [intros j Hj; rewrite list_elem_of_filter; tauto|].
    split; [apply NoDup_filter|]. split; [|split; reflexivity].
    intros Hnd. unfold toggleSuggestionSelected.
    cbn [view set_view setSelectedSuggestionIndexes selectedSuggestionIndexes].
    fold prev. rewrite (bool_decide_eq_true_2 _ Hin), (bool_decide_eq_false_2 _ Hoff).
    apply NoDup_Permutation; [|exact Hnd|].
    + apply NoDup_app. split; [now apply NoDup_filter|].
      split; [|apply NoDup_singleton].
      intros x Hx ->%list_elem_of_singleton. exact (Hoff Hx).
    + intros x. rewrite elem_of_app, list_elem_of_filter, list_elem_of_singleton.
      destruct (decide (x = index)) as [->|]; tauto.
  - rewrite bool_decide_eq_false_2 by exact Hin.
    split; [rewrite elem_of_app, list_elem_of_singleton; tauto|].
    split; [intros j Hj; rewrite elem_of_app, list_elem_of_singleton; tauto|].
    split.
    + intros Hnd. apply NoDup_app. split; [exact Hnd|]. split; [|apply NoDup_singleton].
      intros x Hx ->%list_elem_of_singleton. exact (Hin Hx).
    + split; [|split; reflexivity]. intros Hnd. unfold toggleSuggestionSelected.
      cbn [view set_view setSelectedSuggestionIndexes selectedSuggestionIndexes].
      fold prev. rewrite (bool_decide_eq_false_2 _ Hin).
      rewrite bool_decide_eq_true_2 by (rewrite elem_of_app, list_elem_of_singleton; tauto).
      rewrite filter_app, filter_cons_False, filter_nil, app_nil_r by tauto.
      apply reflexive_eq, filter_all, Forall_forall. intros x Hx ->. exact (Hin Hx).
Qed.

Lemma lookup_all {A B} (f : A → B) (l : list A) :
  (λ i, f <$> l !! i) <$> seq 0 (length l) = (λ x, Some (f x)) <$> l.
Proof.
  apply list_eq. intros i. rewrite !list_lookup_fmap.
  destruct (decide (i < length l)) as [Hlt|Hge].
  - rewrite lookup_seq_lt by exact Hlt. cbn.
    destruct (lookup_lt_is_Some_2 l i Hlt) as [x Hx]. now rewrite Hx.
  - rewrite lookup_seq_ge by lia. now rewrite lookup_ge_None_2 by lia.
Qed.

Lemma truthy_trim (t : jsstring) : truthy t && truthy (trim t) = bool_decide (¬ whitespace_only t).
Proof.
  unfold whitespace_only. destruct t as [|c t]; [reflexivity|]. cbn [truthy andb].
  destruct (trim (c :: t)) eqn:E.
  - now rewrite bool_decide_eq_false_2 by tauto.
  - now rewrite bool_decide_eq_true_2 by discriminate.
Qed.

(** X17. After [Select all] the titles to add are the titles of the
    suggestions, in their order, without the blank ones. In general a title
    to add is never blank and is the title of a suggestion at a selected
    index: an index past the end of the suggestions adds nothing. *)
Theorem select_all_adds_every_titled_suggestion (w : World) :
  titlesToAdd (view (selectAll w))
    = filter (λ t, ¬ whitespace_only t) (s_title <$> aiSuggestions (view w)) ∧
  (∀ t, t ∈ titlesToAdd (view w) →
        ¬ whitespace_only t ∧
        ∃ i s, i ∈ selectedSuggestionIndexes (view w) ∧
               aiSuggestions (view w) !! i = Some s ∧ s_title s = t).
Proof.
  split.
  - unfold titlesToAdd, selectAll.
    cbn [view set_view setSelectedSuggestionIndexes selectedSuggestionIndexes aiSuggestions].
    rewrite (imap_seq_0 _ (λ i, i)), list_fmap_id.
    rewrite lookup_all.
    induction (aiSuggestions (view w)) as [|s l IH]; [reflexivity|].
    cbn [fmap list_fmap omap list_omap compose option_fmap option_map].
    rewrite truthy_trim, filter_cons.
    destruct (decide (¬ whitespace_only (s_title s))) as [H|H].
    + rewrite bool_decide_eq_true_2 by exact H. f_equal. exact IH.
    + rewrite bool_decide_eq_false_2 by exact H. exact IH.
  - intros t Ht. split; [eapply titlesToAdd_not_blank, Ht|].
    unfold titlesToAdd in Ht. apply list_elem_of_omap in Ht as ([t'|] & Hin & Hsome);
      [|discriminate].
    destruct (truthy t' && truthy (trim t')); [|discriminate]. injection Hsome as ->.
    apply list_elem_of_fmap in Hin as (i & Hi & Hin).
    destruct (aiSuggestions (view w) !! i) as [s|] eqn:Hs; [|discriminate].
    injection Hi as ->. eauto.
Qed.

(** ** A delete, then the read it triggers *)

(** X18. With no call failing, a click on [Delete] ends, once the refetch is
    in, with a cached list that is the caller's list of before without the
    todos of that id, newest first: the todo is gone and every other one is
    still listed. *)
Theorem deleted_todo_leaves_the_list (todo : Todo) (w : World) :
  faults (net w) = [] →
  cached_todos (complete_fetch (clickDelete todo w))
    ≡ₚ filter (λ t, id t ≠ id todo) (pg_select false (net w)) ∧
  StronglySorted (λ a b, (created_at b <= created_at a)%Z)
    (cached_todos (complete_fetch (clickDelete todo w))) ∧
  (∀ t, t ∈ cached_todos (complete_fetch (clickDelete todo w)) ↔
        t ∈ pg_select false (net w) ∧ id t ≠ id todo).
Proof.
  intros Hf. unfold clickDelete, mutate.
  pose proof (page_mutation_protocol Delete deleteTodo (id todo) w) as H.
  fold deleteMutation in H.
  destruct (mutateAsync Delete deleteMutation (id todo) w) as [r w1].
  destruct H as (Hexec & _ & H). cbn [mutationFn deleteMutation snd] in Hexec |- *.
  rewrite exec_deleteTodo, serve_delete, (next_fault_nil _ Hf) in Hexec.
  cbn [fst snd] in Hexec. injection Hexec as -> Hnet.
  destruct H as (_ & Hfetch & _ & _ & Hread).
  assert (Hcached : cached_todos (complete_fetch w1) = pg_select false (net w1)).
  { unfold cached_todos. rewrite Hread; [reflexivity|].
    assert (Hf1 : faults (net w1) = [])
      by (rewrite Hnet; cbn [faults after]; now rewrite (next_fault_nil _ Hf)).
    now rewrite (next_fault_nil _ Hf1). }
  assert (Hperm : pg_select false (net w1)
                  ≡ₚ filter (λ t, id t ≠ id todo) (pg_select false (net w))).
  { rewrite !pg_select_perm, Hnet. cbn [todos after].
    change (auth_uid (after _ _ _ _)) with (auth_uid (net w)).
    unfold pg_delete. rewrite !list_filter_filter. apply reflexive_eq, list_filter_iff.
    intros t. rewrite negb_True, andb_True, bool_decide_spec. tauto. }
  rewrite Hcached. split; [exact Hperm|]. split; [apply (pg_select_sorted false)|].
  intros t. rewrite Hperm, list_elem_of_filter. tauto.
Qed.

(** ** An edit saved as it was opened *)

Lemma fmap_id_on {A} (f : A → A) (l : list A) :
  (∀ x, x ∈ l → f x = x) → f <$> l = l.
Proof.
  induction l as [|a l IH]; intros H; [reflexivity|]. cbn.
  rewrite H by left. f_equal. apply IH. intros x Hx. apply H. now right.
Qed.

Lemma NoDup_fmap_elem {A B} (f : A → B) (l : list A) x y :
  NoDup (f <$> l) → x ∈ l → y ∈ l → f x = f y → x = y.
Proof.
  induction l as [|a l IH]; intros Hnd Hx Hy Hf; [inversion Hx|].
  rewrite fmap_cons in Hnd. apply NoDup_cons in Hnd as [Ha Hnd].
  apply elem_of_cons in Hx as [->|Hx]; apply elem_of_cons in Hy as [->|Hy]; auto.
  - destruct Ha. rewrite Hf. now apply list_elem_of_fmap_2.
  - destruct Ha. rewrite <- Hf. now apply list_elem_of_fmap_2.
Qed.

(** X19. [handleEdit] opens the edit field on the title of the todo, and
    saving it as it was opened changes no row: for a todo of the table whose
    title has no white space around it, and ids being unique,
    [handleSaveEdit] leaves the table as it was, whether the service
    accepts the update or not; the update it sends carries that title. *)
Theorem saving_an_unchanged_title_changes_no_row (todo : Todo) (w : World) :
  todo ∈ todos (net w) →
  NoDup (id <$> todos (net w)) →
  trim (title todo) = title todo →
  todos (net (handleSaveEdit (id todo) (handleEdit todo w))) = todos (net w) ∧
  editTitle (view (handleEdit todo w)) = title todo ∧
  editingId (view (handleEdit todo w)) = Some (id todo) ∧
  (title todo ≠ [] →
   calls (net (handleSaveEdit (id todo) (handleEdit todo w)))
     = calls (net w) ++ [UpdateTodo (only_title (title todo)) (id todo)]).
Proof.
  intros Hin Hnd Hclean.
  split; [|split; [reflexivity|split; [reflexivity|]]].
  - unfold handleSaveEdit.
    change (editTitle (view (handleEdit todo w))) with (title todo). rewrite Hclean.
    destruct (title todo) as [|c s] eqn:Ht; [reflexivity|]. cbn [truthy negb].
    pose proof (page_mutation_protocol Update (λ v, updateTodo (fst v) (snd v))
                  (id todo, only_title (c :: s)) (handleEdit todo w)) as H.
    fold updateMutation in H.
    destruct (mutateAsync Update updateMutation (id todo, only_title (c :: s))
                (handleEdit todo w)) as [r w1].
    destruct H as (Hexec & _). cbn [mutationFn updateMutation fst snd] in Hexec.
    change (net (handleEdit todo w)) with (net w) in Hexec.
    assert (Hrows : todos (net w1) = todos (net w)).
    { pose proof (f_equal fst Hexec) as Hr. pose proof (f_equal snd Hexec) as Hn.
      cbn [fst snd] in Hr, Hn. rewrite Hn. destruct r as [row|e].
      - symmetry in Hr. revert Hr. rewrite exec_updateTodo, serve_update.
        destruct (fst (next_fault (net w))); cbn [fst snd]; [discriminate|].
        destruct (fst (pg_update (only_title (c :: s)) (id todo) (net w))) as [d|e] eqn:Hu;
          [|discriminate].
        intros _. apply pg_update_success in Hu as (old & _ & _ & ->). cbn [todos after].
        apply fmap_id_on. intros x Hx.
        destruct (bool_decide (id x = id todo)) eqn:Hid; [|reflexivity].
        apply bool_decide_eq_true in Hid.
        rewrite (NoDup_fmap_elem id _ x todo Hnd Hx Hin Hid).
        destruct (owns _ _); [|reflexivity]. cbn. rewrite <- Ht. now destruct todo.
      - symmetry in Hr. eapply updateTodo_failed, Hr. }
    destruct r; exact Hrows.
  - intros Hne. destruct (handleSaveEdit_sends_trimmed (id todo) (handleEdit todo w))
      as [Hc|[Hc _]].
    + exfalso. revert Hc. unfold handleSaveEdit.
      change (editTitle (view (handleEdit todo w))) with (title todo). rewrite Hclean.
      destruct (title todo) as [|c s] eqn:Ht; [congruence|]. cbn [truthy negb].
      pose proof (page_mutation_protocol Update (λ v, updateTodo (fst v) (snd v))
                    (id todo, only_title (c :: s)) (handleEdit todo w)) as H.
      fold updateMutation in H.
      destruct (mutateAsync Update updateMutation (id todo, only_title (c :: s))
                  (handleEdit todo w)) as [r w1].
      destruct H as (Hexec & _). cbn [mutationFn updateMutation fst snd] in Hexec.
      apply (f_equal snd) in Hexec. cbn [snd] in Hexec.
      rewrite exec_updateTodo in Hexec. cbn [snd] in Hexec.
      intros Hc. assert (Hc' : calls (net w1) = calls (net (handleEdit todo w)))
        by (destruct r; exact Hc).
      rewrite Hexec, calls_serve in Hc'.
      apply (f_equal length) in Hc'. rewrite length_app in Hc'. cbn in Hc'. lia.
    + change (editTitle (view (handleEdit todo w))) with (title todo) in Hc.
      rewrite Hclean in Hc. exact Hc.
Qed.

(** ** The gateway and its configuration *)

Lemma isAiConfigured_key env : isAiConfigured env = truthy (openAiApiKey env).
Proof.
  unfold isAiConfigured, openAiApiKey. destruct (VITE_OPENAI_API_KEY env) as [key|]; cbn;
    [|reflexivity]. now destruct (trim key).
Qed.

Section gateway_calls.
Variable JSON_parse : jsstring → option JSValue.

Lemma exec_generate_net env prompt existingTitles n :
  openAiApiKey env ≠ [] →
  snd (exec (generateTodosFromPrompt JSON_parse env prompt existingTitles) n)
    = snd (serve (HttpFetch (completion_request env prompt existingTitles)) n).
Proof.
  intros Hkey. unfold generateTodosFromPrompt.
  destruct (openAiApiKey env) as [|k key] eqn:Hk; [congruence|]. cbn [truthy negb exec].
  destruct (serve (HttpFetch _) n) as [[response|] n1]; cbn [snd]; [|reflexivity].
  destruct (negb (ok response)); [reflexivity|].
  destruct (json response) as [body|]; [|reflexivity].
  destruct (first_content body) as [[|c content]|]; reflexivity.
Qed.

(** X20. The page and the gateway agree on what configured means.
    [isAiConfigured] is false exactly when the gateway refuses every prompt
    with [NotConfiguredError] and leaves the services untouched, and true
    exactly when every call of the gateway sends its one request; it is
    false exactly when the key is unset or is white space only. *)
Theorem isAiConfigured_agrees_with_the_gateway (env : Env) :
  (isAiConfigured env = false ↔
   ∀ prompt existingTitles n,
     exec (generateTodosFromPrompt JSON_parse env prompt existingTitles) n
       = (Throw NotConfiguredError, n)) ∧
  (isAiConfigured env = true ↔
   ∀ prompt existingTitles n,
     calls (snd (exec (generateTodosFromPrompt JSON_parse env prompt existingTitles) n))
       = calls n ++ [HttpFetch (completion_request env prompt existingTitles)]) ∧
  (isAiConfigured env = false ↔ unset (VITE_OPENAI_API_KEY env)).
Proof.
  rewrite isAiConfigured_key. unfold unset.
  assert (Hoff : openAiApiKey env = [] →
            ∀ prompt existingTitles n,
              exec (generateTodosFromPrompt JSON_parse env prompt existingTitles) n
                = (Throw NotConfiguredError, n)).
  { intros Hk prompt existingTitles n. unfold generateTodosFromPrompt. now rewrite Hk. }
  assert (Hon : openAiApiKey env ≠ [] →
            ∀ prompt existingTitles n,
              calls (snd (exec (generateTodosFromPrompt JSON_parse env prompt existingTitles) n))
                = calls n ++ [HttpFetch (completion_request env prompt existingTitles)]).
  { intros Hk prompt existingTitles n. now rewrite exec_generate_net. }
  split; [|split].
  - split.
    + intros Hk. apply Hoff. now destruct (openAiApiKey env).
    + intros Hall. destruct (openAiApiKey env) as [|k key] eqn:Hk; [reflexivity|].
      exfalso. specialize (Hon ltac:(discriminate) [] [] net0).
      rewrite (Hall [] [] net0) in Hon. discriminate Hon.
  - split.
    + intros Hk. apply Hon. now destruct (openAiApiKey env).
    + intros Hall. destruct (openAiApiKey env) as [|k key] eqn:Hk; [|reflexivity].
      exfalso. specialize (Hall [] [] net0). rewrite (Hoff eq_refl) in Hall.
      discriminate Hall.
  - unfold openAiApiKey, whitespace_only.
    destruct (VITE_OPENAI_API_KEY env) as [key|]; cbn.
    + destruct (trim key) eqn:Hk; cbn; split; eauto; try discriminate.
      intros [|(key' & [= <-] & Hblank)]; congruence.
    + split; auto.
Qed.

(** X21. With a key configured, [generateTodosFromPrompt] sends exactly one
    request, whatever comes back: the one to [<base>/chat/completions], with
    the trimmed key as bearer token and a base that is trimmed and never
    empty; it reads and writes nothing of the todos, the session or the
    data calls. *)
Theorem configured_gateway_makes_one_request
    (env : Env) (prompt : jsstring) (existingTitles : list jsstring) (n : Net) :
  openAiApiKey env ≠ [] →
  calls (snd (exec (generateTodosFromPrompt JSON_parse env prompt existingTitles) n))
    = calls n ++ [HttpFetch (completion_request env prompt existingTitles)] ∧
  todos (snd (exec (generateTodosFromPrompt JSON_parse env prompt existingTitles) n))
    = todos n ∧
  session (snd (exec (generateTodosFromPrompt JSON_parse env prompt existingTitles) n))
    = session n ∧
  faults (snd (exec (generateTodosFromPrompt JSON_parse env prompt existingTitles) n))
    = faults n ∧
  (∃ key, headers (completion_request env prompt existingTitles)
            = [(js "Content-Type", js "application/json");
               (js "Authorization", js "Bearer " ++ key)] ∧
          key ≠ [] ∧ trim key = key ∧
          ∃ raw, VITE_OPENAI_API_KEY env = Some raw ∧ key = trim raw) ∧
  url (completion_request env prompt existingTitles)
    = openAiApiBase env ++ js "/chat/completions" ∧
  trim (openAiApiBase env) = openAiApiBase env ∧
  openAiApiBase env ≠ [].
Proof.
  intros Hkey. rewrite exec_generate_net by exact Hkey. cbn [serve snd calls todos session faults].
  repeat split.
  - exists (openAiApiKey env). split; [reflexivity|]. split; [exact Hkey|].
    revert Hkey. unfold openAiApiKey.
    destruct (VITE_OPENAI_API_KEY env) as [raw|]; cbn; [|congruence].
    destruct (trim raw) as [|c k] eqn:Hraw; [congruence|]. intros _.
    split; [rewrite <- Hraw; apply trim_idempotent|]. exists raw. now rewrite Hraw.
  - unfold openAiApiBase. destruct (VITE_OPENAI_API_BASE env) as [raw|]; cbn;
      [|vm_compute; reflexivity].
    destruct (trim raw) as [|c k] eqn:Hraw; [vm_compute; reflexivity|].
    rewrite <- Hraw. apply trim_idempotent.
  - unfold openAiApiBase. destruct (VITE_OPENAI_API_BASE env) as [raw|]; cbn;
      [|discriminate].
    destruct (trim raw); discriminate.
Qed.

End gateway_calls.

(** ** Routes *)

(** X23. The routes of [App]. From every location the browser settles
    after at most two redirects on something that is not a redirect. The
    todos are shown only at [/todos], to a signed-in user, once the session
    is known; login and signup only to a visitor who is not signed in.
    While the session is loading every route of the app shows the spinner;
    afterwards a signed-in user ends on the todos from every route, and a
    visitor on the login page, or on signup when that was the location. A
    location that matches no route shows nothing. *)
Theorem routes_guard_the_pages (a : Auth) (location : Location) :
  ∃ at_ element,
    rendered 2 a location = Some (at_, element) ∧
    (∀ to, element ≠ Navigate to) ∧
    (element = Show Todos → at_ = AtTodos ∧ loading a = false ∧ is_Some (user a)) ∧
    (element = Show Login → at_ = AtLogin ∧ loading a = false ∧ user a = None) ∧
    (element = Show Signup → at_ = AtSignup ∧ loading a = false ∧ user a = None) ∧
    (location ≠ Elsewhere → loading a = true → element = LoadingSpinner) ∧
    (location ≠ Elsewhere → loading a = false → is_Some (user a) →
     (at_, element) = (AtTodos, Show Todos)) ∧
    (location ≠ Elsewhere → loading a = false → user a = None →
     (at_, element) = match location with
                      | AtSignup => (AtSignup, Show Signup)
                      | _ => (AtLogin, Show Login)
                      end) ∧
    (location = Elsewhere → element = Blank).
Proof.
  destruct a as [[u|] [|]], location; cbn;
    eexists _, _; (split; [reflexivity|]);
    repeat split; try discriminate; try congruence; eauto;
    intros; try congruence; try (exfalso; eapply is_Some_None; eassumption).
Qed.

(** ** The Supabase client *)

Lemma or_else_trim (raw : option jsstring) :
  trim (or_else (trim <$> raw) []) = or_else (trim <$> raw) [].
Proof.
  destruct raw as [raw|]; cbn; [|reflexivity].
  destruct (trim raw) eqn:H; [reflexivity|]. rewrite <- H. apply trim_idempotent.
Qed.

Lemma or_else_unset (raw : option jsstring) :
  or_else (trim <$> raw) [] = [] ↔ unset raw.
Proof.
  unfold unset, whitespace_only. destruct raw as [raw|]; cbn.
  - destruct (trim raw) eqn:H; split; eauto; try discriminate.
    intros [|(raw' & [= <-] & Hb)]; congruence.
  - split; auto.
Qed.

Lemma or_else_set (raw : option jsstring) :
  or_else (trim <$> raw) [] ≠ [] →
  ∃ s, raw = Some s ∧ or_else (trim <$> raw) [] = trim s.
Proof.
  destruct raw as [raw|]; cbn; [|congruence].
  destruct (trim raw) eqn:H; [congruence|]. intros _. exists raw. now rewrite H.
Qed.

Section client_checks.
Variable URL : jsstring → bool.

(** X24. The Supabase client is created only from a URL and a key that are
    both set, trimmed and not blank, the URL being one [new URL] accepts;
    the arguments of [createClient] are the trimmed values. A URL that is
    unset or blank is reported first, then a key that is unset or blank,
    then a URL that does not parse; the URL quoted in that last message has
    no white space around it. *)
Theorem supabase_client_needs_url_and_key (env : SupabaseEnv) :
  (supabase URL env = Throw MissingUrlError ↔ unset (VITE_SUPABASE_URL env)) ∧
  (supabase URL env = Throw MissingAnonKeyError ↔
   ¬ unset (VITE_SUPABASE_URL env) ∧ unset (VITE_SUPABASE_ANON_KEY env)) ∧
  (supabase URL env = Throw (InvalidUrlError (supabaseUrl env)) ↔
   ¬ unset (VITE_SUPABASE_URL env) ∧ ¬ unset (VITE_SUPABASE_ANON_KEY env) ∧
   URL (supabaseUrl env) = false) ∧
  (∀ url key, supabase URL env = Ok (url, key) ↔
     (∃ raw, VITE_SUPABASE_URL env = Some raw ∧ url = trim raw) ∧
     (∃ raw, VITE_SUPABASE_ANON_KEY env = Some raw ∧ key = trim raw) ∧
     url ≠ [] ∧ key ≠ [] ∧ URL url = true) ∧
  trim (supabaseUrl env) = supabaseUrl env ∧
  trim (supabaseAnonKey env) = supabaseAnonKey env.
Proof.
  pose proof (or_else_unset (VITE_SUPABASE_URL env)) as Hurl.
  pose proof (or_else_unset (VITE_SUPABASE_ANON_KEY env)) as Hkey.
  pose proof (or_else_set (VITE_SUPABASE_URL env)) as Hurl'.
  pose proof (or_else_set (VITE_SUPABASE_ANON_KEY env)) as Hkey'.
  fold (supabaseUrl env) in Hurl, Hurl'. fold (supabaseAnonKey env) in Hkey, Hkey'.
  assert (Hmsg : ∀ url, MissingUrlError ≠ InvalidUrlError url ∧
                        MissingAnonKeyError ≠ InvalidUrlError url).
  { intros url. split; intros H; vm_compute in H; discriminate H. }
  assert (Hmsg' : MissingUrlError ≠ MissingAnonKeyError)
    by (intros H; vm_compute in H; discriminate H).
  split; [|split; [|split; [|split; [|split; apply or_else_trim]]]]; unfold supabase.
  - destruct (supabaseUrl env) as [|c url] eqn:Eu; cbn [truthy negb]; [tauto|].
    split; [|intros H%Hurl; discriminate].
    destruct (truthy (supabaseAnonKey env)); cbn [negb]; [|congruence].
    destruct (URL (c :: url)); cbn [negb]; discriminate.
  - destruct (supabaseUrl env) as [|c url] eqn:Eu; cbn [truthy negb].
    { split; [congruence|]. intros [H _]. destruct H. now apply Hurl. }
    destruct (supabaseAnonKey env) as [|d key] eqn:Ek; cbn [truthy negb].
    { split; [|reflexivity]. intros _. split; [|now apply Hkey].
      intros H%Hurl. discriminate. }
    split; [|intros [_ H%Hkey]; discriminate].
    destruct (URL (c :: url)); cbn [negb]; discriminate.
  - destruct (supabaseUrl env) as [|c url] eqn:Eu; cbn [truthy negb].
    { split; [intros [= H]; now apply Hmsg in H|].
      intros [H _]. destruct H. now apply Hurl. }
    destruct (supabaseAnonKey env) as [|d key] eqn:Ek; cbn [truthy negb].
    { split; [intros [= H]; now apply Hmsg in H|].
      intros (_ & H & _). destruct H. now apply Hkey. }
    destruct (URL (c :: url)); cbn [negb].
    + split; [discriminate|]. intros (_ & _ & H). discriminate.
    + split; [|reflexivity]. intros _.
      split; [intros H%Hurl; discriminate|]. split; [intros H%Hkey; discriminate|reflexivity].
  - intros url' key'.
    destruct (supabaseUrl env) as [|c url] eqn:Eu; cbn [truthy negb].
    { split; [discriminate|]. intros ((raw & Hraw & ->) & _ & Hne & _).
      unfold supabaseUrl in Eu. rewrite Hraw in Eu. cbn in Eu.
      destruct (trim raw); congruence. }
    destruct (supabaseAnonKey env) as [|d key] eqn:Ek; cbn [truthy negb].
    { split; [discriminate|]. intros (_ & (raw & Hraw & ->) & _ & Hne & _).
      unfold supabaseAnonKey in Ek. rewrite Hraw in Ek. cbn in Ek.
      destruct (trim raw); congruence. }
    destruct (Hurl' ltac:(discriminate)) as (raw1 & Hraw1 & Htrim1).
    destruct (Hkey' ltac:(discriminate)) as (raw2 & Hraw2 & Htrim2).
    destruct (URL (c :: url)) eqn:EU; cbn [negb].
    + split.
      * intros [= <- <-]. repeat split; eauto; discriminate.
      * intros ((r1 & Hr1 & ->) & (r2 & Hr2 & ->) & _).
        rewrite Hraw1 in Hr1. rewrite Hraw2 in Hr2.
        injection Hr1 as <-. injection Hr2 as <-. now rewrite <- Htrim1, <- Htrim2.
    + split; [discriminate|].
      intros ((r1 & Hr1 & ->) & _ & _ & _ & HU).
      rewrite Hraw1 in Hr1. injection Hr1 as <-. rewrite <- Htrim1 in HU. congruence.
Qed.
End client_checks.

(** ** What the gateway returns *)

Section gateway_results.
Variable JSON_parse : jsstring → option JSValue.

Lemma parse_completion_Ok content v :
  parse_completion JSON_parse content = Ok v →
  ∃ parsed,
    (JSON_parse content = Some parsed ∨
     JSON_parse content = None ∧
     indexOf content 123 ≠ (-1)%Z ∧ lastIndexOf content 125 ≠ (-1)%Z ∧
     JSON_parse (slice content (indexOf content 123) (lastIndexOf content 125 + 1))
       = Some parsed) ∧
    suggestions_or_empty parsed = Ok v.
Proof.
  unfold parse_completion. destruct (JSON_parse content) as [parsed|] eqn:Hd.
  - intros H. exists parsed. split; [now left|exact H].
  - destruct (Z.eqb_spec (indexOf content 123) (-1)); cbn [negb andb]; [discriminate|].
    destruct (Z.eqb_spec (lastIndexOf content 125) (-1)); cbn [negb]; [discriminate|].
    destruct (JSON_parse (slice _ _ _)) as [parsed|] eqn:Hr; [|discriminate].
    intros H. exists parsed. split; [right; auto|exact H].
Qed.

(** X25. The gateway returns suggestions only from a completion it parsed:
    whenever [generateTodosFromPrompt] does not throw, a key was configured,
    the endpoint answered with a status from 200 to 299 and a JSON body
    whose first choice carries a text that is not empty, and that text, or
    failing that its part from the first opening to the last closing brace,
    parsed to a value other than [null]; what is returned is the
    [suggestions] of that value, or the empty list. *)
Theorem gateway_succeeds_only_on_a_parsed_completion
    (env : Env) (prompt : jsstring) (existingTitles : list jsstring) (n : Net)
    (v : JSValue) :
  fst (exec (generateTodosFromPrompt JSON_parse env prompt existingTitles) n) = Ok v →
  openAiApiKey env ≠ [] ∧
  ∃ response later body content parsed,
    ai_replies n = Responded response :: later ∧
    (200 <= status response <= 299)%N ∧
    json response = Some body ∧
    first_content body = Some content ∧
    content ≠ [] ∧
    (JSON_parse content = Some parsed ∨
     JSON_parse content = None ∧
     JSON_parse (slice content (indexOf content 123) (lastIndexOf content 125 + 1))
       = Some parsed) ∧
    parsed ≠ JNull ∧
    suggestions_or_empty parsed = Ok v.
Proof.
  unfold generateTodosFromPrompt.
  destruct (openAiApiKey env) as [|k key] eqn:Hk; cbn [truthy negb]; [discriminate|].
  cbn [exec serve fst snd]. unfold next_reply.
  destruct (ai_replies n) as [|[response|] later] eqn:Hr; cbn [fst]; try discriminate.
  destruct (ok response) eqn:Hok; cbn [negb]; [|discriminate].
  destruct (json response) as [body|] eqn:Hj; [|discriminate].
  destruct (first_content body) as [[|c content]|] eqn:Hc; try discriminate.
  cbn [fst]. intros (parsed & Hp & Hs)%parse_completion_Ok.
  split; [discriminate|].
  exists response, later, body, (c :: content), parsed.
  split; [reflexivity|]. split.
  { unfold ok in Hok. apply andb_true_iff in Hok as [H1 H2].
    apply N.leb_le in H1, H2. lia. }
  split; [exact Hj|]. split; [exact Hc|]. split; [discriminate|].
  split; [tauto|]. split; [|exact Hs].
  intros ->. discriminate Hs.
Qed.

(** X26. A completion text that parses, but not to an object: for [null]
    the gateway throws the [TypeError] of reading a property of [null], not
    a [ParseError]; for a number, a string, a boolean or an array it returns
    the empty list. *)
Theorem completion_that_is_not_an_object
    (env : Env) (prompt : jsstring) (existingTitles : list jsstring) (n : Net)
    (response : HttpResponse) (later : list HttpOutcome) (body : Completion)
    (content : jsstring) (parsed : JSValue) :
  openAiApiKey env ≠ [] →
  ai_replies n = Responded response :: later →
  ok response = true →
  json response = Some body →
  first_content body = Some content →
  content ≠ [] →
  JSON_parse content = Some parsed →
  (∀ fields, parsed ≠ JObject fields) →
  fst (exec (generateTodosFromPrompt JSON_parse env prompt existingTitles) n)
    = match parsed with
      | JNull => Throw ThrowTypeError
      | _ => Ok (JArray [])
      end.
Proof.
  intros Hkey Hreply Hok Hjson Hcontent Hne Hparse Hobj.
  destruct content as [|c content]; [congruence|].
  rewrite (generate_on_completion _ _ _ _ _ _ _ _ _ _ Hkey Hreply Hok Hjson Hcontent).
  rewrite (parse_completion_direct _ _ _ Hparse).
  destruct parsed; try reflexivity. now destruct (Hobj fields).
Qed.
End gateway_results.



(** ** Ids *)

Lemma ids_serve rq n :
  NoDup (id <$> todos n) → NoDup (id <$> todos (snd (serve rq n))).
Proof.
  intros Hnd.
  destruct rq as [|asc|t u|u i|i|rq]; cbn [serve];
    destruct (fst (next_fault n)) as [e|]; try exact Hnd; cbn [snd todos after].
  - unfold pg_insert. destruct (owns _ _); cbn [snd]; [|exact Hnd].
    rewrite fmap_app. apply NoDup_app. split; [exact Hnd|]. split.
    + intros x Hx [->|[]%elem_of_nil]%elem_of_cons. revert Hx. apply fresh_id_fresh.
    + apply NoDup_singleton.
  - destruct (fst (pg_update u i n)) as [t|e] eqn:Hu.
    + apply (pg_update_checks _ _ _ _ Hu).
    + now rewrite (pg_update_failure _ _ _ _ Hu).
  - unfold pg_delete. refine (sublist_NoDup _ (id <$> todos n) Hnd _).
    apply fmap_sublist, sublist_filter.
Qed.

(** X27. Ids stay unique: whatever calls a client awaits, with whatever
    arguments, a table whose ids are all different is still one afterwards.
    An insert takes a new id, and an update that would give a row the id of
    another is refused. *)
Theorem ids_stay_unique {A} (p : Prog A) (n : Net) :
  NoDup (id <$> todos n) → NoDup (id <$> todos (snd (exec p n))).
Proof.
  revert n. induction p as [a|rq k IH]; intros n Hnd; [exact Hnd|].
  cbn [exec]. pose proof (ids_serve rq n Hnd) as Hs.
  destruct (serve rq n) as [r n1]. cbn [snd] in Hs. now apply IH.
Qed.

Lemma createTodo_Ok title n row n' :
  exec (createTodo title) n = (Ok row, n') →
  ∃ signed_in, session n = Some signed_in ∧
    row = mkTodo (fresh_id (todos n)) title false (clock n) (uid signed_in) ∧
    todos n' = todos n ++ [row] ∧
    session n' = session n.
Proof.
  rewrite exec_createTodo, serve_getUser. cbn [fst snd].
  destruct (fst (next_fault n)) as [e|]; cbn [fst snd]; [discriminate|].
  destruct (session n) as [signed_in|] eqn:Hs; [|discriminate].
  rewrite serve_insert.
  destruct (fst (next_fault (answered AuthGetUser n))) as [e|]; cbn [fst snd];
    [discriminate|].
  rewrite (pg_insert_own title signed_in (answered AuthGetUser n) Hs). cbn [fst snd].
  intros [= <- <-]. exists signed_in. repeat split. exact Hs.
Qed.

(** X28. [createTodo] does not look for the title in the table: called
    twice with the same title, and succeeding twice, it stores two rows of
    that title, with different ids and the same owner, after the rows the
    table held. *)
Theorem createTodo_twice_makes_two_rows
    (t : jsstring) (n n1 n2 : Net) (first second : Todo) :
  exec (createTodo t) n = (Ok first, n1) →
  exec (createTodo t) n1 = (Ok second, n2) →
  todos n2 = todos n ++ [first; second] ∧
  title first = t ∧ title second = t ∧
  id first ≠ id second ∧
  user_id first = user_id second ∧
  length (filter (λ row, title row = t) (todos n2))
    = 2 + length (filter (λ row, title row = t) (todos n)).
Proof.
  intros (u1 & Hs1 & Hr1 & Ht1 & Hs)%createTodo_Ok (u2 & Hs2 & Hr2 & Ht2 & _)%createTodo_Ok.
  assert (Hu : u2 = u1) by congruence. subst u2.
  assert (Hrows : todos n2 = todos n ++ [first; second]).
  { rewrite Ht2, Ht1, <- app_assoc. reflexivity. }
  split; [exact Hrows|].
  split; [now rewrite Hr1|]. split; [now rewrite Hr2|]. split; [|split].
  - intros Heq. apply (fresh_id_fresh (todos n1)).
    replace (fresh_id (todos n1)) with (id second) by (rewrite Hr2; reflexivity).
    rewrite <- Heq, Ht1, fmap_app. apply elem_of_app. right. left.
  - now rewrite Hr1, Hr2.
  - rewrite Hrows, filter_app, length_app.
    rewrite !filter_cons_True, filter_nil by (rewrite ?Hr1, ?Hr2; reflexivity).
    cbn. lia.
Qed.



(** ** A read, whatever the faults *)

(** X29. A read in flight settles, whatever the service does: it issues one
    call, or two when the first fails, and never a third; it ends idle,
    either in success, with the caller's list cached and no error, or, both
    attempts having failed, in error with the list that was cached still
    cached; it changes no row and not the session; and once it has settled,
    completing it again does nothing. *)
Theorem read_settles_within_two_calls (w : World) :
  q_fetchStatus (query w) = Fetching →
  q_fetchStatus (query (complete_fetch w)) = Idle ∧
  todos (net (complete_fetch w)) = todos (net w) ∧
  session (net (complete_fetch w)) = session (net w) ∧
  (calls (net (complete_fetch w)) = calls (net w) ++ [SelectTodos false] ∨
   calls (net (complete_fetch w)) = calls (net w) ++ [SelectTodos false; SelectTodos false]) ∧
  (q_status (query (complete_fetch w)) = QSuccess ∧
   q_error (query (complete_fetch w)) = None ∧
   q_data (query (complete_fetch w)) = Some (pg_select false (net w)) ∧
   q_isInvalidated (query (complete_fetch w)) = false
   ∨
   q_status (query (complete_fetch w)) = QError ∧
   (∃ e, q_error (query (complete_fetch w)) = Some (RemoteError e)) ∧
   q_data (query (complete_fetch w)) = q_data (query w) ∧
   cached_todos (complete_fetch w) = cached_todos w ∧
   calls (net (complete_fetch w)) = calls (net w) ++ [SelectTodos false; SelectTodos false]) ∧
  complete_fetch (complete_fetch w) = complete_fetch w.
Proof.
  intros Hf.
  assert (Hidle : q_fetchStatus (query (complete_fetch w)) = Idle →
                  complete_fetch (complete_fetch w) = complete_fetch w).
  { intros H. unfold complete_fetch at 1. now rewrite H. }
  revert Hidle. unfold complete_fetch. rewrite Hf.
  change (query_retries queryClient) with 1.
  rewrite retryer_unfold, exec_fetchTodos.
  destruct (fst (next_fault (net w))) as [e1|] eqn:H1.
  - rewrite retryer_unfold.
    change (net (dispatch ?a (set_net ?n ?x))) with n.
    rewrite exec_fetchTodos.
    destruct (fst (next_fault (answered (SelectTodos false) (net w)))) as [e2|] eqn:H2.
    + intros Hidle. cbn. rewrite <- app_assoc. cbn.
      repeat split; auto.
      right. unfold cached_todos. cbn. repeat split; eauto.
    + intros Hidle. cbn. rewrite <- app_assoc. cbn. repeat split; auto.
  - intros Hidle. cbn. repeat split; auto.
Qed.


(** * Worked instances

    The theorems at concrete states: a signed-in user, the sample table, a
    service that fails as scheduled. *)


Lemma read_retried_once_writes_never_witness :
  q_fetchStatus (query (with_faults [Some timeout_error; None] world0)) = Fetching ∧
  faults (net (with_faults [Some timeout_error; None] world0))
    = [Some timeout_error; None] ∧
  q_status (query (complete_fetch (with_faults [Some timeout_error; None] world0)))
    = QSuccess ∧
  q_error (query (complete_fetch (with_faults [Some timeout_error; None] world0)))
    = None.
Proof.
  split; [reflexivity|]. split; [reflexivity|].
  destruct (read_retried_once_writes_never
              (with_faults [Some timeout_error; None] world0) timeout_error None []
              eq_refl eq_refl) as ((_ & _ & Hs & He & _) & _).
  split; [exact Hs|exact He].
Defined.

Lemma fetchTodos_owned_newest_first_witness :
  ∃ l, fst (exec fetchTodos
              (net (with_rows [mkTodo 1 (js "old") false 5 7;
                               mkTodo 2 (js "theirs") false 6 8;
                               mkTodo 3 (js "new") true 9 7] world0))) = Ok l ∧
       title <$> l = [js "new"; js "old"].
Proof.
  pose proof (fetchTodos_owned_newest_first
                (net (with_rows [mkTodo 1 (js "old") false 5 7;
                                 mkTodo 2 (js "theirs") false 6 8;
                                 mkTodo 3 (js "new") true 9 7] world0))) as H.
  cbn [fst next_fault faults net with_rows set_net] in H.
  destruct H as (l & Hl & _). exists l. split; [exact Hl|].
  vm_compute in Hl. injection Hl as <-. reflexivity.
Defined.

Lemma createTodo_checks_identity_then_inserts_witness :
  (session (mkNet None [] 0 [] [] []) = None ∧
   fst (exec (createTodo (js "Buy milk")) (mkNet None [] 0 [] [] []))
     = Throw NotAuthenticatedError ∧
   calls (snd (exec (createTodo (js "Buy milk")) (mkNet None [] 0 [] [] [])))
     = [AuthGetUser]) ∧
  (session net0 = Some alice ∧
   fst (exec (createTodo (js "Buy milk")) net0)
     = Ok (mkTodo 1 (js "Buy milk") false 1000 7) ∧
   todos (snd (exec (createTodo (js "Buy milk")) net0))
     = [mkTodo 1 (js "Buy milk") false 1000 7] ∧
   calls (snd (exec (createTodo (js "Buy milk")) net0))
     = [AuthGetUser; InsertTodo (js "Buy milk") 7]).
Proof.
  split.
  - pose proof (createTodo_checks_identity_then_inserts
                  (js "Buy milk") (mkNet None [] 0 [] [] [])) as H.
    destruct (exec (createTodo (js "Buy milk")) (mkNet None [] 0 [] [] [])) as [r n'].
    destruct H as (_ & H & _). destruct (H eq_refl) as (Hr & Hc & _).
    split; [reflexivity|]. split; [exact Hr|exact Hc].
  - pose proof (createTodo_checks_identity_then_inserts (js "Buy milk") net0) as H.
    destruct (exec (createTodo (js "Buy milk")) net0) as [r n'].
    destruct H as (_ & _ & H & _).
    destruct (H alice eq_refl) as (Hr & Ht & Hc).
    { intros e He. cbn in He. inversion He. }
    split; [reflexivity|]. split; [exact Hr|]. split; [exact Ht|exact Hc].
Defined.

Lemma completed_only_update_keeps_title_witness :
  exec (updateTodo 1 (only_completed true))
       (net (with_rows [mkTodo 1 (js "old") false 5 7] world0))
    = (Ok (mkTodo 1 (js "old") true 5 7),
       snd (exec (updateTodo 1 (only_completed true))
                 (net (with_rows [mkTodo 1 (js "old") false 5 7] world0)))) ∧
  ∃ old, old ∈ [mkTodo 1 (js "old") false 5 7] ∧
         title (mkTodo 1 (js "old") true 5 7) = title old.
Proof.
  assert (H : exec (updateTodo 1 (only_completed true))
                (net (with_rows [mkTodo 1 (js "old") false 5 7] world0))
              = (Ok (mkTodo 1 (js "old") true 5 7),
                 snd (exec (updateTodo 1 (only_completed true))
                        (net (with_rows [mkTodo 1 (js "old") false 5 7] world0)))))
    by (vm_compute; reflexivity).
  split; [exact H|].
  destruct (completed_only_update_keeps_title _ _ _ _ _ H)
    as (_ & _ & _ & old & Hin & _ & _ & _ & Ht & _).
  exists old. split; [exact Hin|exact Ht].
Defined.

Lemma bulk_create_lists_each_title_once_witness :
  NoDup [js "A"; js "B"; js "C"] ∧
  titlesToAdd (view (suggest [js "A"; js "B"; js "C"] world0)) = [js "A"; js "B"; js "C"] ∧
  fst (exec fetchTodos
         (net (handleAddSelectedSuggestions [2; 0; 1; 1; 2; 0]
                 (suggest [js "A"; js "B"; js "C"] world0))))
    = Ok [mkTodo 3 (js "A") false 1002 7; mkTodo 2 (js "C") false 1001 7;
          mkTodo 1 (js "B") false 1000 7] ∧
  listed_exactly_once [js "A"; js "B"; js "C"]
    [mkTodo 3 (js "A") false 1002 7; mkTodo 2 (js "C") false 1001 7;
     mkTodo 1 (js "B") false 1000 7].
Proof.
  assert (Hnd : NoDup [js "A"; js "B"; js "C"])
    by (apply (bool_decide_unpack _); vm_compute; exact I).
  assert (Ht : titlesToAdd (view (suggest [js "A"; js "B"; js "C"] world0))
               = [js "A"; js "B"; js "C"]) by (vm_compute; reflexivity).
  split; [exact Hnd|]. split; [exact Ht|]. split; [vm_compute; reflexivity|].
  destruct (bulk_create_lists_each_title_once _ (suggest [js "A"; js "B"; js "C"] world0) Hnd)
    as (_ & _ & _ & Hpage).
  destruct (Hpage Ht [2; 0; 1; 1; 2; 0]) as (_ & Hread & _).
  assert (Hall : Promise_all
                   (snd <$> fst (fst (bulk_create [2; 0; 1; 1; 2; 0] [js "A"; js "B"; js "C"]
                                        (suggest [js "A"; js "B"; js "C"] world0))))
                   (snd (fst (bulk_create [2; 0; 1; 1; 2; 0] [js "A"; js "B"; js "C"]
                                (suggest [js "A"; js "B"; js "C"] world0))))
                 = Some (Ok [mkTodo 3 (js "A") false 1002 7;
                             mkTodo 1 (js "B") false 1000 7;
                             mkTodo 2 (js "C") false 1001 7]))
    by (vm_compute; reflexivity).
  assert (Hl : exec fetchTodos
                 (net (handleAddSelectedSuggestions [2; 0; 1; 1; 2; 0]
                         (suggest [js "A"; js "B"; js "C"] world0)))
               = (Ok [mkTodo 3 (js "A") false 1002 7; mkTodo 2 (js "C") false 1001 7;
                      mkTodo 1 (js "B") false 1000 7],
                  snd (exec fetchTodos
                         (net (handleAddSelectedSuggestions [2; 0; 1; 1; 2; 0]
                                 (suggest [js "A"; js "B"; js "C"] world0))))))
    by (vm_compute; reflexivity).
  destruct (Hread _ _ _ Hall Hl) as (_ & Honce & _).
  apply Honce. intros row Hrow. inversion Hrow.
Defined.

(** Exactly once is more than holds in general: on a list that holds the
    title already nothing looks for it, and the read after the bulk add
    lists it twice. *)
Lemma bulk_add_of_a_listed_title_lists_it_twice :
  let w := suggest [js "A"] (with_rows [mkTodo 1 (js "A") false 5 7] world0) in
  NoDup [js "A"] ∧
  titlesToAdd (view w) = [js "A"] ∧
  Promise_all (snd <$> fst (fst (bulk_create [0; 0] [js "A"] w)))
              (snd (fst (bulk_create [0; 0] [js "A"] w)))
    = Some (Ok [mkTodo 2 (js "A") false 1000 7]) ∧
  fst (exec fetchTodos (net (handleAddSelectedSuggestions [0; 0] w)))
    = Ok [mkTodo 2 (js "A") false 1000 7; mkTodo 1 (js "A") false 5 7] ∧
  length (filter (λ row, title row = js "A")
            [mkTodo 2 (js "A") false 1000 7; mkTodo 1 (js "A") false 5 7]) = 2 ∧
  ¬ listed_exactly_once [js "A"]
      [mkTodo 2 (js "A") false 1000 7; mkTodo 1 (js "A") false 5 7].
Proof.
  split; [apply (bool_decide_unpack _); vm_compute; exact I|].
  split; [vm_compute; reflexivity|]. split; [vm_compute; reflexivity|].
  split; [vm_compute; reflexivity|]. split; [vm_compute; reflexivity|].
  intros H. specialize (H (js "A") ltac:(left)). vm_compute in H. discriminate H.
Qed.

Lemma unconfigured_gateway_makes_no_call_witness :
  openAiApiKey (mkEnv (Some (js "   ")) None) = [] ∧
  exec (generateTodosFromPrompt json_parse (mkEnv (Some (js "   ")) None)
          (js "plan my day") [js "Buy milk"])
       (with_reply (completion_of (js "{}")) net0)
    = (Throw NotConfiguredError, with_reply (completion_of (js "{}")) net0).
Proof.
  split; [reflexivity|].
  apply (unconfigured_gateway_makes_no_call json_parse). reflexivity.
Defined.

Lemma recovery_parses_outermost_braces_witness :
  json_parse (js "Here you go: " ++ 123%N :: (quoted (js "suggestions") ++ js ":[{"
               ++ quoted (js "title") ++ js ":" ++ quoted (js "A") ++ js "}]")
               ++ 125%N :: js " Enjoy!") = None ∧
  fst (exec (generateTodosFromPrompt json_parse env_with_key (js "plan my day") [])
         (with_reply
            (completion_of
               (js "Here you go: " ++ 123%N :: (quoted (js "suggestions") ++ js ":[{"
                  ++ quoted (js "title") ++ js ":" ++ quoted (js "A") ++ js "}]")
                  ++ 125%N :: js " Enjoy!")) net0))
  = Ok (JArray [JObject [(js "title", JString (js "A"))]]) ∧
  fst (exec (generateTodosFromPrompt json_parse env_with_key (js "plan my day") [])
         (with_reply
            (completion_of
               (123%N :: (quoted (js "suggestions") ++ js ":[{"
                  ++ quoted (js "title") ++ js ":" ++ quoted (js "A") ++ js "}]")
                  ++ [125%N])) net0))
  = Ok (JArray [JObject [(js "title", JString (js "A"))]]).
Proof.
  assert (H : json_parse (js "Here you go: " ++ 123%N :: (quoted (js "suggestions")
                ++ js ":[{" ++ quoted (js "title") ++ js ":" ++ quoted (js "A") ++ js "}]")
                ++ 125%N :: js " Enjoy!") = None) by (vm_compute; reflexivity).
  split; [exact H|].
  assert (Hkey : openAiApiKey env_with_key ≠ []) by (vm_compute; discriminate).
  destruct (recovery_parses_outermost_braces json_parse _ _ _
              env_with_key (js "plan my day") []
              (with_reply (completion_of _) net0) _ _ _
              H Hkey eq_refl eq_refl eq_refl eq_refl)
    as (_ & _ & _ & _ & Hexact & _).
  destruct Hexact as [_ Hv].
  - apply (bool_decide_unpack _). vm_compute. exact I.
  - apply (bool_decide_unpack _). vm_compute. exact I.
  - apply (Hv [(js "suggestions", JArray [JObject [(js "title", JString (js "A"))]])]).
    + vm_compute. reflexivity.
    + vm_compute. reflexivity.
    + discriminate.
Defined.

Lemma missing_suggestions_is_empty_list_witness :
  openAiApiKey env_with_key ≠ [] ∧
  json_parse (js "{}") = Some (JObject []) ∧
  fst (exec (generateTodosFromPrompt json_parse env_with_key (js "plan my day") [])
            (with_reply (completion_of (js "{}")) net0))
    = Ok (JArray []).
Proof.
  assert (Hkey : openAiApiKey env_with_key ≠ []) by (vm_compute; discriminate).
  split; [exact Hkey|]. split; [reflexivity|].
  eapply (missing_suggestions_is_empty_list json_parse env_with_key (js "plan my day") []
            (with_reply (completion_of (js "{}")) net0) _ [] _ (js "{}") []
            Hkey eq_refl eq_refl eq_refl eq_refl).
  - vm_compute; discriminate.
  - reflexivity.
  - left; reflexivity.
Defined.

(** A read that fails twice: one error in the query, one error action, two
    calls. *)
Example read_fails_twice :
  let w := complete_fetch (with_faults [Some timeout_error; Some rls_violation] world0) in
  q_error (query w) = Some (RemoteError rls_violation) ∧
  dispatched w = [ActFetch; ActFailed 1 (RemoteError timeout_error);
                  ActError (RemoteError rls_violation)] ∧
  calls (net w) = [SelectTodos false; SelectTodos false].
Proof. vm_compute. repeat split. Qed.

(** A create that the service refuses: the caller has the error, the console
    shows it, the cache is as before and nothing is refetched. *)
Example create_fails :
  let w := handleSubmit_onSubmit
             (type_title (js "Buy milk") (with_faults [None; Some timeout_error] world0)) in
  console (view w) = [RemoteError timeout_error] ∧
  query w = query world0 ∧
  createState w = mkMutation MError (Some (RemoteError timeout_error)) ∧
  calls (net w) = [AuthGetUser; InsertTodo (js "Buy milk") 7] ∧
  form_title (view w) = js "Buy milk".
Proof. vm_compute. repeat split. Qed.

(** Create, then the refetch it triggers: one entry, not completed, with the
    fields the server assigned. *)
Example create_then_read :
  cached_todos (complete_fetch
                  (handleSubmit_onSubmit (type_title (js "Buy milk") world0)))
  = [mkTodo 1 (js "Buy milk") false 1000 7].
Proof. vm_compute. reflexivity. Qed.

(** The request the gateway sends. *)
Example completion_request_example :
  let rq := completion_request env_with_key (js "plan my day") [] in
  url rq = js "https://api.openai.com/v1/chat/completions" ∧
  headers rq = [(js "Content-Type", js "application/json");
                (js "Authorization", js "Bearer sk-test")] ∧
  calls (snd (exec (generateTodosFromPrompt json_parse env_with_key (js "plan my day") [])
                   net0)) = [HttpFetch rq].
Proof. vm_compute. repeat split. Qed.

(** A refused request: the status and the body are in the message. *)
Example request_failed_example :
  fst (exec (generateTodosFromPrompt json_parse env_with_key (js "plan my day") [])
         (with_reply (Responded (mkHttpResponse 429 (js "Too Many Requests")
                                   (js "slow down") None)) net0))
  = Throw (ThrowError (js "AI request failed: 429 Too Many Requests "
                        ++ [0x2013%N] ++ js " slow down")).
Proof. vm_compute. reflexivity. Qed.

(** ** More worked instances

    On [sample_rows], with the sample user signed in. *)

Lemma updateTodo_of_missing_row_fails_witness :
  fst (exec (updateTodo 2 (only_completed true)) (net (with_rows sample_rows world0)))
    = Throw (RemoteError not_single) ∧
  fst (exec (deleteTodo 2) (net (with_rows sample_rows world0))) = Ok ().
Proof.
  destruct (updateTodo_of_missing_row_fails 2 (only_completed true)
              (net (with_rows sample_rows world0)) eq_refl) as (Hu & _ & Hd & _).
  - intros t Ht Hid. vm_compute in Ht.
    repeat (apply elem_of_cons in Ht as [->|Ht]; [vm_compute; discriminate|]);
      try discriminate Hid.
    inversion Ht.
  - split; [exact Hu|exact Hd].
Defined.

Lemma updateTodo_changes_one_row_witness :
  exec (updateTodo 1 (only_title (js "renamed"))) (net (with_rows sample_rows world0))
    = (Ok (mkTodo 1 (js "renamed") false 5 7),
       snd (exec (updateTodo 1 (only_title (js "renamed")))
              (net (with_rows sample_rows world0)))) ∧
  ∃ before old after,
    sample_rows = before ++ old :: after ∧
    todos (snd (exec (updateTodo 1 (only_title (js "renamed")))
                  (net (with_rows sample_rows world0))))
      = before ++ mkTodo 1 (js "renamed") false 5 7 :: after.
Proof.
  assert (H : exec (updateTodo 1 (only_title (js "renamed")))
                (net (with_rows sample_rows world0))
              = (Ok (mkTodo 1 (js "renamed") false 5 7),
                 snd (exec (updateTodo 1 (only_title (js "renamed")))
                        (net (with_rows sample_rows world0)))))
    by (vm_compute; reflexivity).
  split; [exact H|].
  destruct (updateTodo_changes_one_row _ _ _ _ _ H)
    as (before & old & after & Hb & Ha & _).
  exists before, old, after. split; [exact Hb|exact Ha].
Defined.

Lemma toggling_twice_restores_the_table_witness :
  exec (updateTodo 1 (only_completed true)) (net (with_rows sample_rows world0))
    = (Ok (mkTodo 1 (js "old") true 5 7),
       snd (exec (updateTodo 1 (only_completed true))
              (net (with_rows sample_rows world0)))) ∧
  ∃ old,
    old ∈ sample_rows ∧
    todos (snd (exec (updateTodo 1 (only_completed (completed old)))
                  (snd (exec (updateTodo 1 (only_completed true))
                          (net (with_rows sample_rows world0))))))
      = sample_rows.
Proof.
  assert (H : exec (updateTodo 1 (only_completed true)) (net (with_rows sample_rows world0))
              = (Ok (mkTodo 1 (js "old") true 5 7),
                 snd (exec (updateTodo 1 (only_completed true))
                        (net (with_rows sample_rows world0)))))
    by (vm_compute; reflexivity).
  split; [exact H|].
  destruct (toggling_twice_restores_the_table _ _ _ _ _ H eq_refl)
    as (old & Hin & _ & _ & _ & Hrows).
  exists old. split; [exact Hin|exact Hrows].
Defined.

Lemma checking_a_todo_moves_it_between_the_tabs_witness :
  exec (updateTodo 1 (only_completed true)) (net (with_rows sample_rows world0))
    = (Ok (mkTodo 1 (js "old") true 5 7),
       snd (exec (updateTodo 1 (only_completed true))
              (net (with_rows sample_rows world0)))) ∧
  ∃ old,
    old ∈ sample_rows ∧
    completedCount (pg_select false
       (snd (exec (updateTodo 1 (only_completed true))
               (net (with_rows sample_rows world0)))))
      + (if completed old then 1 else 0)
    = completedCount (pg_select false (net (with_rows sample_rows world0))) + 1.
Proof.
  assert (H : exec (updateTodo 1 (only_completed true)) (net (with_rows sample_rows world0))
              = (Ok (mkTodo 1 (js "old") true 5 7),
                 snd (exec (updateTodo 1 (only_completed true))
                        (net (with_rows sample_rows world0)))))
    by (vm_compute; reflexivity).
  split; [exact H|].
  destruct (checking_a_todo_moves_it_between_the_tabs _ _ _ _ _ H)
    as (old & Hin & _ & _ & Hc & _).
  exists old. split; [exact Hin|exact Hc].
Defined.

Lemma created_todo_is_listed_first_witness :
  ∃ row rest,
    cached_todos (complete_fetch
      (handleSubmit_onSubmit (type_title (js "Buy milk") (with_rows sample_rows world0))))
      = row :: rest ∧
    title row = js "Buy milk" ∧
    rest ≡ₚ pg_select false (net (with_rows sample_rows world0)).
Proof.
  destruct (created_todo_is_listed_first
              (type_title (js "Buy milk") (with_rows sample_rows world0)) alice
              eq_refl eq_refl)
    as (row & rest & Hl & Ht & _ & _ & Hrest & _).
  - vm_compute. discriminate.
  - intros t Ht. vm_compute in Ht.
    repeat (apply elem_of_cons in Ht as [->|Ht]; [vm_compute; reflexivity|]).
    inversion Ht.
  - exists row, rest. split; [exact Hl|]. split; [exact Ht|exact Hrest].
Defined.

Lemma deleted_todo_leaves_the_list_witness :
  faults (net (with_rows sample_rows world0)) = [] ∧
  cached_todos (complete_fetch
                  (clickDelete (mkTodo 1 (js "old") false 5 7) (with_rows sample_rows world0)))
    ≡ₚ filter (λ t, id t ≠ 1%N) (pg_select false (net (with_rows sample_rows world0))) ∧
  cached_todos (complete_fetch
                  (clickDelete (mkTodo 1 (js "old") false 5 7) (with_rows sample_rows world0)))
    = [mkTodo 3 (js "new") true 9 7].
Proof.
  split; [reflexivity|]. split; [|vm_compute; reflexivity].
  exact (proj1 (deleted_todo_leaves_the_list (mkTodo 1 (js "old") false 5 7)
                  (with_rows sample_rows world0) eq_refl)).
Defined.

Lemma saving_an_unchanged_title_changes_no_row_witness :
  todos (net (handleSaveEdit 1 (handleEdit (mkTodo 1 (js "old") false 5 7)
                                  (with_rows sample_rows world0))))
    = sample_rows.
Proof.
  refine (proj1 (saving_an_unchanged_title_changes_no_row (mkTodo 1 (js "old") false 5 7)
                   (with_rows sample_rows world0) _ _ _)).
  - left.
  - apply (bool_decide_unpack _). vm_compute. exact I.
  - vm_compute. reflexivity.
Defined.

Lemma filtered_list_keeps_the_order_of_the_read_witness :
  fst (exec fetchTodos (net (with_rows sample_rows world0)))
    = Ok [mkTodo 3 (js "new") true 9 7; mkTodo 1 (js "old") false 5 7] ∧
  StronglySorted (λ a b, (created_at b <= created_at a)%Z)
    (filteredTodos FilterActive
       [mkTodo 3 (js "new") true 9 7; mkTodo 1 (js "old") false 5 7]).
Proof.
  assert (H : fst (exec fetchTodos (net (with_rows sample_rows world0)))
              = Ok [mkTodo 3 (js "new") true 9 7; mkTodo 1 (js "old") false 5 7])
    by (vm_compute; reflexivity).
  split; [exact H|].
  exact (proj1 (proj2 (filtered_list_keeps_the_order_of_the_read FilterActive _ _ H))).
Defined.

Lemma configured_gateway_makes_one_request_witness :
  openAiApiKey env_with_key ≠ [] ∧
  calls (snd (exec (generateTodosFromPrompt json_parse env_with_key (js "plan my day") [])
                (with_reply NetworkFailure net0)))
    = [HttpFetch (completion_request env_with_key (js "plan my day") [])].
Proof.
  assert (Hkey : openAiApiKey env_with_key ≠ []) by (vm_compute; discriminate).
  split; [exact Hkey|].
  exact (proj1 (configured_gateway_makes_one_request json_parse env_with_key
                  (js "plan my day") [] (with_reply NetworkFailure net0) Hkey)).
Defined.


Lemma gateway_succeeds_only_on_a_parsed_completion_witness :
  fst (exec (generateTodosFromPrompt json_parse env_with_key (js "plan my day") [])
            (with_reply (completion_of (js "{}")) net0))
    = Ok (JArray []) ∧
  openAiApiKey env_with_key ≠ [].
Proof.
  assert (H : fst (exec (generateTodosFromPrompt json_parse env_with_key (js "plan my day") [])
                     (with_reply (completion_of (js "{}")) net0))
              = Ok (JArray [])) by (vm_compute; reflexivity).
  split; [exact H|].
  exact (proj1 (gateway_succeeds_only_on_a_parsed_completion json_parse _ _ _ _ _ H)).
Defined.

Lemma completion_that_is_not_an_object_witness :
  json_parse (js "null") = Some JNull ∧
  fst (exec (generateTodosFromPrompt json_parse env_with_key (js "plan my day") [])
            (with_reply (completion_of (js "null")) net0))
    = Throw ThrowTypeError.
Proof.
  split; [vm_compute; reflexivity|].
  refine (completion_that_is_not_an_object json_parse env_with_key (js "plan my day") []
            (with_reply (completion_of (js "null")) net0) _ [] _ (js "null") JNull
            _ eq_refl eq_refl eq_refl eq_refl _ _ _).
  - vm_compute; discriminate.
  - vm_compute; discriminate.
  - vm_compute; reflexivity.
  - discriminate.
Defined.

Lemma ids_stay_unique_witness :
  NoDup (id <$> sample_rows) ∧
  NoDup (id <$> todos (snd (exec (updateTodo 1 (mkPartial (Some 2%N) None None None None))
                               (net (with_rows sample_rows world0))))).
Proof.
  assert (H : NoDup (id <$> sample_rows))
    by (apply (bool_decide_unpack _); vm_compute; exact I).
  split; [exact H|].
  exact (ids_stay_unique (updateTodo 1 (mkPartial (Some 2%N) None None None None))
           (net (with_rows sample_rows world0)) H).
Defined.

Lemma createTodo_twice_makes_two_rows_witness :
  todos (snd (exec (createTodo (js "Buy milk"))
                (snd (exec (createTodo (js "Buy milk")) net0))))
    = [mkTodo 1 (js "Buy milk") false 1000 7; mkTodo 2 (js "Buy milk") false 1001 7].
Proof.
  refine (proj1 (createTodo_twice_makes_two_rows (js "Buy milk") net0
                   (snd (exec (createTodo (js "Buy milk")) net0))
                   (snd (exec (createTodo (js "Buy milk"))
                           (snd (exec (createTodo (js "Buy milk")) net0))))
                   (mkTodo 1 (js "Buy milk") false 1000 7)
                   (mkTodo 2 (js "Buy milk") false 1001 7) _ _));
    vm_compute; reflexivity.
Defined.

Lemma read_settles_within_two_calls_witness :
  q_fetchStatus (query (with_faults [Some timeout_error; Some timeout_error] world0))
    = Fetching ∧
  q_fetchStatus (query (complete_fetch
                          (with_faults [Some timeout_error; Some timeout_error] world0)))
    = Idle.
Proof.
  split; [reflexivity|].
  exact (proj1 (read_settles_within_two_calls
                  (with_faults [Some timeout_error; Some timeout_error] world0) eq_refl)).
Defined.
